(** * Hatlab_RFSOC: the averager programs of [core/averager_program.py]

    A shallow embedding of [QickRegister], [QickSweep], [APAveragerProgram]
    and [NDAveragerProgram], and the properties of register allocation,
    sweep registration, the emitted loop nest and the reduction of the
    acquired samples.

    Conventions.
    - Python integers are [Z]; physical values and the float64 samples of
      the numpy buffers are idealised as real numbers [R] (rounding, NaN
      and infinities are outside the model).
    - A method of the program object is a computation in the monad [M]: it
      threads the object's fields and either returns or raises.  The fields
      are kept when an exception is raised, as in Python.
    - The qick library (the base class [QickProgram]) is an interface,
      [QickProgramAPI]; the instructions it appends to the program are the
      constructors of [Instr]. *)

From Stdlib Require Import ZArith List String Reals Lra Lia DecimalString DecimalZ.
From stdpp Require Import gmap strings list fin_maps.

Open Scope Z_scope.

(** ** Exceptions and the program monad *)

Inductive exn : Type :=
| KeyError | ValueError | IndexError | OverflowError
| ZeroDivisionError | TypeError | AttributeError | UnboundLocalError.

Inductive outcome (A : Type) : Type :=
| Ok (a : A)
| Raise (e : exn).
Arguments Ok {A} a.
Arguments Raise {A} e.

#[export] Instance exn_eq_dec : EqDecision exn.
Proof. solve_decision. Defined.

Definition obind {A B} (o : outcome A) (k : A -> outcome B) : outcome B :=
  match o with
  | Ok a => k a
  | Raise e => Raise e
  end.

#[export] Instance outcome_fmap : FMap outcome :=
  fun A B f o => match o with Ok a => Ok (f a) | Raise e => Raise e end.

Definition M (S A : Type) : Type := S -> S * outcome A.

Definition ret {S A} (a : A) : M S A := fun s => (s, Ok a).
Definition raise {S A} (e : exn) : M S A := fun s => (s, Raise e).
Definition bind {S A B} (m : M S A) (k : A -> M S B) : M S B :=
  fun s => match m s with
           | (s', Ok a) => k a s'
           | (s', Raise e) => (s', Raise e)
           end.
Definition get {S} : M S S := fun s => (s, Ok s).
Definition modify {S} (f : S -> S) : M S unit := fun s => (f s, Ok tt).
Definition lift {S A} (o : outcome A) : M S A := fun s => (s, o).

(** [try: m except e: h] runs the handler only for the exception named
    in the clause; any other exception goes on to the caller. *)
Definition try_except {S A} (m : M S A) (e : exn) (h : M S A) : M S A :=
  fun s => match m s with
           | (s', Raise e') => if decide (e' = e) then h s' else (s', Raise e')
           | r => r
           end.

Declare Scope prog_scope.
Delimit Scope prog_scope with prog.
Notation "x <- m ;; k" := (bind m (fun x => k))
  (at level 100, m at next level, right associativity) : prog_scope.
Notation "m ;; k" := (bind m (fun _ => k))
  (at level 100, right associativity) : prog_scope.
Notation "x <~ o ;; k" := (obind o (fun x => k))
  (at level 100, o at next level, right associativity) : prog_scope.
Open Scope prog_scope.

(** A [for] loop over a list, left to right, stopping at the first raise. *)
Fixpoint for_each {S A} (l : list A) (f : A -> M S unit) : M S unit :=
  match l with
  | [] => ret tt
  | x :: l' => f x ;; for_each l' f
  end.

(** [d[k]] on a Python dict: a missing key is a [KeyError]. *)
Definition getitem {V} (d : gmap string V) (k : string) : outcome V :=
  match d !! k with
  | Some v => Ok v
  | None => Raise KeyError
  end.

(** [str(n)] of an integer. *)
Definition str_of_Z (n : Z) : string := NilZero.string_of_int (Z.to_int n).

(** ** Values of the configuration dictionaries *)

Inductive pyval : Type :=
| VInt (n : Z)
| VFloat (x : R)
| VStr (s : string).

(** ** Registers *)

Inductive RegisterTypes : Type := freq | time | phase | adc_freq.

(** The part of [QickProgram] the module calls and does not define. *)
Class QickProgramAPI : Type := {
  ch_page : pyval -> Z;
  sreg : pyval -> string -> Z;
  freq2reg : R -> option pyval -> option pyval -> Z;
  us2cycles : R -> option pyval -> option pyval -> Z;
  deg2reg : R -> option pyval -> Z;
  freq2reg_adc : R -> option pyval -> option pyval -> Z;
  np_int32 : R -> Z
}.

Record QickRegister : Type := {
  reg_page : Z;
  reg_addr : Z;
  reg_type : option RegisterTypes;
  reg_gen_ch : option pyval;
  reg_ro_ch : option pyval;
  reg_init_val : option R;
  reg_name : option string
}.

(** The instructions appended to the program. *)
Inductive Instr : Type :=
| regwi (page reg imm : Z)
| safe_regwi (page reg imm : Z)
| label (name : string)
| mathi (page rd rs : Z) (op : string) (imm : Z)
| memwi (page reg addr : Z)
| loopnz (page reg : Z) (name : string)
| end_
| user_instr (text : string).

(** One call of [declare_gen]: positional arguments and keyword arguments. *)
Record gen_call : Type := {
  call_args : list pyval;
  call_kws : gmap string pyval
}.

Record QickSweep : Type := {
  swp_reg : QickRegister;
  swp_start : R;
  swp_stop : R;
  swp_expts : Z;
  swp_reg_step : Z;
  swp_init_val : R;
  swp_sweep_array : list R
}.

(** The fields of the program object. *)
Record Prog : Type := {
  gen_chs : list (string * gmap string pyval);   (* cfg["gen_chs"], in insertion order *)
  reps : option Z;                               (* cfg["reps"] *)
  declared_gens : list gen_call;                 (* the calls of declare_gen, in order *)
  prog_list : list Instr;
  user_reg_dict : gmap string (gmap string QickRegister);
  _user_regs : list (Z * Z);
  expts : option Z;
  qick_sweeps : list QickSweep
}.

Definition set_gen_chs (f : list (string * gmap string pyval) -> list (string * gmap string pyval)) (p : Prog) : Prog :=
  {| gen_chs := f (gen_chs p); reps := reps p; declared_gens := declared_gens p;
     prog_list := prog_list p; user_reg_dict := user_reg_dict p;
     _user_regs := _user_regs p; expts := expts p; qick_sweeps := qick_sweeps p |}.
Definition set_declared_gens (f : list gen_call -> list gen_call) (p : Prog) : Prog :=
  {| gen_chs := gen_chs p; reps := reps p; declared_gens := f (declared_gens p);
     prog_list := prog_list p; user_reg_dict := user_reg_dict p;
     _user_regs := _user_regs p; expts := expts p; qick_sweeps := qick_sweeps p |}.
Definition set_prog_list (f : list Instr -> list Instr) (p : Prog) : Prog :=
  {| gen_chs := gen_chs p; reps := reps p; declared_gens := declared_gens p;
     prog_list := f (prog_list p); user_reg_dict := user_reg_dict p;
     _user_regs := _user_regs p; expts := expts p; qick_sweeps := qick_sweeps p |}.
Definition set_user_reg_dict
    (f : gmap string (gmap string QickRegister) -> gmap string (gmap string QickRegister))
    (p : Prog) : Prog :=
  {| gen_chs := gen_chs p; reps := reps p; declared_gens := declared_gens p;
     prog_list := prog_list p; user_reg_dict := f (user_reg_dict p);
     _user_regs := _user_regs p; expts := expts p; qick_sweeps := qick_sweeps p |}.
Definition set_user_regs (f : list (Z * Z) -> list (Z * Z)) (p : Prog) : Prog :=
  {| gen_chs := gen_chs p; reps := reps p; declared_gens := declared_gens p;
     prog_list := prog_list p; user_reg_dict := user_reg_dict p;
     _user_regs := f (_user_regs p); expts := expts p; qick_sweeps := qick_sweeps p |}.
Definition set_expts (f : option Z -> option Z) (p : Prog) : Prog :=
  {| gen_chs := gen_chs p; reps := reps p; declared_gens := declared_gens p;
     prog_list := prog_list p; user_reg_dict := user_reg_dict p;
     _user_regs := _user_regs p; expts := f (expts p); qick_sweeps := qick_sweeps p |}.
Definition set_qick_sweeps (f : list QickSweep -> list QickSweep) (p : Prog) : Prog :=
  {| gen_chs := gen_chs p; reps := reps p; declared_gens := declared_gens p;
     prog_list := prog_list p; user_reg_dict := user_reg_dict p;
     _user_regs := _user_regs p; expts := expts p; qick_sweeps := f (qick_sweeps p) |}.

(** Appending one instruction: what every emitting method of qick does. *)
Definition emit (i : Instr) : M Prog unit := modify (set_prog_list (fun l => l ++ [i])).

(** [cfg["gen_chs"][gen_ch]] *)
Definition gen_cfg (gen_ch : string) : M Prog (gmap string pyval) :=
  p <- get ;;
  lift (getitem (list_to_map (gen_chs p)) gen_ch).

(** ** QickRegister *)

Section Program.
Context {api : QickProgramAPI}.

Definition val2reg (reg : QickRegister) (val : R) : Z :=
  match reg_type reg with
  | Some freq => freq2reg val (reg_gen_ch reg) (reg_ro_ch reg)
  | Some time =>
      match reg_gen_ch reg with
      | Some _ => us2cycles val (reg_gen_ch reg) None
      | None => us2cycles val (reg_gen_ch reg) (reg_ro_ch reg)
      end
  | Some phase => deg2reg val (reg_gen_ch reg)
  | Some adc_freq => freq2reg_adc val (reg_ro_ch reg) (reg_gen_ch reg)
  | None => np_int32 val
  end.

(** [reset]: the conversions compute with the value, so a register without
    an initial value ([init_val] is [None]) is a [TypeError]. *)
Definition QickRegister_reset (reg : QickRegister) : M Prog unit :=
  match reg_init_val reg with
  | Some v => emit (safe_regwi (reg_page reg) (reg_addr reg) (val2reg reg v))
  | None => raise TypeError
  end.

Definition QickRegister_init (page addr : Z) (rtype : option RegisterTypes)
    (gen_ch ro_ch : option pyval) (init_val : option R) (name : option string)
  : M Prog QickRegister :=
  let reg := {| reg_page := page; reg_addr := addr; reg_type := rtype;
                reg_gen_ch := gen_ch; reg_ro_ch := ro_ch;
                reg_init_val := init_val; reg_name := name |} in
  (if init_val is Some _ then QickRegister_reset reg else ret tt) ;;
  ret reg.

(** ** QickSweep *)

(** Python's [/] on numbers: a zero divisor is a [ZeroDivisionError]. *)
Definition py_truediv (x : R) (d : Z) : outcome R :=
  if d =? 0 then Raise ZeroDivisionError else Ok (x / IZR d)%R.

(** [np.linspace(start, stop, num)] *)
Definition linspace (start stop : R) (num : Z) : outcome (list R) :=
  if num <? 0 then Raise ValueError
  else Ok (map (fun k : nat => (start + INR k * ((stop - start) / IZR (num - 1)))%R)
               (seq 0 (Z.to_nat num))).

Definition QickSweep_init (reg : QickRegister) (start stop : R) (n : Z)
  : outcome QickSweep :=
  step_val <~ py_truediv (stop - start)%R (n - 1) ;;
  let reg_step := val2reg reg step_val in
  sweep_array <~ linspace start stop n ;;
  Ok {| swp_reg := reg; swp_start := start; swp_stop := stop; swp_expts := n;
        swp_reg_step := reg_step; swp_init_val := start;
        swp_sweep_array := sweep_array |}.

Definition QickSweep_update (swp : QickSweep) : M Prog unit :=
  emit (mathi (reg_page (swp_reg swp)) (reg_addr (swp_reg swp))
              (reg_addr (swp_reg swp)) "+" (swp_reg_step swp)).

Definition QickSweep_reset (swp : QickSweep) : M Prog unit :=
  QickRegister_reset (swp_reg swp).

(** ** APAveragerProgram: channels and registers *)

(** The dict of one generator channel is shared with [cfg]: [kws.pop]
    changes the entry of [cfg["gen_chs"]] itself. *)
Definition alter_item {V} (f : V -> V) (k : string) (l : list (string * V))
  : list (string * V) :=
  map (fun kv => if decide (kv.1 = k) then (kv.1, f kv.2) else kv) l.

Definition kws_pop (gen_ch key : string) : M Prog pyval :=
  kws <- gen_cfg gen_ch ;;
  v <- lift (getitem kws key) ;;
  modify (set_gen_chs (alter_item (delete key) gen_ch)) ;;
  ret v.

Definition declare_gen (args : list pyval) (kws : gmap string pyval) : M Prog unit :=
  modify (set_declared_gens (fun l => l ++ [{| call_args := args; call_kws := kws |}])).

Definition declare_one_gen (gen_ch : string) : M Prog unit :=
  kws <- gen_cfg gen_ch ;;
  (if decide (is_Some (kws !! "ch_I") /\ is_Some (kws !! "ch_Q")) then
     ch_i <- kws_pop gen_ch "ch_I" ;;
     ch_q <- kws_pop gen_ch "ch_Q" ;;
     for_each ["skew_phase"; "IQ_scale"] (fun arg =>
       try_except (kws_pop gen_ch arg ;; ret tt) AttributeError (ret tt)) ;;
     kws <- gen_cfg gen_ch ;;
     declare_gen [ch_i] kws ;;
     declare_gen [ch_q] kws
   else
     declare_gen [] kws) ;;
  modify (set_user_reg_dict (insert gen_ch ∅)).

Definition declare_all_gens : M Prog unit :=
  p <- get ;;
  for_each (map fst (gen_chs p)) declare_one_gen.

(** [name if name in RegisterTypes.__args__ else None] *)
Definition register_type_of (name : string) : option RegisterTypes :=
  if String.eqb name "freq" then Some freq
  else if String.eqb name "time" then Some time
  else if String.eqb name "phase" then Some phase
  else if String.eqb name "adc_freq" then Some adc_freq
  else None.

Definition get_reg (gen_ch name : string) : M Prog QickRegister :=
  gen_cgf <- gen_cfg gen_ch ;;
  ch <- lift (getitem gen_cgf "ch") ;;
  let page := ch_page ch in
  let addr := sreg ch name in
  QickRegister_init page addr (register_type_of name) (Some ch) (gen_cgf !! "ro_ch")
    None (Some (gen_ch +:+ "_" +:+ name)%string).

(** The [while] loop of [new_reg].  At most [length regs] addresses can be
    taken, so that many steps are enough for the loop to leave by its test
    ([while_taken_free] below). *)
Fixpoint while_taken (fuel : nat) (regs : list (Z * Z)) (page addr : Z) : Z :=
  match fuel with
  | O => addr
  | S fuel' =>
      if decide ((page, addr) ∈ regs) then while_taken fuel' regs page (addr + 1)
      else addr
  end.

Definition new_reg (gen_ch : string) (name : option string) (init_val : option R)
    (rtype : option RegisterTypes) : M Prog QickRegister :=
  gen_cgf <- gen_cfg gen_ch ;;
  ch <- lift (getitem gen_cgf "ch") ;;
  let page := ch_page ch in
  p <- get ;;
  let addr := while_taken (length (_user_regs p)) (_user_regs p) page 1 in
  (if 12 <? addr then raise ValueError else ret tt) ;;
  modify (set_user_regs (fun l => l ++ [(page, addr)])) ;;
  let name := match name with
              | None => ("reg_" +:+ str_of_Z addr)%string
              | Some n => n
              end in
  p <- get ;;
  regs_of_ch <- lift (getitem (user_reg_dict p) gen_ch) ;;
  (if decide (is_Some (regs_of_ch !! name)) then raise KeyError else ret tt) ;;
  reg <- QickRegister_init page addr rtype (Some ch) (gen_cgf !! "ro_ch") init_val (Some name) ;;
  p <- get ;;
  regs_of_ch <- lift (getitem (user_reg_dict p) gen_ch) ;;
  modify (set_user_reg_dict (insert gen_ch (<[name := reg]> regs_of_ch))) ;;
  ret reg.

(** ** NDAveragerProgram *)

Definition add_sweep (sweep : QickSweep) : M Prog unit :=
  modify (set_qick_sweeps (fun l => l ++ [sweep])) ;;
  p <- get ;;
  match expts p with
  | Some e => modify (set_expts (fun _ => Some (e * swp_expts sweep)))
  | None => raise TypeError
  end.

(** [(np.arange(n_sweeps) + 15).tolist()] *)
Definition counter_regs_of (n_sweeps : nat) : list Z :=
  map (fun i : nat => Z.of_nat i + 15) (seq 0 n_sweeps).

(** [l[-1]] *)
Definition last_item (l : list Z) : outcome Z :=
  match last l with
  | Some x => Ok x
  | None => Raise IndexError
  end.

(** The test on the last counter register:
    [if counter_regs[-1] > 21: raise OverflowError]. *)
Definition check_counter_regs (counter_regs : list Z) : outcome unit :=
  top <~ last_item counter_regs ;;
  if 21 <? top then Raise OverflowError else Ok tt.

Definition loop_label (creg : Z) (swp : QickSweep) : string :=
  ("LOOP_" +:+ match reg_name (swp_reg swp) with
               | Some n => n
               | None => str_of_Z creg
               end)%string.

Definition cfg_reps : M Prog Z :=
  p <- get ;;
  match reps p with
  | Some r => ret r
  | None => raise KeyError
  end.

Definition make_program (initialize body : M Prog unit) : M Prog unit :=
  initialize ;;
  let rcount := 13 in
  let rep_count := 14 in
  p <- get ;;
  let n_sweeps := length (qick_sweeps p) in
  let counter_regs := counter_regs_of n_sweeps in
  lift (check_counter_regs counter_regs) ;;
  emit (regwi 0 rcount 0) ;;
  r <- cfg_reps ;;
  emit (regwi 0 rep_count (r - 1)) ;;
  emit (label "LOOP_rep") ;;
  p <- get ;;
  for_each (zip (reverse counter_regs) (reverse (qick_sweeps p))) (fun cs =>
    QickSweep_reset cs.2 ;;
    emit (regwi 0 cs.1 (swp_expts cs.2 - 1)) ;;
    emit (label (loop_label cs.1 cs.2))) ;;
  body ;;
  emit (mathi 0 rcount rcount "+" 1) ;;
  emit (memwi 0 rcount 1) ;;
  p <- get ;;
  for_each (zip counter_regs (qick_sweeps p)) (fun cs =>
    QickSweep_update cs.2 ;;
    emit (loopnz 0 cs.1 (loop_label cs.1 cs.2))) ;;
  emit (loopnz 0 rep_count "LOOP_rep") ;;
  emit end_.

Definition NDAveragerProgram_init (initialize body : M Prog unit) : M Prog unit :=
  modify (set_qick_sweeps (fun _ => [])) ;;
  modify (set_expts (fun _ => Some 1)) ;;
  make_program initialize body.

Definition get_expt_pts : M Prog (list (list R)) :=
  p <- get ;;
  ret (map swp_sweep_array (qick_sweeps p)).

End Program.

(** ** Acquisition and reduction

    [acquire_round] configures the hardware, starts the run and polls the
    stream until [total_count] samples have been written into [d_buf];
    none of this is computed by the repository.  The model starts where
    the polling loop has returned: [d_i] and [d_q] are the two planes
    [d_buf[:, 0, :]] and [d_buf[:, 1, :]], one row of samples per readout
    channel.  [ro_chs] lists the declared readouts in order, each with its
    integration length, [pts] is what [get_expt_pts] returns, and
    [n_reps], [n_expts] are [cfg["reps"]] and [self.expts]. *)

Definition foldM {A S} (f : S -> A -> outcome S) : list A -> S -> outcome S :=
  fix go l s :=
    match l with
    | [] => Ok s
    | x :: l' => s' <~ f s x ;; go l' s'
    end.

Definition mapM_outcome {A B} (f : A -> outcome B) : list A -> outcome (list B) :=
  fix go l :=
    match l with
    | [] => Ok []
    | x :: l' => y <~ f x ;; ys <~ go l' ;; Ok (y :: ys)
    end.

(** [enumerate(l)] *)
Definition enumerate {A} (l : list A) : list (nat * A) := zip (seq 0 (length l)) l.

(** [l[i]] for an index that is not negative. *)
Definition item {A} (l : list A) (i : nat) : outcome A :=
  match l !! i with
  | Some x => Ok x
  | None => Raise IndexError
  end.

(** Python's slice [l[ii::step]] for a positive step: the start is clipped
    as CPython does, then every [step]-th element is taken. *)
Definition slice_start (len : nat) (ii : Z) : nat :=
  if ii <? 0 then Z.to_nat (Z.max 0 (Z.of_nat len + ii))
  else Nat.min (Z.to_nat ii) len.

Fixpoint every_nth {A} (step skip : nat) (l : list A) : list A :=
  match l with
  | [] => []
  | x :: l' =>
      match skip with
      | O => x :: every_nth step (step - 1) l'
      | S k => every_nth step k l'
      end
  end.

Definition strided {A} (l : list A) (ii : Z) (step : nat) : outcome (list A) :=
  if decide (step = 0%nat) then Raise ValueError
  else Ok (every_nth step 0 (drop (slice_start (length l) ii) l)).

(** [a.reshape((rows, cols))] of a one-dimensional array. *)
Definition reshape {A} (l : list A) (rows cols : nat) : outcome (list (list A)) :=
  if decide (length l = (rows * cols)%nat)
  then Ok (map (fun r : nat => take cols (drop (r * cols) l)) (seq 0 rows))
  else Raise ValueError.

(** [np.sum(a, 0)] of a two-dimensional array with [cols] columns. *)
Definition sum_axis0 (cols : nat) (rows : list (list R)) : list R :=
  foldl (zip_with Rplus) (replicate cols 0%R) rows.

Definition div_all (l : list R) (d : R) : list R := map (fun x => (x / d)%R) l.

Definition zeros3 (a b c : nat) : list (list (list R)) :=
  replicate a (replicate b (replicate c 0%R)).

(** [avg[i_ch][nn] = row] *)
Definition set_row (avg : list (list (list R))) (i_ch nn : nat) (row : list R)
  : list (list (list R)) :=
  alter (fun plane => <[nn := row]> plane) i_ch avg.

(** [np.heaviside(x, h0)] *)
Definition heaviside (x h0 : R) : R :=
  if Rlt_dec x 0 then 0%R else if Rlt_dec 0 x then 1%R else h0.

Inductive threshold_arg : Type :=
| ThrInt (t : Z)
| ThrList (l : list R).

Definition get_single_shots (ro_chs : list (pyval * Z)) (di dq : list (list R))
    (threshold : threshold_arg) (angle : option (list R)) : outcome (list (list R)) :=
  let angle := match angle with None => [0%R; 0%R] | Some a => a end in
  let threshold := match threshold with
                   | ThrInt t => [IZR t; IZR t]
                   | ThrList l => l
                   end in
  mapM_outcome (fun ich : nat * (pyval * Z) =>
      let i := ich.1 in
      di_i <~ item di i ;;
      a <~ item angle i ;;
      dq_i <~ item dq i ;;
      t <~ item threshold i ;;
      Ok (zip_with (fun I Q =>
            heaviside ((I * cos a - Q * sin a) / IZR ich.2.2 - t) 0) di_i dq_i))
    (enumerate ro_chs).

(** What a round returns and what it keeps on the object. *)
Record Round : Type := {
  expt_pts : list (list R);
  avg_di : list (list (list R));
  avg_dq : list (list (list R));
  di_buf : list (list R);
  dq_buf : list (list R);
  shots : option (list (list R))
}.

(** The reduction of one saved measurement of one channel:
    [np.sum(buf[ii::rpe].reshape((reps, expts)), 0) / reps]. *)
Definition reduce_row (buf : list R) (ii : Z) (rpe n_reps n_expts : nat)
  : outcome (list R) :=
  s <~ strided buf ii rpe ;;
  rows <~ reshape s n_reps n_expts ;;
  Ok (div_all (sum_axis0 n_expts rows) (INR n_reps)).

(** The body of the two loops of [acquire_round]: the row of saved
    measurement [nn] (index [ii]) for one readout channel. *)
Definition store_average (sh : option (list (list R))) (zero : list (list (list R)))
    (d_i d_q : list (list R)) (rpe n_reps n_expts : nat) (nn : nat) (ii : Z)
    (avgs : list (list (list R)) * list (list (list R)))
    (i_ch_ro : nat * (pyval * Z))
  : outcome (list (list (list R)) * list (list (list R))) :=
  let i_ch : nat := i_ch_ro.1 in
  let ro_length : Z := i_ch_ro.2.2 in
  match sh with
  | None =>
      bi <~ item d_i i_ch ;;
      ri <~ reduce_row bi ii rpe n_reps n_expts ;;
      bq <~ item d_q i_ch ;;
      rq <~ reduce_row bq ii rpe n_reps n_expts ;;
      Ok (set_row avgs.1 i_ch nn (div_all ri (IZR ro_length)),
          set_row avgs.2 i_ch nn (div_all rq (IZR ro_length)))
  | Some s =>
      bs <~ item s i_ch ;;
      rs <~ reduce_row bs ii rpe n_reps n_expts ;;
      Ok (set_row avgs.1 i_ch nn rs, zero)
  end.

Definition acquire_round (n_reps n_expts : nat) (ro_chs : list (pyval * Z))
    (pts : list (list R)) (d_i d_q : list (list R))
    (threshold : option threshold_arg) (angle : option (list R))
    (readouts_per_experiment : nat) (save_experiments : option (list Z))
  : outcome Round :=
  let angle := match angle with None => [0%R; 0%R] | Some a => a end in
  let save_experiments := match save_experiments with None => [0] | Some l => l end in
  let n_ro := length ro_chs in
  sh <~ match threshold with
        | Some t => s <~ get_single_shots ro_chs d_i d_q t (Some angle) ;; Ok (Some s)
        | None => Ok None
        end ;;
  let zero := zeros3 n_ro (length save_experiments) n_expts in
  avgs <~ foldM (fun avgs nn_ii =>
            foldM (store_average sh zero d_i d_q readouts_per_experiment n_reps n_expts
                     nn_ii.1 nn_ii.2)
              (enumerate ro_chs) avgs)
          (enumerate save_experiments) (zero, zero) ;;
  Ok {| expt_pts := pts; avg_di := avgs.1; avg_dq := avgs.2;
        di_buf := d_i; dq_buf := d_q; shots := sh |}.

(** Elementwise operations on the averaged arrays. *)
Definition add3 (a b : list (list (list R))) : list (list (list R)) :=
  zip_with (zip_with (zip_with Rplus)) a b.
Definition div3 (a : list (list (list R))) (d : R) : list (list (list R)) :=
  map (map (fun row => div_all row d)) a.

(** [buf.reshape(n_ro, reps, -1)]: the last dimension is inferred, which
    numpy refuses when the known dimensions multiply to zero. *)
Definition reshape_reps (buf : list (list R)) (n_ro n_reps : nat)
  : outcome (list (list (list R))) :=
  if decide ((n_ro * n_reps)%nat = 0%nat) then Raise ValueError
  else if decide (length buf = n_ro) then
    mapM_outcome (fun row : list R =>
        if decide ((length row mod n_reps)%nat = 0%nat)
        then reshape row n_reps (length row / n_reps)
        else Raise ValueError) buf
  else Raise ValueError.

(** [buf_p[:, lo:lo+reps, :] = block] *)
Definition store_rows (buf_p block : list (list (list R))) (lo : nat)
  : list (list (list R)) :=
  zip_with (fun plane rows => take lo plane ++ rows ++ drop (lo + length rows) plane)
           buf_p block.

Record Acquired : Type := {
  acq_expt_pts : list (list R);
  acq_avg_di : list (list (list R));
  acq_avg_dq : list (list (list R));
  di_buf_p : list (list (list R));
  dq_buf_p : list (list (list R))
}.

(** The running sums of the averaged arrays:
    [avg_di, avg_dq = avg_di0, avg_dq0] in the first round, [+=] after. *)
Definition accumulate
    (acc : option (list (list R) * list (list (list R)) * list (list (list R))))
    (r : Round) : list (list R) * list (list (list R)) * list (list (list R)) :=
  match acc with
  | None => (expt_pts r, avg_di r, avg_dq r)
  | Some (_, sum_i, sum_q) => (expt_pts r, add3 sum_i (avg_di r), add3 sum_q (avg_dq r))
  end.

(** One pass of the loop over the rounds. *)
Definition acquire_step (round : nat -> outcome Round) (n_ro n_reps : nat)
    (st : option (list (list R) * list (list (list R)) * list (list (list R)))
          * (list (list (list R)) * list (list (list R))))
    (ii : nat) :=
  r <~ round ii ;;
  let acc := accumulate st.1 r in
  bi <~ reshape_reps (di_buf r) n_ro n_reps ;;
  bq <~ reshape_reps (dq_buf r) n_ro n_reps ;;
  Ok (Some acc, (store_rows st.2.1 bi (n_reps * ii),
                 store_rows st.2.2 bq (n_reps * ii))).

(** [soc k] is the pair of planes streamed by the [k]-th run of the
    hardware; [rounds] is [cfg.get("rounds")].  Every call of
    [acquire_round] allocates its arrays afresh, so the in-place [+=] on
    the first round's arrays touches no later round. *)
Definition acquire (n_reps n_expts : nat) (rounds : option Z)
    (ro_chs : list (pyval * Z)) (pts : list (list R))
    (soc : nat -> list (list R) * list (list R))
    (threshold : option threshold_arg) (angle : option (list R))
    (readouts_per_experiment : nat) (save_experiments : option (list Z))
  : outcome Acquired :=
  let n_rounds := match rounds with None => 1 | Some r => r end in
  let msmt_per_rep := (n_expts * readouts_per_experiment)%nat in
  let n_ro := length ro_chs in
  if Z.of_nat n_reps * n_rounds <? 0 then Raise ValueError else
  let tot_reps := Z.to_nat (Z.of_nat n_reps * n_rounds) in
  let zero_p := zeros3 n_ro tot_reps msmt_per_rep in
  let angle := match angle with None => [0%R; 0%R] | Some a => a end in
  let save_experiments := match save_experiments with None => [0] | Some l => l end in
  let round k := acquire_round n_reps n_expts ro_chs pts (soc k).1 (soc k).2
                   threshold (Some angle) readouts_per_experiment
                   (Some save_experiments) in
  if n_rounds =? 1 then
    r <~ round 0%nat ;;
    bi <~ reshape_reps (di_buf r) n_ro n_reps ;;
    bq <~ reshape_reps (dq_buf r) n_ro n_reps ;;
    Ok {| acq_expt_pts := expt_pts r; acq_avg_di := avg_di r; acq_avg_dq := avg_dq r;
          di_buf_p := bi; dq_buf_p := bq |}
  else
    st <~ foldM (acquire_step round n_ro n_reps)
          (seq 0 (Z.to_nat n_rounds)) (None, (zero_p, zero_p)) ;;
    match st.1 with
    | None => Raise UnboundLocalError
    | Some (pts', sum_i, sum_q) =>
        Ok {| acq_expt_pts := pts'; acq_avg_di := div3 sum_i (IZR n_rounds);
              acq_avg_dq := div3 sum_q (IZR n_rounds);
              di_buf_p := st.2.1; dq_buf_p := st.2.2 |}
    end.

(** * Specification-level definitions *)

Section Specification.
Context {api : QickProgramAPI}.

(** The addresses of [page] from [addr] on that are taken. *)
Definition pending (page addr : Z) (regs : list (Z * Z)) : list (Z * Z) :=
  filter (fun x => x.1 = page /\ addr <= x.2) regs.

(** The register page of a generator channel, as [new_reg] reads it from
    the configuration. *)
Definition page_of (p : Prog) (gen_ch : string) : option Z :=
  match getitem (list_to_map (gen_chs p)) gen_ch with
  | Ok kws => match getitem kws "ch" with
              | Ok ch => Some (ch_page ch)
              | Raise _ => None
              end
  | Raise _ => None
  end.

(** No address from 1 to 12 of the page is free. *)
Definition page_full (p : Prog) (page : Z) : Prop :=
  forall a, 1 <= a <= 12 -> (page, a) ∈ _user_regs p.

(** The channel already has a register of that name. *)
Definition name_taken (p : Prog) (gen_ch name : string) : Prop :=
  exists regs_of_ch, user_reg_dict p !! gen_ch = Some regs_of_ch
                     /\ is_Some (regs_of_ch !! name).

Definition product (l : list Z) : Z := foldr Z.mul 1 l.

(** The state [__init__] leaves before [make_program] runs. *)
Definition no_sweeps (p : Prog) : Prog :=
  set_expts (fun _ => Some 1) (set_qick_sweeps (fun _ => []) p).

(** The program with [code] appended. *)
Definition append_code (code : list Instr) (p : Prog) : Prog :=
  set_prog_list (fun l => l ++ code) p.

(** What [reset] emits for a register with an initial value. *)
Definition reset_code (reg : QickRegister) : list Instr :=
  match reg_init_val reg with
  | Some v => [safe_regwi (reg_page reg) (reg_addr reg) (val2reg reg v)]
  | None => []
  end.

(** The instructions one sweep, with its counter register, contributes
    before and after the body. *)
Definition setup_code (cs : Z * QickSweep) : list Instr :=
  reset_code (swp_reg cs.2)
  ++ [regwi 0 cs.1 (swp_expts cs.2 - 1); label (loop_label cs.1 cs.2)].

Definition teardown_code (cs : Z * QickSweep) : list Instr :=
  [mathi (reg_page (swp_reg cs.2)) (reg_addr (swp_reg cs.2))
         (reg_addr (swp_reg cs.2)) "+" (swp_reg_step cs.2);
   loopnz 0 cs.1 (loop_label cs.1 cs.2)].

(** A loop nest built from the inside: the first loop of the list wraps
    the core, each later one wraps what the earlier ones have built. *)
Definition loop_nest (loops : list (Z * QickSweep)) (core : list Instr) : list Instr :=
  foldl (fun inner cs => setup_code cs ++ inner ++ teardown_code cs) core loops.

(** A hook that only appends instructions to the program. *)
Definition emits (m : M Prog unit) (code : list Instr) : Prop :=
  forall q, m q = (append_code code q, Ok tt).

(** The same, for the states that satisfy [I]. *)
Definition emits_on (I : Prog -> Prop) (m : M Prog unit) (code : list Instr) : Prop :=
  forall q, I q -> m q = (append_code code q, Ok tt).

(** The register of the sweep has an initial value, so [reset] succeeds. *)
Definition has_init_val (swp : QickSweep) : Prop :=
  is_Some (reg_init_val (swp_reg swp)).

(** The program emitted after [initialize], when the test passes. *)
Definition emitted (r : Z) (sweeps : list QickSweep) (body_code : list Instr)
  : list Instr :=
  let loops := zip (counter_regs_of (length sweeps)) sweeps in
  [regwi 0 13 0; regwi 0 14 (r - 1); label "LOOP_rep"]
  ++ concat (map setup_code (reverse loops))
  ++ body_code
  ++ [mathi 0 13 13 "+" 1; memwi 0 13 1]
  ++ concat (map teardown_code loops)
  ++ [loopnz 0 14 "LOOP_rep"; end_].

(** The registers the [loopnz] instructions of a piece of program count
    down, in order. *)
Definition loopnz_regs (code : list Instr) : list Z :=
  omap (fun i => match i with loopnz _ reg _ => Some reg | _ => None end) code.

End Specification.

(** ** A concrete program, for the examples *)

#[export] Instance demo_api : QickProgramAPI :=
  {| ch_page := fun ch => match ch with VInt n => n / 2 | _ => 0 end;
     sreg := fun _ _ => 0;
     freq2reg := fun _ _ _ => 1;
     us2cycles := fun _ _ _ => 2;
     deg2reg := fun _ _ => 3;
     freq2reg_adc := fun _ _ _ => 4;
     np_int32 := fun _ => 5 |}.

Definition demo_reg (addr : Z) (name : string) : QickRegister :=
  {| reg_page := 0; reg_addr := addr; reg_type := None; reg_gen_ch := Some (VInt 0);
     reg_ro_ch := None; reg_init_val := Some 0%R; reg_name := Some name |}.

(** One generator channel ["q"] on channel 0, [n] addresses of its page taken,
    a register named ["r"]. *)
Definition demo_prog (n : nat) : Prog :=
  {| gen_chs := [("q", {["ch" := VInt 0]})];
     reps := Some 10;
     declared_gens := [];
     prog_list := [];
     user_reg_dict := {["q" := {["r" := demo_reg 1 "r"]}]};
     _user_regs := map (fun a : nat => (0, Z.of_nat a)) (seq 1 n);
     expts := Some 1;
     qick_sweeps := [] |}.

Definition demo_sweep (name : string) (addr n : Z) : QickSweep :=
  {| swp_reg := demo_reg addr name; swp_start := 0%R; swp_stop := 1%R;
     swp_expts := n; swp_reg_step := 1; swp_init_val := 0%R;
     swp_sweep_array := [] |}.

(** Hooks: [initialize] registers the sweeps, [body] plays one pulse. *)
Definition demo_initialize (sweeps : list QickSweep) : M Prog unit :=
  for_each sweeps add_sweep.
Definition demo_body : M Prog unit := emit (user_instr "pulse").
Definition demo_two : list QickSweep := [demo_sweep "a" 1 5; demo_sweep "b" 2 3].
Definition demo_after (sweeps : list QickSweep) : Prog :=
  (demo_initialize sweeps (no_sweeps (demo_prog 0))).1.

(** A generator entry that names an I and a Q channel, with and without the
    two optional keys of the pairing. *)
Definition demo_iq_full : Prog :=
  {| gen_chs := [("q", {["ch_I" := VInt 0; "ch_Q" := VInt 1; "skew_phase" := VInt 90;
                         "IQ_scale" := VInt 1; "nqz" := VInt 2]})];
     reps := Some 10; declared_gens := []; prog_list := [];
     user_reg_dict := ∅; _user_regs := []; expts := None; qick_sweeps := [] |}.

Definition demo_iq_bare : Prog :=
  {| gen_chs := [("q", {["ch_I" := VInt 0; "ch_Q" := VInt 1; "nqz" := VInt 2]})];
     reps := Some 10; declared_gens := []; prog_list := [];
     user_reg_dict := ∅; _user_regs := []; expts := None; qick_sweeps := [] |}.

(** ** Specification of the reduction *)

(** The rotation of the point [(I, Q)] by the angle [phi]. *)
Definition rotate (phi : R) (iq : R * R) : R * R :=
  ((iq.1 * cos phi - iq.2 * sin phi)%R, (iq.1 * sin phi + iq.2 * cos phi)%R).

(** The angles and thresholds [get_single_shots] indexes by channel. *)
Definition angle_list (angle : option (list R)) : list R :=
  match angle with None => [0%R; 0%R] | Some a => a end.
Definition threshold_list (threshold : threshold_arg) : list R :=
  match threshold with ThrInt t => [IZR t; IZR t] | ThrList l => l end.

(** [a[i][j][k]] *)
Definition entry (a : list (list (list R))) (i j k : nat) : option R :=
  a !! i ≫= fun plane => plane !! j ≫= fun row => row !! k.
Definition entry2 (a : list (list R)) (i k : nat) : option R :=
  a !! i ≫= fun row => row !! k.

Definition has_shape (a : list (list (list R))) (n1 n2 n3 : nat) : Prop :=
  length a = n1 /\
  Forall (fun plane => length plane = n2 /\ Forall (fun row => length row = n3) plane) a.

(** The mean of a list of samples. *)
Definition sum_list (l : list R) : R := foldr Rplus 0%R l.
Definition mean (l : list R) : R := (sum_list l / INR (length l))%R.

(** Column [e] of a two-dimensional array: the samples along its first axis. *)
Definition column (rows : list (list R)) (e : nat) : list R :=
  omap (fun row => row !! e) rows.

(** The saved measurement indices of a call. *)
Definition save_list (save_experiments : option (list Z)) : list Z :=
  match save_experiments with None => [0] | Some l => l end.

(** The buffer a run fills: one row of [total] samples per readout. *)
Definition buffer_shape (d : list (list R)) (n_ro total : nat) : Prop :=
  length d = n_ro /\ Forall (fun row => length row = total) d.

(** One readout of integration length 1 and one sample [(I, Q) = (0, 1)],
    classified with threshold 0 after a quarter turn. *)
Definition demo_ro : list (pyval * Z) := [(VInt 0, 1)].
Definition demo_di : list (list R) := [[0%R]].
Definition demo_dq : list (list R) := [[1%R]].
Definition demo_angle : option (list R) := Some [(PI / 2)%R].

(** [a[i][j]], a row of an averaged array. *)
Definition cell (a : list (list (list R))) (i j : nat) : option (list R) :=
  a !! i ≫= fun plane => plane !! j.

(** The row [acquire_round] computes for saved measurement [nn] of channel
    [i_ch] from the plane [d] of the buffer, without threshold. *)
Definition reduced_from (n_reps n_expts rpe : nat) (ro_chs : list (pyval * Z))
    (save : list Z) (d : list (list R)) (nn i_ch : nat) (v : list R) : Prop :=
  exists ii ch len b r,
    save !! nn = Some ii /\ ro_chs !! i_ch = Some (ch, len) /\
    d !! i_ch = Some b /\ reduce_row b ii rpe n_reps n_expts = Ok r /\
    v = div_all r (IZR len).

(** The cells written when the outer loop has done [n] saved measurements
    and the inner loop [c] channels of the next one. *)
Definition written (n_reps n_expts rpe : nat) (ro_chs : list (pyval * Z))
    (save : list Z) (d_i d_q : list (list R)) (n c : nat)
    (avgs : list (list (list R)) * list (list (list R))) : Prop :=
  has_shape avgs.1 (length ro_chs) (length save) n_expts /\
  has_shape avgs.2 (length ro_chs) (length save) n_expts /\
  forall nn i_ch : nat,
    (i_ch < length ro_chs)%nat ->
    (nn < n)%nat \/ (nn = n /\ (i_ch < c)%nat) ->
    exists vi vq,
      cell avgs.1 i_ch nn = Some vi /\
      reduced_from n_reps n_expts rpe ro_chs save d_i nn i_ch vi /\
      cell avgs.2 i_ch nn = Some vq /\
      reduced_from n_reps n_expts rpe ro_chs save d_q nn i_ch vq.

(** The raw samples of experiment point [e] of saved measurement [ii], one
    per repetition, in a row of the buffer. *)
Definition raw_samples (b : list R) (ii : Z) (rpe n_reps n_expts e : nat) : list R :=
  map (fun r : nat => nth (Z.to_nat ii + (r * n_expts + e) * rpe) b 0%R) (seq 0 n_reps).

(** The rounds of a call of [acquire], as [acquire] calls them. *)
Definition round_of (n_reps n_expts : nat) (ro_chs : list (pyval * Z))
    (pts : list (list R)) (soc : nat -> list (list R) * list (list R))
    (threshold : option threshold_arg) (angle : option (list R))
    (rpe : nat) (save_experiments : option (list Z)) (k : nat) : outcome Round :=
  acquire_round n_reps n_expts ro_chs pts (soc k).1 (soc k).2 threshold
    (Some (angle_list angle)) rpe (Some (save_list save_experiments)).

(** The elementwise sum of a list of arrays, from the first one on. *)
Definition sum_arrays (l : list (list (list (list R)))) : option (list (list (list R))) :=
  match l with
  | [] => None
  | a :: l' => Some (foldl add3 a l')
  end.

(** One readout of integration length 2; two repetitions of two experiment
    points, one readout per experiment. *)
Definition demo_ro2 : list (pyval * Z) := [(VInt 0, 2)].
Definition demo_buf_i : list (list R) := [[1%R; 2%R; 3%R; 4%R]].
Definition demo_buf_q : list (list R) := [[5%R; 6%R; 7%R; 8%R]].
Definition demo_soc (k : nat) : list (list R) * list (list R) := (demo_buf_i, demo_buf_q).

(** ** The loop instructions on the processor *)

Definition reg_value (regs : gmap (Z * Z) Z) (r : Z * Z) : Z := default 0 (regs !! r).

Fixpoint find_label (name : string) (prog : list Instr) : option nat :=
  match prog with
  | [] => None
  | label n :: prog' =>
      if String.eqb n name then Some 0%nat else S <$> find_label name prog'
  | _ :: prog' => S <$> find_label name prog'
  end.

(** Modelled from the spec: the processor that runs the emitted program
    (the tProc of the qick library) is not part of the repository.  The
    spec (section 4.4) names the instructions used here: write immediate,
    add in place, label, and decrement and branch if nonzero, which with a
    counter set to [n - 1] runs a loop [n] times.  [tproc_run] records, at
    every instruction of the body, the values of the registers in
    [watch]; it serves the example [two_sweeps_run] only. *)
Fixpoint tproc_run (fuel : nat) (prog : list Instr) (watch : list (Z * Z))
    (pc : nat) (regs : gmap (Z * Z) Z) (trace : list (list Z)) : option (list (list Z)) :=
  match fuel with
  | O => None
  | S fuel' =>
      match prog !! pc with
      | None | Some end_ => Some trace
      | Some (regwi p r v) | Some (safe_regwi p r v) =>
          tproc_run fuel' prog watch (S pc) (<[(p, r) := v]> regs) trace
      | Some (mathi p rd rs op v) =>
          let regs' := if String.eqb op "+"
                       then <[(p, rd) := reg_value regs (p, rs) + v]> regs
                       else regs in
          tproc_run fuel' prog watch (S pc) regs' trace
      | Some (loopnz p r name) =>
          if reg_value regs (p, r) =? 0
          then tproc_run fuel' prog watch (S pc) regs trace
          else match find_label name prog with
               | Some target =>
                   tproc_run fuel' prog watch target
                     (<[(p, r) := reg_value regs (p, r) - 1]> regs) trace
               | None => None
               end
      | Some (user_instr _) =>
          tproc_run fuel' prog watch (S pc) regs (trace ++ [map (reg_value regs) watch])
      | Some (label _) | Some (memwi _ _ _) =>
          tproc_run fuel' prog watch (S pc) regs trace
      end
  end.

(** * Further specification-level definitions *)

Section Specification2.
Context {api : QickProgramAPI}.

(** The allocated list holds no pair twice and only addresses 1 to 12. *)
Definition regs_ok (regs : list (Z * Z)) : Prop :=
  NoDup regs /\ Forall (fun x => 1 <= x.2 <= 12) regs.

(** The register [new_reg] builds for a channel [ch] with keywords [kws]. *)
Definition new_register (kws : gmap string pyval) (ch : pyval) (addr : Z)
    (name : string) (init_val : option R) (rtype : option RegisterTypes) : QickRegister :=
  {| reg_page := ch_page ch; reg_addr := addr; reg_type := rtype;
     reg_gen_ch := Some ch; reg_ro_ch := kws !! "ro_ch";
     reg_init_val := init_val; reg_name := Some name |}.

(** The name [new_reg] gives a register: the caller's, or [reg_<addr>]. *)
Definition register_name (name : option string) (addr : Z) : string :=
  match name with
  | None => ("reg_" +:+ str_of_Z addr)%string
  | Some n => n
  end.

(** [n] calls of [new_reg] without a name, one after the other. *)
Fixpoint new_regs (gen_ch : string) (init_val : option R) (rtype : option RegisterTypes)
    (n : nat) : M Prog (list QickRegister) :=
  match n with
  | O => ret []
  | S n' =>
      reg <- new_reg gen_ch None init_val rtype ;;
      regs <- new_regs gen_ch init_val rtype n' ;;
      ret (reg :: regs)
  end.

(** The arguments of one call of [new_reg]. *)
Record new_reg_args : Type := {
  arg_gen_ch : string;
  arg_name : option string;
  arg_init_val : option R;
  arg_reg_type : option RegisterTypes
}.

(** The object after a sequence of [new_reg] calls, each of which may
    return or raise (the caller going on after the exception). *)
Definition after_calls (calls : list new_reg_args) (p : Prog) : Prog :=
  foldl (fun q c =>
           (new_reg (arg_gen_ch c) (arg_name c) (arg_init_val c) (arg_reg_type c) q).1)
        p calls.

(** The addresses 1 to [k] of the page are the allocated ones, and the
    table of the channel holds only names [reg_<a>] with [a] among them. *)
Definition allocated_up_to (gen_ch : string) (page k : Z) (q : Prog) : Prop :=
  page_of q gen_ch = Some page /\
  (forall a, (page, a) ∈ _user_regs q <-> 1 <= a <= k) /\
  exists d, user_reg_dict q !! gen_ch = Some d /\
            forall nm, is_Some (d !! nm) ->
                       exists a, 1 <= a <= k /\ nm = ("reg_" +:+ str_of_Z a)%string.

(** An entry of [cfg["gen_chs"]] that does not name both an I and a Q
    channel. *)
Definition plain_entry (kws : gmap string pyval) : Prop :=
  ~ (is_Some (kws !! "ch_I") /\ is_Some (kws !! "ch_Q")).

(** What is left of an I/Q entry when [declare_all_gens] has popped the
    four keys of the pairing. *)
Definition without_pairing (kws : gmap string pyval) : gmap string pyval :=
  delete "IQ_scale" (delete "skew_phase" (delete "ch_Q" (delete "ch_I" kws))).

(** The effect on the object of declaring one plain entry. *)
Definition declared_plain (q : Prog) (kv : string * gmap string pyval) : Prog :=
  set_user_reg_dict (insert kv.1 ∅)
    (set_declared_gens (fun l => l ++ [{| call_args := []; call_kws := kv.2 |}]) q).

(** The labels a piece of program defines, in order. *)
Definition labels_of (code : list Instr) : list string :=
  omap (fun i => match i with label n => Some n | _ => None end) code.

(** What follows [LOOP_] in the label of a sweep. *)
Definition sweep_tag (cs : Z * QickSweep) : string :=
  match reg_name (swp_reg cs.2) with
  | Some n => n
  | None => str_of_Z cs.1
  end.

(** The sweeps with their counter registers. *)
Definition loops_of (sweeps : list QickSweep) : list (Z * QickSweep) :=
  zip (counter_regs_of (length sweeps)) sweeps.

(** The sweep was built by the constructor of [QickSweep]. *)
Definition constructed (swp : QickSweep) : Prop :=
  exists reg start stop n, QickSweep_init reg start stop n = Ok swp.

End Specification2.

(** ** Specification of the thresholded reduction *)

(** A sample of the single-shot array: 0 or 1. *)
Definition binary (s : R) : Prop := s = 0%R \/ s = 1%R.

(** The cells of the I array written by a thresholded round when the
    outer loop has done [n] saved measurements and the inner loop [c]
    channels of the next one; the Q array is the fresh array of zeros. *)
Definition written_shots (n_reps n_expts rpe : nat) (ro_chs : list (pyval * Z))
    (save : list Z) (sh : list (list R)) (n c : nat)
    (avgs : list (list (list R)) * list (list (list R))) : Prop :=
  has_shape avgs.1 (length ro_chs) (length save) n_expts /\
  avgs.2 = zeros3 (length ro_chs) (length save) n_expts /\
  forall nn i_ch : nat,
    (i_ch < length ro_chs)%nat ->
    (nn < n)%nat \/ (nn = n /\ (i_ch < c)%nat) ->
    exists v ii b,
      save !! nn = Some ii /\ sh !! i_ch = Some b /\
      reduce_row b ii rpe n_reps n_expts = Ok v /\
      cell avgs.1 i_ch nn = Some v.

(** Three readouts, for the limit of the integer threshold. *)
Definition demo_ro3 : list (pyval * Z) := [(VInt 0, 1); (VInt 1, 1); (VInt 2, 1)].
Definition demo_buf3 : list (list R) := [[1%R]; [2%R]; [3%R]].

(** ** More concrete programs, for the examples *)

(** The channel ["q"] as [declare_all_gens] leaves it: an empty register
    table and no allocated address. *)
Definition demo_fresh : Prog :=
  {| gen_chs := [("q", {["ch" := VInt 0]})];
     reps := Some 10; declared_gens := []; prog_list := [];
     user_reg_dict := {["q" := ∅]}; _user_regs := [];
     expts := Some 1; qick_sweeps := [] |}.

(** Two plain generator entries. *)
Definition demo_two_gens : Prog :=
  {| gen_chs := [("q", {["ch" := VInt 0; "nqz" := VInt 2]}); ("r", {["ch" := VInt 1]})];
     reps := Some 10; declared_gens := []; prog_list := [];
     user_reg_dict := ∅; _user_regs := []; expts := None; qick_sweeps := [] |}.

(** A configuration without ["reps"]. *)
Definition demo_no_reps : Prog :=
  {| gen_chs := [("q", {["ch" := VInt 0]})];
     reps := None; declared_gens := []; prog_list := [];
     user_reg_dict := {["q" := ∅]}; _user_regs := [];
     expts := Some 1; qick_sweeps := [] |}.

(** A sweep over a register without initial value. *)
Definition demo_bare_sweep : QickSweep :=
  {| swp_reg := {| reg_page := 0; reg_addr := 3; reg_type := None;
                   reg_gen_ch := Some (VInt 0); reg_ro_ch := None;
                   reg_init_val := None; reg_name := Some "q_freq" |};
     swp_start := 0%R; swp_stop := 1%R; swp_expts := 4; swp_reg_step := 1;
     swp_init_val := 0%R; swp_sweep_array := [] |}.

(** The sweep of three points from 0 to 1 that the constructor builds. *)
Definition demo_linear : QickSweep :=
  {| swp_reg := demo_reg 1 "a"; swp_start := 0%R; swp_stop := 1%R; swp_expts := 3;
     swp_reg_step := 5; swp_init_val := 0%R;
     swp_sweep_array :=
       map (fun k : nat => (0 + INR k * ((1 - 0) / IZR (3 - 1)))%R) (seq 0 3) |}.

(** * [core/pulses.py]: waveform envelopes

    Samples are real numbers: the rounding of float64 is not modelled.
    The functions that end in a call of
    [prog.add_pulse] return that call: the channel, the name and the I and
    Q data handed to qick. *)

Section Pulses.
#[local] Open Scope R_scope.

(** ** numpy *)

(** [np.arange(0, length)] for a length that may be fractional: the
    integers from 0 that are below [length]. *)
Definition np_arange (len : R) : list R := map INR (seq 0 (Z.to_nat (Zceil len))).

(** [np.min(y)]: an empty array has no minimum. *)
Definition np_min (y : list R) : outcome R :=
  match y with
  | [] => Raise ValueError
  | v :: y' => Ok (foldl Rmin v y')
  end.

(** [np.zeros(n)] *)
Definition np_zeros (n : Z) : outcome (list R) :=
  if (n <? 0)%Z then Raise ValueError else Ok (replicate (Z.to_nat n) 0).

(** [np.gradient(f)] of a one-dimensional array with unit spacing:
    one-sided differences at the two ends, central differences inside;
    fewer than two samples are refused. *)
Definition np_gradient (f : list R) : outcome (list R) :=
  let n := length f in
  if decide (n < 2)%nat then Raise ValueError
  else Ok (map (fun i : nat =>
                  if decide (i = 0%nat) then nth 1 f 0 - nth 0 f 0
                  else if decide (i = (n - 1)%nat) then nth (n - 1) f 0 - nth (n - 2) f 0
                  else (nth (i + 1) f 0 - nth (i - 1) f 0) / 2)
               (seq 0 n)).

(** [np.arctanh] *)
Definition arctanh (x : R) : R := ln ((1 + x) / (1 - x)) / 2.

(** ** Envelopes *)

Definition tanh_box (len ramp_width cut_offset maxv : R) : outcome (list R) :=
  let x := np_arange len in
  let c0_ := arctanh (2 * cut_offset - 1) in
  let c1_ := arctanh (2 * 0.95 - 1) in
  let k_ := (c1_ - c0_) / ramp_width in
  let y := map (fun x => (0.5 * (tanh (k_ * x + c0_) - tanh (k_ * (x - len) - c0_))
                          - cut_offset) / (1 - cut_offset) * maxv) x in
  m <~ np_min y ;;
  Ok (map (fun v => v - m) y).

Definition gaussian (sigma len maxv : R) : outcome (list R) :=
  let x := np_arange len in
  let y := map (fun x => maxv * exp ((- ((x - len / 2) ^ 2)) / sigma ^ 2)) x in
  m <~ np_min y ;;
  let y := map (fun v => v - m) y in
  Ok y.

Definition tanh_box_fm (freq len ramp_width cut_offset maxv : R) : outcome (list R) :=
  let x := np_arange len in
  e <~ tanh_box len ramp_width cut_offset maxv ;;
  let y := zip_with (fun e x => e * cos (2 * PI * freq * x)) e x in
  Ok y.

Definition tanh_box_IQ (freq len ramp_width cut_offset maxv : R)
  : outcome (list R * list R) :=
  let x := np_arange len in
  e <~ tanh_box len ramp_width cut_offset maxv ;;
  let i := zip_with (fun e x => e * cos (2 * PI * freq * x)) e x in
  e <~ tanh_box len ramp_width cut_offset maxv ;;
  let q := zip_with (fun e x => e * sin (2 * PI * freq * x)) e x in
  Ok (i, q).

Definition gaussian_fm (freq sigma len maxv : R) : outcome (list R) :=
  let x := np_arange len in
  e <~ gaussian sigma len maxv ;;
  let y := zip_with (fun e x => e * cos (2 * PI * freq * x)) e x in
  Ok y.

(** ** Padding *)

(** [soccfg['gens'][ch]]: the entries of the generator that the pulses
    read. *)
Record GenCfg : Type := {
  gen_maxv : R;
  gen_maxv_scale : R;
  samps_per_clk : Z;
  f_fabric : R
}.

(** The [padding] argument: a number, or a list of numbers. *)
Inductive padding_arg : Type :=
| PadNum (p : R)
| PadList (l : list R).

Definition add_padding (data : list R) (soc_gencfg : GenCfg) (padding : padding_arg)
  : outcome (list R) :=
  let samps_per_clk := IZR (samps_per_clk soc_gencfg) in
  let fclk := f_fabric soc_gencfg in
  let padding := match padding with
                 | PadNum p => [0; p]
                 | PadList l => l
                 end in
  let padding_samp := map (fun p => Zceil (p * fclk * samps_per_clk)) padding in
  p0 <~ item padding_samp 0 ;;
  before <~ np_zeros p0 ;;
  p1 <~ item padding_samp 1 ;;
  after <~ np_zeros p1 ;;
  Ok (before ++ data ++ after).

(** [np.zeros((16 - len(wf)) % 16)] *)
Definition zero_padding (wf : list R) : list R :=
  replicate (Z.to_nat ((16 - Z.of_nat (length wf)) mod 16)) 0.

(** ** Adding a pulse *)

(** The configuration the functions read: [prog.cfg["gen_chs"]] and
    [prog.soccfg['gens']]. *)
Record PulseCfg : Type := {
  cfg_gen_chs : list (string * gmap string pyval);
  soccfg_gens : list GenCfg
}.

(** One call [prog.add_pulse(ch, name, idata=..., qdata=...)]. *)
Record add_pulse_call : Type := {
  pulse_ch : pyval;
  pulse_name : string;
  pulse_idata : list R;
  pulse_qdata : list R
}.

(** [prog.cfg["gen_chs"][gen_ch]["ch"]] *)
Definition channel_of (prog : PulseCfg) (gen_ch : string) : outcome pyval :=
  kws <~ getitem (list_to_map (cfg_gen_chs prog) : gmap string (gmap string pyval)) gen_ch ;;
  getitem kws "ch".

(** [prog.soccfg['gens'][ch]]: a list indexed by the channel number,
    from the end when the number is negative. *)
Definition soc_gen (prog : PulseCfg) (ch : pyval) : outcome GenCfg :=
  match ch with
  | VInt n =>
      let i := if (n <? 0)%Z then (n + Z.of_nat (length (soccfg_gens prog)))%Z else n in
      if (i <? 0)%Z then Raise IndexError else item (soccfg_gens prog) (Z.to_nat i)
  | _ => Raise TypeError
  end.

Definition add_tanh (prog : PulseCfg) (gen_ch name : string)
    (len ramp_width cut_offset phase : R) (maxv : option R)
    (padding : option padding_arg) (drag : R) : outcome add_pulse_call :=
  gen_ch <~ channel_of prog gen_ch ;;
  soc_gencfg <~ soc_gen prog gen_ch ;;
  let maxv := match maxv with
              | None => gen_maxv soc_gencfg * gen_maxv_scale soc_gencfg
              | Some v => v
              end in
  let samps := IZR (samps_per_clk soc_gencfg) in
  let fclk := f_fabric soc_gencfg in
  let length_cyc := len * fclk in
  let length_reg := length_cyc * samps in
  let ramp_reg := ramp_width * fclk * samps in
  wf <~ tanh_box length_reg ramp_reg cut_offset maxv ;;
  wf <~ match padding with
        | Some padding => add_padding wf soc_gencfg padding
        | None => Ok wf
        end ;;
  let wf_padded := wf ++ zero_padding wf in
  g <~ np_gradient wf_padded ;;
  let drag_padded := map (fun d => - d * drag) g in
  let wf_idata := zip_with (fun w d => cos (PI / 180 * phase) * w - sin (PI / 180 * phase) * d)
                    wf_padded drag_padded in
  let wf_qdata := zip_with (fun w d => sin (PI / 180 * phase) * w + cos (PI / 180 * phase) * d)
                    wf_padded drag_padded in
  Ok {| pulse_ch := gen_ch; pulse_name := name;
        pulse_idata := wf_idata; pulse_qdata := wf_qdata |}.

Definition add_gaussian (prog : PulseCfg) (gen_ch name : string)
    (sigma len phase : R) (maxv : option R)
    (padding : option padding_arg) (drag : R) : outcome add_pulse_call :=
  gen_ch <~ channel_of prog gen_ch ;;
  soc_gencfg <~ soc_gen prog gen_ch ;;
  let maxv := match maxv with
              | None => gen_maxv soc_gencfg * gen_maxv_scale soc_gencfg
              | Some v => v
              end in
  let samps := IZR (samps_per_clk soc_gencfg) in
  let fclk := f_fabric soc_gencfg in
  let length_cyc := len * fclk in
  let length_reg := length_cyc * samps in
  let sigma_reg := sigma * fclk * samps in
  wf <~ gaussian sigma_reg length_reg maxv ;;
  wf <~ match padding with
        | Some padding => add_padding wf soc_gencfg padding
        | None => Ok wf
        end ;;
  let wf_padded := wf ++ zero_padding wf in
  g <~ np_gradient wf_padded ;;
  let drag_padded := map (fun d => - d * drag) g in
  let wf_idata := zip_with (fun w d => cos (PI / 180 * phase) * w - sin (PI / 180 * phase) * d)
                    wf_padded drag_padded in
  let wf_qdata := zip_with (fun w d => sin (PI / 180 * phase) * w + cos (PI / 180 * phase) * d)
                    wf_padded drag_padded in
  Ok {| pulse_ch := gen_ch; pulse_name := name;
        pulse_idata := wf_idata; pulse_qdata := wf_qdata |}.

(** The I and Q data are made from the drag term alone: the envelope
    enters through its gradient only. *)
Definition add_arbitrary (prog : PulseCfg) (gen_ch name : string)
    (envelope : list R) (phase : R) (maxv : option R)
    (padding : option padding_arg) (drag : R) : outcome add_pulse_call :=
  gen_ch <~ channel_of prog gen_ch ;;
  soc_gencfg <~ soc_gen prog gen_ch ;;
  let wf := envelope in
  wf <~ match padding with
        | Some padding => add_padding wf soc_gencfg padding
        | None => Ok wf
        end ;;
  let wf_padded := wf ++ zero_padding wf in
  g <~ np_gradient wf_padded ;;
  let drag_padded := map (fun d => - d * drag) g in
  let wf_idata := map (fun d => cos (PI / 180 * phase) * d) drag_padded in
  let wf_qdata := map (fun d => sin (PI / 180 * phase) * d) drag_padded in
  Ok {| pulse_ch := gen_ch; pulse_name := name;
        pulse_idata := wf_idata; pulse_qdata := wf_qdata |}.

(** ** Chirp *)

(** [ChirpModulationMixin._chirp_phase]: the loop fills [phase[i]] and
    advances [phi0]; the last entry is written after the loop, which an
    empty array refuses. *)
Definition _chirp_phase (instant_freq : list R) (sampling_rate : R) : outcome (list R) :=
  let n := length instant_freq in
  let phase := replicate n 0 in
  let phi0 := 0 in
  let st := foldl (fun (st : list R * R) (i : nat) =>
                     let phase := <[i := st.2]> st.1 in
                     let phi0 := st.2 + PI * (nth i instant_freq 0
                                              + nth (i + 1) instant_freq 0) / sampling_rate in
                     (phase, phi0))
                  (phase, phi0) (seq 0 (n - 1)) in
  if decide (n = 0%nat) then Raise IndexError
  else Ok (<[(n - 1)%nat := st.2]> st.1).

(** Complex samples, as pairs of a real and an imaginary part. *)
Definition cabs (z : R * R) : R := sqrt (z.1 * z.1 + z.2 * z.2).
Definition cmul_expi (z : R * R) (phi : R) : R * R :=
  (z.1 * cos phi - z.2 * sin phi, z.1 * sin phi + z.2 * cos phi).

(** [ChirpModulationMixin.apply_chirp_modulation]; [chirp_func] gives the
    chirp frequency at an amplitude and is applied to the array of
    amplitudes sample by sample. *)
Definition apply_chirp_modulation (waveform : list (R * R))
    (chirp_func : R -> R -> R -> R) (sampling_rate maxf maxv : R)
  : outcome (list (R * R)) :=
  let chirp_freq := map (fun a => chirp_func a maxf maxv) (map cabs waveform) in
  chirp_phase <~ _chirp_phase chirp_freq sampling_rate ;;
  let wf_chirp := zip_with cmul_expi waveform chirp_phase in
  Ok wf_chirp.

(** ** Specification *)

(** The trapezoid rule on the instantaneous frequency [f], from sample 0
    to sample [k], as a phase. *)
Fixpoint trapezoid (f : list R) (sampling_rate : R) (k : nat) : R :=
  match k with
  | O => 0
  | S k' => trapezoid f sampling_rate k'
            + PI * (nth k' f 0 + nth (S k') f 0) / sampling_rate
  end.

(** The samples are not negative and one of them is 0. *)
Definition zero_based (wf : list R) : Prop :=
  Forall (fun v => 0 <= v) wf /\ 0 ∈ wf.

(** A generator with 16 samples per clock at 100 MHz, and a program with
    the channel ["q"] on it. *)
Definition demo_gen : GenCfg :=
  {| gen_maxv := 32766; gen_maxv_scale := 1; samps_per_clk := 16; f_fabric := 100 |}.
Definition demo_pulse_cfg : PulseCfg :=
  {| cfg_gen_chs := [("q", {["ch" := VInt 0]})]; soccfg_gens := [demo_gen] |}.

End Pulses.

(** * Properties *)

(** ** Running a computation *)

Ltac unfold_monad :=
  unfold bind, ret, raise, get, modify, lift, emit, try_except, obind in *.

Lemma bind_Ok {S A B} (m : M S A) (k : A -> M S B) s s' a :
  m s = (s', Ok a) -> bind m k s = k a s'.
Proof. intros H. unfold bind. by rewrite H. Qed.

Lemma bind_Raise {S A B} (m : M S A) (k : A -> M S B) s s' e :
  m s = (s', Raise e) -> bind m k s = (s', Raise e).
Proof. intros H. unfold bind. by rewrite H. Qed.

(** ** Register allocation *)

Section Allocation.
Context {api : QickProgramAPI}.

Lemma pending_step page addr regs :
  (page, addr) ∈ regs ->
  (length (pending page (addr + 1) regs) < length (pending page addr regs))%nat.
Proof.
  intros Hin.
  assert (pending page (addr + 1) regs
          = filter (fun x => addr + 1 <= x.2) (pending page addr regs)) as ->.
  { unfold pending. rewrite list_filter_filter. apply list_filter_iff.
    intros [pg a]; simpl. lia. }
  apply (length_filter_lt _ _ (page, addr)).
  - unfold pending. apply list_elem_of_filter. simpl. split; [lia | done].
  - simpl. lia.
Qed.

Lemma while_taken_spec fuel : forall regs page addr,
  (length (pending page addr regs) <= fuel)%nat ->
  let r := while_taken fuel regs page addr in
  addr <= r /\ ((page, r) ∉ regs) /\
  (forall a, addr <= a < r -> (page, a) ∈ regs).
Proof.
  induction fuel as [|fuel IH]; intros regs page addr Hlen; simpl.
  - split; [lia|]. split; [|intros; lia].
    intros Hin.
    assert ((page, addr) ∈ pending page addr regs) as Hp.
    { apply list_elem_of_filter. simpl. split; [lia | done]. }
    destruct (pending page addr regs); [by apply not_elem_of_nil in Hp|].
    simpl in Hlen. lia.
  - destruct (decide ((page, addr) ∈ regs)) as [Hin|Hout].
    + pose proof (pending_step _ _ _ Hin) as Hlt.
      destruct (IH regs page (addr + 1)) as (Hle & Hfree & Hbelow); [lia|].
      split; [lia|]. split; [done|].
      intros a Ha. destruct (decide (a = addr)) as [->|Hne]; [done|].
      apply Hbelow. lia.
    + split; [lia|]. split; [done|]. intros; lia.
Qed.

(** The loop leaves by its test: the address found is free, and every
    address from [addr] up to it is taken. *)
Lemma while_taken_free regs page addr :
  let r := while_taken (length regs) regs page addr in
  addr <= r /\ ((page, r) ∉ regs) /\
  (forall a, addr <= a < r -> (page, a) ∈ regs).
Proof. apply while_taken_spec. apply length_filter. Qed.

(** More steps than the list is long change nothing. *)
Lemma while_taken_enough fuel regs page addr :
  (length regs <= fuel)%nat ->
  while_taken fuel regs page addr = while_taken (length regs) regs page addr.
Proof.
  intros Hfuel.
  destruct (while_taken_free regs page addr) as (H1 & H2 & H3).
  destruct (while_taken_spec fuel regs page addr) as (G1 & G2 & G3).
  { pose proof (length_filter (fun x => x.1 = page /\ addr <= x.2) regs).
    unfold pending. lia. }
  set (r := while_taken (length regs) regs page addr) in *.
  set (r' := while_taken fuel regs page addr) in *.
  destruct (Z.lt_trichotomy r r') as [Hlt|[Heq|Hgt]]; [|done|].
  - exfalso. apply H2, G3. lia.
  - exfalso. apply G2, H3. lia.
Qed.

Lemma new_reg_success p gen_ch name init_val rtype p' reg :
  new_reg gen_ch name init_val rtype p = (p', Ok reg) ->
  page_of p gen_ch = Some (reg_page reg) /\
  ((reg_page reg, reg_addr reg) ∉ _user_regs p) /\
  1 <= reg_addr reg <= 12 /\
  (forall a, 1 <= a < reg_addr reg -> (reg_page reg, a) ∈ _user_regs p) /\
  _user_regs p' = _user_regs p ++ [(reg_page reg, reg_addr reg)].
Proof.
  unfold new_reg, page_of, gen_cfg. unfold_monad.
  destruct (getitem (list_to_map (gen_chs p)) gen_ch) as [kws|]; [|done].
  destruct (getitem kws "ch") as [ch|]; [|done].
  set (page := ch_page ch).
  pose proof (while_taken_free (_user_regs p) page 1) as (Hle & Hfree & Hbelow).
  set (addr := while_taken (length (_user_regs p)) (_user_regs p) page 1) in *.
  destruct (12 <? addr) eqn:Hfull; [done|]. simpl.
  destruct (getitem (user_reg_dict p) gen_ch) as [d|]; [|done].
  destruct (decide (is_Some (d !! _))); [done|].
  unfold QickRegister_init, QickRegister_reset. unfold_monad.
  destruct init_val as [v|]; simpl.
  all: destruct (getitem (user_reg_dict p) gen_ch) as [d'|]; [|done].
  all: intros [= <- <-]; simpl.
  all: apply Z.ltb_ge in Hfull; split_and!; solve [done | lia].
Qed.

Lemma new_reg_page_full p gen_ch name init_val rtype page :
  page_of p gen_ch = Some page ->
  page_full p page ->
  new_reg gen_ch name init_val rtype p = (p, Raise ValueError).
Proof.
  unfold new_reg, page_of, page_full, gen_cfg. unfold_monad.
  destruct (getitem (list_to_map (gen_chs p)) gen_ch) as [kws|]; [|done].
  destruct (getitem kws "ch") as [ch|]; [|done].
  intros [= <-] Hall.
  pose proof (while_taken_free (_user_regs p) (ch_page ch) 1) as (Hle & Hfree & Hbelow).
  set (addr := while_taken _ _ _ _) in *.
  destruct (12 <? addr) eqn:Hfull; [done|].
  apply Z.ltb_ge in Hfull. exfalso. apply Hfree, Hall. lia.
Qed.

Lemma new_reg_name_taken p gen_ch name init_val rtype page :
  page_of p gen_ch = Some page ->
  ~ page_full p page ->
  name_taken p gen_ch name ->
  exists addr,
    1 <= addr <= 12 /\ ((page, addr) ∉ _user_regs p) /\
    new_reg gen_ch (Some name) init_val rtype p
    = (set_user_regs (fun l => l ++ [(page, addr)]) p, Raise KeyError).
Proof.
  unfold new_reg, page_of, page_full, name_taken, gen_cfg. unfold_monad.
  destruct (getitem (list_to_map (gen_chs p)) gen_ch) as [kws|]; [|done].
  destruct (getitem kws "ch") as [ch|]; [|done].
  intros [= <-] Hnotfull (d & Hd & Hname).
  pose proof (while_taken_free (_user_regs p) (ch_page ch) 1) as (Hle & Hfree & Hbelow).
  set (addr := while_taken _ _ _ _) in *.
  exists addr.
  destruct (12 <? addr) eqn:Hfull.
  - apply Z.ltb_lt in Hfull. exfalso. apply Hnotfull. intros a Ha.
    apply Hbelow. lia.
  - apply Z.ltb_ge in Hfull. simpl. unfold getitem. rewrite Hd.
    destruct (decide (is_Some (d !! name))); [|done].
    split_and!; solve [done | lia].
Qed.

End Allocation.
Example new_reg_third :
  (reg_addr <$> (new_reg (api := demo_api) "q" None None None (demo_prog 2)).2) = Ok 3.
Proof. vm_compute. reflexivity. Qed.

Lemma demo_prog_regs n a :
  (0, a) ∈ _user_regs (demo_prog n) <-> 1 <= a <= Z.of_nat n.
Proof.
  simpl. rewrite list_elem_of_fmap. split.
  - intros (k & [= ->] & Hk). apply elem_of_seq in Hk. lia.
  - intros Ha. exists (Z.to_nat a). split; [f_equal; lia|].
    apply elem_of_seq. lia.
Qed.

Lemma demo_prog_full : page_full (demo_prog 12) 0.
Proof. intros a Ha. apply demo_prog_regs. lia. Qed.

Lemma demo_prog_not_full : ~ page_full (demo_prog 2) 0.
Proof. intros H. specialize (H 3). rewrite demo_prog_regs in H. lia. Qed.

Lemma demo_name_taken n : name_taken (demo_prog n) "q" "r".
Proof. eexists. split; [reflexivity|]. vm_compute. eauto. Qed.

(** ** C5: [new_reg] *)

(** C5 (as the code has it).  For a channel whose page is [page]:
    a register that [new_reg] returns has an address between 1 and 12 that
    was not in the allocated list, every lower address from 1 on is taken
    (it is the lowest free one), and the pair is appended to the list;
    when the addresses 1 to 12 of the page are all taken the call raises
    [ValueError] and changes nothing; when the page is not full and the
    name given by the caller is already a register of that channel the
    call raises [KeyError]. *)
Theorem new_reg_allocation {api : QickProgramAPI} p gen_ch name init_val rtype page :
  page_of p gen_ch = Some page ->
  (forall p' reg,
      new_reg gen_ch name init_val rtype p = (p', Ok reg) ->
      reg_page reg = page /\
      ((page, reg_addr reg) ∉ _user_regs p) /\
      1 <= reg_addr reg <= 12 /\
      (forall a, 1 <= a < reg_addr reg -> (page, a) ∈ _user_regs p) /\
      _user_regs p' = _user_regs p ++ [(page, reg_addr reg)])
  /\ (page_full p page ->
      new_reg gen_ch name init_val rtype p = (p, Raise ValueError))
  /\ (~ page_full p page ->
      forall n, name = Some n -> name_taken p gen_ch n ->
      (new_reg gen_ch name init_val rtype p).2 = Raise KeyError).
Proof.
  intros Hpage. split_and!.
  - intros p' reg Hrun.
    destruct (new_reg_success _ _ _ _ _ _ _ Hrun) as (Hp & Hfree & Hrange & Hlow & Hregs).
    assert (reg_page reg = page) as Heq by congruence.
    rewrite Heq in *. done.
  - intros Hfull. by apply (new_reg_page_full _ _ _ _ _ page).
  - intros Hnotfull n -> Htaken.
    destruct (new_reg_name_taken p gen_ch n init_val rtype page) as (a & _ & _ & ->); done.
Qed.

Lemma new_reg_allocation_witness :
  page_of (api := demo_api) (demo_prog 2) "q" = Some 0 /\
  (new_reg (api := demo_api) "q" (Some "r") None None (demo_prog 2)).2 = Raise KeyError /\
  new_reg (api := demo_api) "q" None None None (demo_prog 12)
  = (demo_prog 12, Raise ValueError).
Proof.
  split; [reflexivity|]. split.
  - exact (proj2 (proj2 (new_reg_allocation (api := demo_api) (demo_prog 2) "q"
                           (Some "r") None None 0 eq_refl))
             demo_prog_not_full "r" eq_refl (demo_name_taken 2)).
  - exact (proj1 (proj2 (new_reg_allocation (api := demo_api) (demo_prog 12) "q"
                           None None None 0 eq_refl))
             demo_prog_full).
Defined.

(** C5 as stated fails where its two error cases meet: with the page full
    and the name taken, the page test comes first and the exception is
    [ValueError], not [KeyError]. *)
Lemma new_reg_name_taken_on_full_page :
  ~ (forall (api : QickProgramAPI) p gen_ch name init_val rtype,
        name_taken p gen_ch name ->
        (new_reg gen_ch (Some name) init_val rtype p).2 = Raise KeyError).
Proof.
  intros H.
  specialize (H demo_api (demo_prog 12) "q" "r" None None (demo_name_taken 12)).
  vm_compute in H. discriminate H.
Qed.

(** ** C9: a sweep of one point *)

Section Sweeps.
Context {api : QickProgramAPI}.

(** C9.  With one point the step [(stop - start) / (expts - 1)] divides by
    zero: the constructor raises [ZeroDivisionError] for every register,
    start and stop, and no sweep is built. *)
Theorem QickSweep_init_one_point reg start stop :
  QickSweep_init reg start stop 1 = Raise ZeroDivisionError.
Proof. reflexivity. Qed.

Lemma QickSweep_init_ok reg start stop n :
  n <> 1 -> 0 <= n ->
  exists swp, QickSweep_init reg start stop n = Ok swp /\
    swp_expts swp = n /\ swp_reg swp = reg /\
    swp_reg_step swp = val2reg reg ((stop - start) / IZR (n - 1))%R /\
    length (swp_sweep_array swp) = Z.to_nat n.
Proof.
  intros Hn Hpos. unfold QickSweep_init, py_truediv, linspace.
  destruct (n - 1 =? 0) eqn:E; [apply Z.eqb_eq in E; lia|].
  destruct (n <? 0) eqn:E'; [apply Z.ltb_lt in E'; lia|].
  simpl. eexists. split; [reflexivity|]. simpl.
  rewrite length_map, length_seq. done.
Qed.

(** ** C4: the number of experiment points *)

Lemma product_perm l l' : l ≡ₚ l' -> product l = product l'.
Proof.
  induction 1; simpl; lia.
Qed.

Lemma add_sweeps_from p sweeps e :
  expts p = Some e ->
  exists p',
    for_each sweeps add_sweep p = (p', Ok tt) /\
    qick_sweeps p' = qick_sweeps p ++ sweeps /\
    expts p' = Some (e * product (map swp_expts sweeps)) /\
    prog_list p' = prog_list p /\ reps p' = reps p.
Proof.
  revert p e. induction sweeps as [|s sweeps IH]; intros p e He; simpl.
  - exists p. rewrite app_nil_r, Z.mul_1_r. done.
  - unfold add_sweep at 1. unfold_monad. simpl. rewrite He. simpl.
    edestruct (IH (set_expts (fun _ => Some (e * swp_expts s))
                     (set_qick_sweeps (fun l => l ++ [s]) p)))
      as (p' & Hrun & Hs & He' & Hl & Hr); [reflexivity|].
    exists p'. rewrite Hrun, Hs, He', Hl, Hr. simpl.
    rewrite <- app_assoc. split_and!; try done. f_equal. lia.
Qed.

(** C4.  Registering the sweeps of any list with [add_sweep], from the
    state the constructor sets up (no sweep, [expts = 1]), succeeds, keeps
    the sweeps in the order of registration and leaves [expts] equal to
    the product of their point counts, which is 1 for no sweep and the
    same for every order of registration. *)
Theorem add_sweep_expts_product p sweeps :
  exists p',
    for_each sweeps add_sweep (no_sweeps p) = (p', Ok tt) /\
    qick_sweeps p' = sweeps /\
    expts p' = Some (product (map swp_expts sweeps)) /\
    (sweeps = [] -> expts p' = Some 1) /\
    (forall sweeps' q', sweeps ≡ₚ sweeps' ->
       for_each sweeps' add_sweep (no_sweeps p) = (q', Ok tt) ->
       expts q' = expts p').
Proof.
  destruct (add_sweeps_from (no_sweeps p) sweeps 1 eq_refl)
    as (p' & Hrun & Hs & He & _).
  exists p'. split_and!; try done.
  - rewrite He. f_equal. lia.
  - intros ->. rewrite He. done.
  - intros sweeps' q' Hperm Hrun'.
    destruct (add_sweeps_from (no_sweeps p) sweeps' 1 eq_refl)
      as (q'' & Hrun'' & _ & He'' & _).
    assert (q'' = q') as -> by congruence.
    rewrite He, He''. do 2 f_equal. apply product_perm.
    by apply fmap_Permutation.
Qed.

Example expts_5_3 :
  (expts (for_each [demo_sweep "a" 1 5; demo_sweep "b" 2 3] add_sweep
            (no_sweeps (demo_prog 0))).1,
   expts (for_each [demo_sweep "b" 2 3; demo_sweep "a" 1 5] add_sweep
            (no_sweeps (demo_prog 0))).1) = (Some 15, Some 15).
Proof. reflexivity. Qed.

End Sweeps.

(** ** The emitted program *)

Section MakeProgram.
Context {api : QickProgramAPI}.

Lemma append_code_app a b q :
  append_code b (append_code a q) = append_code (a ++ b) q.
Proof. destruct q. unfold append_code, set_prog_list. simpl. by rewrite app_assoc. Qed.

Lemma append_code_nil q : append_code [] q = q.
Proof. destruct q. unfold append_code, set_prog_list. simpl. by rewrite app_nil_r. Qed.

Section Invariant.
Variable I : Prog -> Prop.
Hypothesis I_append : forall c q, I q -> I (append_code c q).

Lemma emits_on_ret : emits_on I (ret tt) [].
Proof. intros q _. unfold ret. by rewrite append_code_nil. Qed.

Lemma emits_on_emit i : emits_on I (emit i) [i].
Proof. intros q _. reflexivity. Qed.

Lemma emits_on_bind m k a b :
  emits_on I m a -> emits_on I (k tt) b -> emits_on I (bind m k) (a ++ b).
Proof.
  intros Hm Hk q Hq. rewrite (bind_Ok _ _ _ _ _ (Hm q Hq)).
  rewrite (Hk _ (I_append a q Hq)). by rewrite append_code_app.
Qed.

Lemma emits_on_for_each {A} (l : list A) (f : A -> M Prog unit) code :
  (forall x, x ∈ l -> emits_on I (f x) (code x)) ->
  emits_on I (for_each l f) (concat (map code l)).
Proof.
  induction l as [|x l IH]; intros Hf; simpl.
  - apply emits_on_ret.
  - apply emits_on_bind.
    + apply Hf. apply list_elem_of_here.
    + apply IH. intros y Hy. apply Hf. by apply list_elem_of_further.
Qed.

Lemma emits_emits_on m c : emits m c -> emits_on I m c.
Proof. intros H q _. apply H. Qed.

Lemma emits_on_emit_then i (k : unit -> M Prog unit) c :
  emits_on I (k tt) c -> emits_on I (bind (emit i) k) (i :: c).
Proof. intros Hk. apply (emits_on_bind _ _ [i] c); [apply emits_on_emit | done]. Qed.

Lemma emits_on_get_then (k : Prog -> M Prog unit) c :
  (forall q0, I q0 -> emits_on I (k q0) c) -> emits_on I (bind get k) c.
Proof. intros Hk q Hq. unfold bind, get. by apply Hk. Qed.

Lemma emits_on_lift_then {A} (o : outcome A) a (k : A -> M Prog unit) c :
  o = Ok a -> emits_on I (k a) c -> emits_on I (bind (lift o) k) c.
Proof. intros -> Hk q Hq. unfold bind, lift. by apply Hk. Qed.
End Invariant.

Lemma loop_nest_flat loops core :
  loop_nest loops core
  = concat (map setup_code (reverse loops)) ++ core ++ concat (map teardown_code loops).
Proof.
  unfold loop_nest. revert core.
  induction loops as [|cs loops IH]; intros core; simpl.
  - by rewrite app_nil_r.
  - rewrite IH, reverse_cons, map_app, concat_app. simpl.
    rewrite app_nil_r, <- !app_assoc. done.
Qed.

(** *** The counter registers *)

Lemma counter_regs_of_length n : length (counter_regs_of n) = n.
Proof. unfold counter_regs_of. by rewrite length_map, length_seq. Qed.

Lemma counter_regs_of_lookup n (i : nat) :
  (i < n)%nat -> counter_regs_of n !! i = Some (15 + Z.of_nat i).
Proof.
  intros Hi. unfold counter_regs_of.
  rewrite list_lookup_fmap, lookup_seq_lt by done. simpl. f_equal. lia.
Qed.

Lemma counter_regs_of_last n :
  last (counter_regs_of n) = if decide (n = 0%nat) then None else Some (14 + Z.of_nat n).
Proof.
  destruct n as [|n]; [done|].
  unfold counter_regs_of. rewrite seq_S, map_app. simpl. rewrite last_snoc.
  f_equal. lia.
Qed.

Lemma check_counter_regs_eq n :
  check_counter_regs (counter_regs_of n)
  = if decide (n = 0%nat) then Raise IndexError
    else if decide (8 <= n)%nat then Raise OverflowError else Ok tt.
Proof.
  unfold check_counter_regs, last_item. rewrite counter_regs_of_last.
  destruct (decide (n = 0%nat)); [done|]. simpl.
  destruct (decide (8 <= n)%nat).
  - replace (21 <? 14 + Z.of_nat n) with true; [done|]. symmetry. apply Z.ltb_lt. lia.
  - replace (21 <? 14 + Z.of_nat n) with false; [done|]. symmetry. apply Z.ltb_ge. lia.
Qed.

(** [make_program] up to the test on the counter registers. *)
Lemma make_program_check initialize body p p1 :
  initialize p = (p1, Ok tt) ->
  make_program initialize body p
  = match check_counter_regs (counter_regs_of (length (qick_sweeps p1))) with
    | Raise e => (p1, Raise e)
    | Ok _ => (make_program (ret tt) body) p1
    end.
Proof.
  intros Hinit. unfold make_program.
  rewrite (bind_Ok _ _ _ _ _ Hinit). unfold_monad.
  destruct (check_counter_regs _); done.
Qed.

Lemma make_program_empty initialize body p p1 :
  initialize p = (p1, Ok tt) ->
  qick_sweeps p1 = [] ->
  make_program initialize body p = (p1, Raise IndexError).
Proof.
  intros Hinit Hnil. by rewrite (make_program_check _ _ _ _ Hinit), Hnil.
Qed.

Lemma QickSweep_reset_emits swp :
  has_init_val swp -> emits (QickSweep_reset swp) (reset_code (swp_reg swp)).
Proof.
  intros [v Hv] q. unfold QickSweep_reset, QickRegister_reset, reset_code.
  rewrite Hv. reflexivity.
Qed.

Lemma reverse_zip {A B} (l : list A) (k : list B) :
  length l = length k -> zip (reverse l) (reverse k) = reverse (zip l k).
Proof.
  revert k. induction l as [|x l IH]; intros [|y k] Hlen; simpl in *; try done.
  rewrite !reverse_cons.
  rewrite zip_with_app by (rewrite !length_reverse; lia).
  rewrite IH by lia. done.
Qed.

Lemma make_program_emits initialize body body_code p p1 r :
  initialize p = (p1, Ok tt) ->
  reps p1 = Some r ->
  (1 <= length (qick_sweeps p1) <= 7)%nat ->
  Forall has_init_val (qick_sweeps p1) ->
  emits body body_code ->
  make_program initialize body p
  = (append_code (emitted r (qick_sweeps p1) body_code) p1, Ok tt).
Proof.
  intros Hinit Hr Hn Hval Hbody.
  rewrite (make_program_check _ _ _ _ Hinit), check_counter_regs_eq.
  destruct (decide (_ = 0%nat)); [lia|]. destruct (decide (8 <= _)%nat); [lia|].
  set (sweeps := qick_sweeps p1) in *.
  set (I := fun q : Prog => qick_sweeps q = sweeps /\ reps q = Some r).
  assert (forall c q, I q -> I (append_code c q)) as HI.
  { intros c [] Hq. exact Hq. }
  enough (emits_on I (make_program (ret tt) body) (emitted r sweeps body_code)) as H
    by (by apply H).
  clear Hinit. unfold make_program, emitted.
  apply (emits_on_bind I HI _ _ []); [apply emits_on_ret|]. cbv beta zeta.
  apply emits_on_get_then. intros q0 [Hsw _]. rewrite Hsw.
  eapply emits_on_lift_then.
  { rewrite check_counter_regs_eq.
    destruct (decide (_ = 0%nat)); [lia|]. destruct (decide (8 <= _)%nat); [lia|]. done. }
  apply emits_on_emit_then; [done|].
  intros q [Hq Hrq]. unfold cfg_reps at 1. unfold bind at 1. unfold bind at 1.
  unfold get at 1. rewrite Hrq. unfold ret at 1.
  revert q Hq Hrq.
  match goal with
  | |- forall q, _ -> _ -> ?m q = _ =>
      enough (emits_on I m
        (regwi 0 14 (r - 1) :: label "LOOP_rep"
         :: concat (map setup_code (reverse (zip (counter_regs_of (length sweeps)) sweeps)))
         ++ body_code ++ [mathi 0 13 13 "+" 1; memwi 0 13 1]
         ++ concat (map teardown_code (zip (counter_regs_of (length sweeps)) sweeps))
         ++ [loopnz 0 14 "LOOP_rep"; end_])) as H
        by (intros q Hq Hrq; by apply H)
  end.
  apply emits_on_emit_then; [done|].
  apply emits_on_emit_then; [done|].
  apply emits_on_get_then. intros q1 [Hsw1 _]. rewrite Hsw1.
  apply emits_on_bind; [done | |].
  { rewrite reverse_zip by (by rewrite counter_regs_of_length).
    apply emits_on_for_each; [done|]. intros [creg swp] Hin. unfold setup_code. simpl.
    apply emits_on_bind; [done | |].
    - apply emits_emits_on, QickSweep_reset_emits.
      apply elem_of_reverse, elem_of_zip_r in Hin.
      eapply Forall_forall in Hval; eauto.
    - apply emits_on_emit_then; [done|]. apply emits_on_emit. }
  apply emits_on_bind; [done | by apply emits_emits_on |].
  apply emits_on_emit_then; [done|].
  apply emits_on_emit_then; [done|].
  apply emits_on_get_then. intros q2 [Hsw2 _]. rewrite Hsw2.
  apply emits_on_bind; [done | |].
  { apply emits_on_for_each; [done|]. intros [creg swp] Hin. unfold teardown_code.
    apply emits_on_emit_then; [done|]. apply emits_on_emit. }
  apply emits_on_emit_then; [done|]. apply emits_on_emit.
Qed.

End MakeProgram.

Section LoopNest.
Context {api : QickProgramAPI}.

Lemma zip_counter_regs_lookup (sweeps : list QickSweep) (i : nat) swp :
  sweeps !! i = Some swp ->
  zip (counter_regs_of (length sweeps)) sweeps !! i = Some (15 + Z.of_nat i, swp).
Proof.
  intros Hi. pose proof (lookup_lt_Some _ _ _ Hi) as Hlt.
  rewrite lookup_zip_with, counter_regs_of_lookup, Hi by done. done.
Qed.

(** C1.  When [initialize] has registered between one and seven sweeps
    (each on a register with an initial value) and [body] appends
    [body_code], [make_program] appends to the program, after the two
    counter writes and the repetition label: the reset, counter write and
    label of each sweep from the last registered to the first; the body
    and the run counter; the update and [loopnz] of each sweep from the
    first registered to the last; the [loopnz] of the repetitions and
    [end].  The [i]-th registered sweep uses counter register [15 + i] in
    both places.  This is the loop nest built from the inside in
    registration order: the loop of the first registered sweep encloses
    the body directly and every other loop encloses it. *)
Theorem make_program_loop_nest initialize body body_code p p1 r :
  initialize p = (p1, Ok tt) ->
  reps p1 = Some r ->
  (1 <= length (qick_sweeps p1) <= 7)%nat ->
  Forall has_init_val (qick_sweeps p1) ->
  emits body body_code ->
  let sweeps := qick_sweeps p1 in
  let loops := zip (counter_regs_of (length sweeps)) sweeps in
  let core := body_code ++ [mathi 0 13 13 "+" 1; memwi 0 13 1] in
  exists p',
    make_program initialize body p = (p', Ok tt) /\
    prog_list p'
    = prog_list p1
      ++ [regwi 0 13 0; regwi 0 14 (r - 1); label "LOOP_rep"]
      ++ concat (map setup_code (reverse loops))
      ++ core
      ++ concat (map teardown_code loops)
      ++ [loopnz 0 14 "LOOP_rep"; end_] /\
    (forall (i : nat) swp, sweeps !! i = Some swp ->
        loops !! i = Some (15 + Z.of_nat i, swp)) /\
    concat (map setup_code (reverse loops)) ++ core ++ concat (map teardown_code loops)
    = loop_nest loops core /\
    (forall first rest, sweeps = first :: rest ->
        exists outer,
          loops = (15, first) :: outer /\
          loop_nest loops core
          = loop_nest outer
              (setup_code (15, first) ++ core ++ teardown_code (15, first))).
Proof.
  intros Hinit Hr Hn Hval Hbody sweeps loops core.
  eexists. split; [by eapply make_program_emits|].
  split_and!.
  - unfold append_code, emitted, core. simpl. by rewrite <- !app_assoc.
  - intros i swp Hi. by apply zip_counter_regs_lookup.
  - by rewrite loop_nest_flat.
  - intros first rest Hsw. unfold loops. rewrite Hsw. simpl.
    eexists. split; reflexivity.
Qed.

Lemma in_concat_map {A B} (f : A -> list B) (l : list A) x y :
  x ∈ l -> y ∈ f x -> y ∈ concat (map f l).
Proof.
  intros Hx Hy. induction Hx as [x l|x x' l _ IH]; simpl; apply elem_of_app.
  - by left.
  - right. auto.
Qed.

Lemma loopnz_regs_setup (loops : list (Z * QickSweep)) :
  loopnz_regs (concat (map setup_code loops)) = [].
Proof.
  unfold loopnz_regs. induction loops as [|[creg swp] loops IH]; simpl; [done|].
  rewrite omap_app, IH, app_nil_r. unfold setup_code, reset_code. simpl.
  by destruct (reg_init_val (swp_reg swp)).
Qed.

Lemma loopnz_regs_teardown (loops : list (Z * QickSweep)) :
  loopnz_regs (concat (map teardown_code loops)) = map fst loops.
Proof.
  unfold loopnz_regs. induction loops as [|[creg swp] loops IH]; simpl; [done|].
  f_equal. exact IH.
Qed.

(** The counter registers the program emitted by [make_program] counts
    down, when the body has no loop of its own. *)
Lemma loopnz_regs_emitted r (sweeps : list QickSweep) body_code :
  loopnz_regs body_code = [] ->
  loopnz_regs (emitted r sweeps body_code) = counter_regs_of (length sweeps) ++ [14].
Proof.
  intros Hbody. unfold emitted.
  change (loopnz_regs ?l) with (omap (fun i => match i with
                                               | loopnz _ reg _ => Some reg
                                               | _ => None
                                               end) l).
  rewrite !omap_app.
  change (omap ?f ?l) with (loopnz_regs l).
  rewrite loopnz_regs_setup, Hbody, loopnz_regs_teardown. simpl.
  f_equal. apply fst_zip. by rewrite counter_regs_of_length.
Qed.

(** C6.  The counter registers are [15, 16, ...], one per registered
    sweep; the test on the last of them raises [OverflowError] exactly for
    eight sweeps or more and passes for one to seven.  [make_program]
    then stops with [OverflowError] after [initialize] for eight sweeps
    or more, having emitted nothing.  For one to seven sweeps (each on a
    register with an initial value, the body appending [body_code]) it
    runs to its end, and in the program it has emitted the [i]-th
    registered sweep has counter register [15 + i]: that register is
    loaded with the point count minus one before the label of the sweep
    and counted down by the [loopnz] of the sweep.  When the body has no
    [loopnz] of its own, the registers the emitted program counts down
    are 15, ..., [14 + n] in registration order and then the repetition
    counter 14: one register per sweep, none of them twice. *)
Theorem counter_registers (n : nat) :
  length (counter_regs_of n) = n /\
  (forall i : nat, (i < n)%nat -> counter_regs_of n !! i = Some (15 + Z.of_nat i)) /\
  (check_counter_regs (counter_regs_of n) = Raise OverflowError <-> (8 <= n)%nat) /\
  ((1 <= n <= 7)%nat -> check_counter_regs (counter_regs_of n) = Ok tt) /\
  (forall initialize body p p1,
      initialize p = (p1, Ok tt) ->
      length (qick_sweeps p1) = n ->
      ((8 <= n)%nat -> make_program initialize body p = (p1, Raise OverflowError)) /\
      ((1 <= n <= 7)%nat ->
       forall r body_code,
         reps p1 = Some r -> Forall has_init_val (qick_sweeps p1) ->
         emits body body_code ->
         let sweeps := qick_sweeps p1 in
         let loops := zip (counter_regs_of n) sweeps in
         exists p',
           make_program initialize body p = (p', Ok tt) /\
           prog_list p'
           = prog_list p1
             ++ [regwi 0 13 0; regwi 0 14 (r - 1); label "LOOP_rep"]
             ++ concat (map setup_code (reverse loops))
             ++ body_code ++ [mathi 0 13 13 "+" 1; memwi 0 13 1]
             ++ concat (map teardown_code loops)
             ++ [loopnz 0 14 "LOOP_rep"; end_] /\
           map fst loops = counter_regs_of n /\
           NoDup (map fst loops) /\
           (forall (i : nat) swp, sweeps !! i = Some swp ->
              let creg := 15 + Z.of_nat i in
              loops !! i = Some (creg, swp) /\
              regwi 0 creg (swp_expts swp - 1) ∈ prog_list p' /\
              label (loop_label creg swp) ∈ prog_list p' /\
              loopnz 0 creg (loop_label creg swp) ∈ prog_list p') /\
           (loopnz_regs body_code = [] ->
            loopnz_regs (drop (length (prog_list p1)) (prog_list p'))
            = counter_regs_of n ++ [14]))).
Proof.
  split_and!.
  - apply counter_regs_of_length.
  - intros i Hi. by apply counter_regs_of_lookup.
  - rewrite check_counter_regs_eq.
    destruct (decide (n = 0%nat)); [split; [done | lia]|].
    destruct (decide (8 <= n)%nat); split; done.
  - intros Hn. rewrite check_counter_regs_eq.
    destruct (decide (n = 0%nat)); [lia|]. destruct (decide (8 <= n)%nat); [lia | done].
  - intros initialize body p p1 Hinit Hlen. split.
    + intros Hn. rewrite (make_program_check _ _ _ _ Hinit), Hlen, check_counter_regs_eq.
      destruct (decide (n = 0%nat)); [lia|]. destruct (decide (8 <= n)%nat); [done | lia].
    + intros Hn r body_code Hr Hval Hbody sweeps loops.
      assert (map fst loops = counter_regs_of n) as Hfst.
      { apply fst_zip. rewrite counter_regs_of_length. unfold sweeps. lia. }
      assert (prog_list (append_code (emitted r sweeps body_code) p1)
              = prog_list p1
                ++ [regwi 0 13 0; regwi 0 14 (r - 1); label "LOOP_rep"]
                ++ concat (map setup_code (reverse loops))
                ++ body_code ++ [mathi 0 13 13 "+" 1; memwi 0 13 1]
                ++ concat (map teardown_code loops)
                ++ [loopnz 0 14 "LOOP_rep"; end_]) as Hlist.
      { unfold append_code, emitted, loops, sweeps. rewrite Hlen. reflexivity. }
      exists (append_code (emitted r sweeps body_code) p1). split.
      { apply (make_program_emits _ _ body_code _ p1 r); try done. lia. }
      split; [exact Hlist|]. split; [exact Hfst|]. split.
      { rewrite Hfst. unfold counter_regs_of. apply NoDup_fmap_2; [|apply NoDup_seq].
        intros a b Hab. lia. }
      split.
      * intros i swp Hi creg.
        assert (loops !! i = Some (creg, swp)) as Hloop.
        { unfold loops, sweeps. rewrite <- Hlen. by apply zip_counter_regs_lookup. }
        split; [exact Hloop|].
        assert ((creg, swp) ∈ loops) as Hin by (by eapply list_elem_of_lookup_2).
        assert ((creg, swp) ∈ reverse loops) as Hrev by (by apply elem_of_reverse).
        rewrite Hlist. split_and!.
        -- apply elem_of_app. right. apply elem_of_app. right. apply elem_of_app. left.
           apply (in_concat_map _ _ _ _ Hrev). unfold setup_code.
           apply elem_of_app. right. simpl. apply list_elem_of_here.
        -- apply elem_of_app. right. apply elem_of_app. right. apply elem_of_app. left.
           apply (in_concat_map _ _ _ _ Hrev). unfold setup_code.
           apply elem_of_app. right. simpl. apply list_elem_of_further, list_elem_of_here.
        -- apply elem_of_app. right. apply elem_of_app. right. apply elem_of_app. right.
           apply elem_of_app. right. apply elem_of_app. right. apply elem_of_app. left.
           apply (in_concat_map _ _ _ _ Hin). unfold teardown_code. simpl.
           apply list_elem_of_further, list_elem_of_here.
      * intros Hnone. unfold append_code. simpl.
        rewrite drop_app_length. rewrite (loopnz_regs_emitted _ _ _ Hnone).
        unfold sweeps in *. by rewrite Hlen.
Qed.

(** C10.  When no sweep has been registered by the time [initialize]
    returns, [make_program] raises [IndexError] (the last element of the
    empty list of counter registers) and emits nothing more. *)
Theorem make_program_without_sweeps initialize body p p1 :
  initialize p = (p1, Ok tt) ->
  qick_sweeps p1 = [] ->
  make_program initialize body p = (p1, Raise IndexError).
Proof. apply make_program_empty. Qed.

(** The hooks of [NDAveragerProgram] itself do nothing, so building the
    class as it stands always fails this way. *)
Lemma NDAveragerProgram_init_stub p :
  NDAveragerProgram_init (ret tt) (ret tt) p = (no_sweeps p, Raise IndexError).
Proof.
  unfold NDAveragerProgram_init. unfold bind at 1 2, modify.
  by apply make_program_empty.
Qed.

(** The constructor with hooks that register [sweeps] and emit [body_code]:
    the program is built and [expts] is the product of the point counts. *)
Lemma NDAveragerProgram_init_expts sweeps body body_code p r :
  reps p = Some r ->
  (1 <= length sweeps <= 7)%nat ->
  Forall has_init_val sweeps ->
  emits body body_code ->
  exists p',
    NDAveragerProgram_init (for_each sweeps add_sweep) body p = (p', Ok tt) /\
    qick_sweeps p' = sweeps /\
    expts p' = Some (product (map swp_expts sweeps)).
Proof.
  intros Hr Hn Hval Hbody.
  destruct (add_sweeps_from (no_sweeps p) sweeps 1 eq_refl)
    as (p1 & Hrun & Hs & He & _ & Hr1).
  simpl in Hs, Hr1.
  unfold NDAveragerProgram_init. unfold bind at 1 2, modify.
  change (set_expts (fun _ => Some 1) (set_qick_sweeps (fun _ => []) p))
    with (no_sweeps p).
  rewrite (make_program_emits _ _ body_code _ p1 r Hrun); try congruence.
  eexists. split; [reflexivity|]. simpl. split; [done|].
  rewrite He. f_equal. lia.
Qed.

End LoopNest.

(** *** Examples *)

Lemma demo_has_init_val name addr n : has_init_val (demo_sweep name addr n).
Proof. eexists. reflexivity. Qed.

Lemma demo_body_emits : emits demo_body [user_instr "pulse"].
Proof. intros q. reflexivity. Qed.

Example make_program_two_sweeps :
  prog_list (make_program (api := demo_api) (demo_initialize demo_two) demo_body
               (no_sweeps (demo_prog 0))).1
  = [regwi 0 13 0; regwi 0 14 9; label "LOOP_rep";
     safe_regwi 0 2 5; regwi 0 16 2; label "LOOP_b";
     safe_regwi 0 1 5; regwi 0 15 4; label "LOOP_a";
     user_instr "pulse"; mathi 0 13 13 "+" 1; memwi 0 13 1;
     mathi 0 1 1 "+" 1; loopnz 0 15 "LOOP_a";
     mathi 0 2 2 "+" 1; loopnz 0 16 "LOOP_b";
     loopnz 0 14 "LOOP_rep"; end_].
Proof. vm_compute. reflexivity. Qed.

Lemma make_program_loop_nest_witness :
  let loops := zip (counter_regs_of 2) demo_two in
  let core := [user_instr "pulse"; mathi 0 13 13 "+" 1; memwi 0 13 1] in
  exists p',
    make_program (api := demo_api) (demo_initialize demo_two) demo_body
      (no_sweeps (demo_prog 0)) = (p', Ok tt) /\
    prog_list p'
    = [regwi 0 13 0; regwi 0 14 (10 - 1); label "LOOP_rep"]
      ++ concat (map setup_code (reverse loops))
      ++ core
      ++ concat (map teardown_code loops)
      ++ [loopnz 0 14 "LOOP_rep"; end_] /\
    loop_nest loops core
    = loop_nest [(16, demo_sweep "b" 2 3)]
        (setup_code (15, demo_sweep "a" 1 5) ++ core
         ++ teardown_code (15, demo_sweep "a" 1 5)).
Proof.
  intros loops core.
  destruct (make_program_loop_nest (api := demo_api) (demo_initialize demo_two) demo_body
              [user_instr "pulse"] (no_sweeps (demo_prog 0)) (demo_after demo_two) 10)
    as (p' & Hrun & Hlist & _ & _ & Hfirst).
  - vm_compute; reflexivity.
  - vm_compute; reflexivity.
  - vm_compute; lia.
  - repeat constructor; apply demo_has_init_val.
  - apply demo_body_emits.
  - exists p'. split; [exact Hrun|]. split; [exact Hlist|].
    destruct (Hfirst _ _ eq_refl) as (outer & Houter & Hnest).
    injection Houter as <-. exact Hnest.
Defined.

Lemma counter_registers_witness :
  make_program (api := demo_api) (demo_initialize (replicate 8 (demo_sweep "a" 1 2)))
    demo_body (no_sweeps (demo_prog 0))
  = (demo_after (replicate 8 (demo_sweep "a" 1 2)), Raise OverflowError) /\
  exists p',
    make_program (api := demo_api) (demo_initialize demo_two) demo_body
      (no_sweeps (demo_prog 0)) = (p', Ok tt) /\
    regwi 0 15 (5 - 1) ∈ prog_list p' /\ loopnz 0 15 "LOOP_a" ∈ prog_list p' /\
    regwi 0 16 (3 - 1) ∈ prog_list p' /\ loopnz 0 16 "LOOP_b" ∈ prog_list p' /\
    loopnz_regs (drop (length (prog_list (demo_after demo_two))) (prog_list p'))
    = [15; 16; 14].
Proof.
  destruct (counter_registers (api := demo_api) 8) as (_ & _ & _ & _ & H8).
  destruct (counter_registers (api := demo_api) 2) as (_ & _ & _ & _ & H2).
  split.
  - apply (H8 (demo_initialize (replicate 8 (demo_sweep "a" 1 2))) demo_body
             (no_sweeps (demo_prog 0)) (demo_after (replicate 8 (demo_sweep "a" 1 2))));
      [vm_compute; reflexivity | vm_compute; reflexivity | lia].
  - destruct (H2 (demo_initialize demo_two) demo_body (no_sweeps (demo_prog 0))
                (demo_after demo_two)) as [_ Hrun];
      [vm_compute; reflexivity | vm_compute; reflexivity |].
    destruct (Hrun ltac:(lia) 10 [user_instr "pulse"])
      as (p' & Hp' & _ & _ & _ & Hregs & Hcount).
    + vm_compute; reflexivity.
    + repeat constructor; apply demo_has_init_val.
    + apply demo_body_emits.
    + exists p'. split; [exact Hp'|].
      destruct (Hregs 0%nat (demo_sweep "a" 1 5) eq_refl) as (_ & Ha1 & _ & Ha2).
      destruct (Hregs 1%nat (demo_sweep "b" 2 3) eq_refl) as (_ & Hb1 & _ & Hb2).
      split; [exact Ha1|]. split; [exact Ha2|]. split; [exact Hb1|].
      split; [exact Hb2|]. exact (Hcount eq_refl).
Defined.

Lemma make_program_without_sweeps_witness :
  make_program (api := demo_api) (ret tt) (ret tt) (no_sweeps (demo_prog 0))
  = (no_sweeps (demo_prog 0), Raise IndexError).
Proof.
  exact (make_program_without_sweeps (api := demo_api) (ret tt) (ret tt)
           (no_sweeps (demo_prog 0)) (no_sweeps (demo_prog 0)) eq_refl eq_refl).
Defined.

(** ** C8: declaring the generators *)

Section Generators.

Lemma list_to_map_alter_item {V} (f : V -> V) (k k' : string) (l : list (string * V)) :
  (list_to_map (alter_item f k l) : gmap string V) !! k'
  = if decide (k' = k) then f <$> ((list_to_map l : gmap string V) !! k')
    else (list_to_map l : gmap string V) !! k'.
Proof.
  induction l as [|[k0 v] l IH]; simpl.
  - rewrite !lookup_empty. by destruct (decide (k' = k)).
  - destruct (decide (k0 = k)) as [->|Hne]; simpl.
    + destruct (decide (k' = k)) as [->|Hne'].
      * by rewrite !lookup_insert_eq.
      * rewrite !lookup_insert_ne by done. rewrite IH.
        by destruct (decide (k' = k)).
    + destruct (decide (k' = k0)) as [->|Hne'].
      * rewrite !lookup_insert_eq. by destruct (decide (k0 = k)).
      * rewrite !lookup_insert_ne by done. apply IH.
Qed.

Lemma gen_cfg_eq p gen_ch kws :
  (list_to_map (gen_chs p) : gmap string _) !! gen_ch = Some kws ->
  gen_cfg gen_ch p = (p, Ok kws).
Proof. intros H. unfold gen_cfg, getitem. unfold_monad. by rewrite H. Qed.

Lemma kws_pop_present p gen_ch kws key v :
  (list_to_map (gen_chs p) : gmap string _) !! gen_ch = Some kws ->
  kws !! key = Some v ->
  kws_pop gen_ch key p = (set_gen_chs (alter_item (delete key) gen_ch) p, Ok v) /\
  (list_to_map (gen_chs (set_gen_chs (alter_item (delete key) gen_ch) p))
     : gmap string _) !! gen_ch = Some (delete key kws).
Proof.
  intros Hk Hv. split.
  - unfold kws_pop. rewrite (bind_Ok _ _ _ _ _ (gen_cfg_eq _ _ _ Hk)).
    unfold getitem. unfold_monad. by rewrite Hv.
  - simpl. rewrite list_to_map_alter_item, Hk. by destruct (decide (gen_ch = gen_ch)).
Qed.

Lemma kws_pop_missing p gen_ch kws key :
  (list_to_map (gen_chs p) : gmap string _) !! gen_ch = Some kws ->
  kws !! key = None ->
  kws_pop gen_ch key p = (p, Raise KeyError).
Proof.
  intros Hk Hv. unfold kws_pop. rewrite (bind_Ok _ _ _ _ _ (gen_cfg_eq _ _ _ Hk)).
  unfold getitem. unfold_monad. by rewrite Hv.
Qed.

(** An entry with both [ch_I] and [ch_Q] and no [skew_phase]: the two keys
    are popped, then [kws.pop("skew_phase")] raises [KeyError], which the
    [except AttributeError] clause does not catch.  No generator is
    declared. *)
Lemma declare_one_gen_without_skew_phase p gen_ch kws ch_i ch_q :
  (list_to_map (gen_chs p) : gmap string _) !! gen_ch = Some kws ->
  kws !! "ch_I" = Some ch_i ->
  kws !! "ch_Q" = Some ch_q ->
  kws !! "skew_phase" = None ->
  (declare_one_gen gen_ch p).2 = Raise KeyError /\
  declared_gens (declare_one_gen gen_ch p).1 = declared_gens p.
Proof.
  intros Hk Hi Hq Hs.
  destruct (kws_pop_present p gen_ch kws "ch_I" ch_i Hk Hi) as [Hpop1 Hk1].
  set (p1 := set_gen_chs (alter_item (delete "ch_I") gen_ch) p) in *.
  assert (delete "ch_I" kws !! "ch_Q" = Some ch_q) as Hq1
    by (by rewrite lookup_delete_ne).
  destruct (kws_pop_present p1 gen_ch _ "ch_Q" ch_q Hk1 Hq1) as [Hpop2 Hk2].
  set (p2 := set_gen_chs (alter_item (delete "ch_Q") gen_ch) p1) in *.
  assert (delete "ch_Q" (delete "ch_I" kws) !! "skew_phase" = None) as Hs2
    by (by rewrite !lookup_delete_ne).
  pose proof (kws_pop_missing p2 gen_ch _ "skew_phase" Hk2 Hs2) as Hpop3.
  assert (declare_one_gen gen_ch p = (p2, Raise KeyError)) as ->; [|done].
  unfold declare_one_gen.
  rewrite (bind_Ok _ _ _ _ _ (gen_cfg_eq _ _ _ Hk)).
  destruct (decide (is_Some (kws !! "ch_I") /\ is_Some (kws !! "ch_Q"))) as [_|Hno].
  2:{ exfalso. apply Hno. rewrite Hi, Hq. eauto. }
  unfold bind at 1. unfold bind at 1. rewrite Hpop1.
  unfold bind at 1. rewrite Hpop2.
  unfold bind at 1. simpl for_each. unfold bind at 1. unfold try_except at 1.
  unfold bind at 1. rewrite Hpop3.
  destruct (decide (KeyError = AttributeError)); done.
Qed.

(** C8 at the failing input.  The entry
    [{"ch_I": 0, "ch_Q": 1, "nqz": 2}] makes [declare_all_gens] raise
    [KeyError] with no generator declared. *)
Theorem declare_all_gens_iq_bare :
  (declare_all_gens demo_iq_bare).2 = Raise KeyError /\
  declared_gens (declare_all_gens demo_iq_bare).1 = [].
Proof. vm_compute. done. Qed.

(** With the two optional keys present the entry is declared as two
    generators, each with the keywords that are left. *)
Example declare_all_gens_iq_full :
  (declare_all_gens demo_iq_full).2 = Ok tt /\
  declared_gens (declare_all_gens demo_iq_full).1
  = [ {| call_args := [VInt 0]; call_kws := {["nqz" := VInt 2]} |};
      {| call_args := [VInt 1]; call_kws := {["nqz" := VInt 2]} |} ].
Proof. vm_compute. done. Qed.

End Generators.

(** ** C7: single shots *)

Section SingleShots.
Open Scope R_scope.

Lemma heaviside_neg x h0 : x < 0 -> heaviside x h0 = 0.
Proof. intros H. unfold heaviside. destruct (Rlt_dec x 0); [done | lra]. Qed.

Lemma heaviside_pos x h0 : 0 < x -> heaviside x h0 = 1.
Proof.
  intros H. unfold heaviside.
  destruct (Rlt_dec x 0); [lra|]. destruct (Rlt_dec 0 x); [done | lra].
Qed.

Lemma heaviside_zero h0 : heaviside 0 h0 = h0.
Proof.
  unfold heaviside.
  destruct (Rlt_dec 0 0); [lra|]. done.
Qed.

Lemma rotate_zero iq : rotate 0 iq = iq.
Proof.
  destruct iq as [I Q]. unfold rotate. simpl. rewrite cos_0, sin_0.
  f_equal; lra.
Qed.

Lemma mapM_outcome_lookup {A B} (f : A -> outcome B) (l : list A) (r : list B) :
  mapM_outcome f l = Ok r ->
  length r = length l /\
  forall (i : nat) x, l !! i = Some x -> exists y, f x = Ok y /\ r !! i = Some y.
Proof.
  revert r. induction l as [|x l IH]; intros r; simpl.
  - intros [= <-]. split; [done|]. intros i x'. by rewrite lookup_nil.
  - destruct (f x) as [y|] eqn:Hy; simpl; [|done].
    destruct (mapM_outcome f l) as [ys|] eqn:Hys; simpl; [|done].
    intros [= <-]. destruct (IH ys eq_refl) as [Hlen Hlk].
    split; [simpl; lia|].
    intros [|i] x'; simpl.
    + intros [= <-]. eauto.
    + apply Hlk.
Qed.

Lemma mapM_outcome_total {A B} (f : A -> outcome B) (l : list A) :
  (forall x, x ∈ l -> exists y, f x = Ok y) -> exists r, mapM_outcome f l = Ok r.
Proof.
  induction l as [|x l IH]; intros Hf; simpl; [eauto|].
  destruct (Hf x) as [y ->]; [apply list_elem_of_here|]. simpl.
  destruct IH as [r ->]; [|simpl; eauto].
  intros z Hz. apply Hf. by apply list_elem_of_further.
Qed.

Lemma enumerate_lookup {A} (l : list A) (i : nat) x :
  l !! i = Some x -> enumerate l !! i = Some (i, x).
Proof.
  intros Hi. unfold enumerate. pose proof (lookup_lt_Some _ _ _ Hi).
  rewrite lookup_zip_with, lookup_seq_lt, Hi by done. done.
Qed.

Lemma enumerate_length {A} (l : list A) : length (enumerate l) = length l.
Proof. unfold enumerate. rewrite length_zip_with, length_seq. lia. Qed.

Lemma elem_of_enumerate {A} (l : list A) (i : nat) x :
  (i, x) ∈ enumerate l <-> l !! i = Some x.
Proof.
  split.
  - unfold enumerate. intros H. apply elem_of_lookup_zip_with in H.
    destruct H as (j & a & b & [= -> ->] & Hj & Hb).
    apply lookup_seq in Hj as [-> _]. done.
  - intros H. apply list_elem_of_lookup. exists i. by apply enumerate_lookup.
Qed.

Lemma item_Ok {A} (l : list A) i x : item l i = Ok x <-> l !! i = Some x.
Proof. unfold item. destruct (l !! i); split; congruence. Qed.

(** What [get_single_shots] stores for sample [k] of channel [i]. *)
Lemma get_single_shots_entry ro_chs di dq threshold angle shots
    (i k : nat) ch len I Q :
  get_single_shots ro_chs di dq threshold angle = Ok shots ->
  ro_chs !! i = Some (ch, len) ->
  entry2 di i k = Some I ->
  entry2 dq i k = Some Q ->
  exists a t,
    angle_list angle !! i = Some a /\
    threshold_list threshold !! i = Some t /\
    entry2 shots i k
    = Some (heaviside ((I * cos a - Q * sin a) / IZR len - t) 0).
Proof.
  unfold get_single_shots. intros Hrun Hro HI HQ.
  apply mapM_outcome_lookup in Hrun as [_ Hrun].
  destruct (Hrun i (i, (ch, len))) as (row & Hrow & Hshot).
  { by apply enumerate_lookup. }
  simpl in Hrow. unfold entry2 in *.
  destruct (di !! i) as [di_i|] eqn:Hdi; [|done].
  destruct (dq !! i) as [dq_i|] eqn:Hdq; [|done].
  simpl in HI, HQ.
  unfold item in Hrow. rewrite Hdi, Hdq in Hrow. simpl in Hrow.
  fold (angle_list angle) in Hrow. fold (threshold_list threshold) in Hrow.
  destruct (angle_list angle !! i) as [a|]; [|done]. simpl in Hrow.
  destruct (threshold_list threshold !! i) as [t|]; [|done]. simpl in Hrow.
  injection Hrow as <-.
  exists a, t. split_and!; try done.
  rewrite Hshot. simpl. rewrite lookup_zip_with, HI. simpl. by rewrite HQ.
Qed.

(** C7 (as the code has it).  For every sample of every channel,
    [get_single_shots] takes the first coordinate of the pair [(I, Q)]
    rotated by the channel's angle (not by its negative), divides it by
    the integration length, subtracts the threshold and applies the step
    function with value 0 at 0.  So a sample whose rotated, normalised
    value equals the threshold gives 0, a larger one gives 1, a smaller
    one gives 0, and with angle 0 the rotation leaves [I] unchanged. *)
Theorem get_single_shots_classifies ro_chs di dq threshold angle shots
    (i k : nat) ch len I Q :
  get_single_shots ro_chs di dq threshold angle = Ok shots ->
  ro_chs !! i = Some (ch, len) ->
  entry2 di i k = Some I ->
  entry2 dq i k = Some Q ->
  exists a t s,
    angle_list angle !! i = Some a /\
    threshold_list threshold !! i = Some t /\
    entry2 shots i k = Some s /\
    let v := (rotate a (I, Q)).1 / IZR len in
    s = heaviside (v - t) 0 /\
    (v = t -> s = 0) /\
    (t < v -> s = 1) /\
    (v < t -> s = 0) /\
    (a = 0 -> (rotate a (I, Q)).1 = I).
Proof.
  intros Hrun Hro HI HQ.
  destruct (get_single_shots_entry _ _ _ _ _ _ _ _ _ _ _ _ Hrun Hro HI HQ)
    as (a & t & Ha & Ht & Hs).
  exists a, t, (heaviside ((I * cos a - Q * sin a) / IZR len - t) 0).
  do 3 (split; [done|]). cbv zeta. simpl. split_and!.
  - done.
  - intros ->. replace (t - t) with 0 by lra. apply heaviside_zero.
  - intros Hlt. apply heaviside_pos. lra.
  - intros Hlt. apply heaviside_neg. lra.
  - intros ->. rewrite cos_0, sin_0. lra.
Qed.

End SingleShots.

Section SingleShotExamples.
Open Scope R_scope.

Lemma demo_single_shots :
  get_single_shots demo_ro demo_di demo_dq (ThrInt 0) demo_angle
  = Ok [[heaviside ((0 * cos (PI / 2) - 1 * sin (PI / 2)) / 1 - 0) 0]].
Proof. reflexivity. Qed.

Lemma demo_single_shot_value :
  heaviside ((0 * cos (PI / 2) - 1 * sin (PI / 2)) / 1 - 0) 0 = 0.
Proof. rewrite cos_PI2, sin_PI2. apply heaviside_neg. lra. Qed.

Lemma get_single_shots_classifies_witness :
  exists a t s,
    angle_list demo_angle !! 0%nat = Some a /\
    threshold_list (ThrInt 0) !! 0%nat = Some t /\
    entry2 [[heaviside ((0 * cos (PI / 2) - 1 * sin (PI / 2)) / 1 - 0) 0]] 0 0 = Some s /\
    let v := (rotate a (0, 1)).1 / 1 in
    s = heaviside (v - t) 0 /\
    (v = t -> s = 0) /\ (t < v -> s = 1) /\ (v < t -> s = 0) /\
    (a = 0 -> (rotate a (0, 1)).1 = 0).
Proof.
  exact (get_single_shots_classifies demo_ro demo_di demo_dq (ThrInt 0) demo_angle
           _ 0 0 (VInt 0) 1%Z 0 1 demo_single_shots eq_refl eq_refl eq_refl).
Defined.

(** C7 as stated fails: the pair is rotated by the angle, not by its
    negative.  For [(I, Q) = (0, 1)] and the angle [PI / 2] the code's
    rotated value is [-1], which is classified 0, where the rotation by
    [- PI / 2] gives [1], which would be classified 1. *)
Lemma get_single_shots_not_negative_angle :
  ~ (forall ro_chs di dq threshold angle shots (i k : nat) ch len I Q a t,
        get_single_shots ro_chs di dq threshold angle = Ok shots ->
        ro_chs !! i = Some (ch, len) ->
        entry2 di i k = Some I ->
        entry2 dq i k = Some Q ->
        angle_list angle !! i = Some a ->
        threshold_list threshold !! i = Some t ->
        entry2 shots i k
        = Some (heaviside ((rotate (- a) (I, Q)).1 / IZR len - t) 0)).
Proof.
  intros H.
  specialize (H demo_ro demo_di demo_dq (ThrInt 0) demo_angle _ 0%nat 0%nat
                (VInt 0) 1%Z 0 1 (PI / 2) 0
                demo_single_shots eq_refl eq_refl eq_refl eq_refl eq_refl).
  simpl in H. injection H as H.
  rewrite demo_single_shot_value in H.
  rewrite cos_neg, sin_neg, cos_PI2, sin_PI2 in H.
  rewrite heaviside_pos in H; lra.
Qed.

End SingleShotExamples.

(** ** Slices, reshaping and sums *)

Section Arrays.
#[local] Open Scope nat_scope.

Lemma every_nth_lookup {A} (step : nat) (l : list A) :
  1 <= step -> forall skip k, every_nth step skip l !! k = l !! (skip + k * step).
Proof.
  intros Hstep. induction l as [|x l IH]; intros skip k; simpl.
  - by rewrite !lookup_nil.
  - destruct skip as [|skip].
    + destruct k as [|k]; simpl; [done|].
      rewrite IH. replace (step + k * step) with (S (step - 1 + k * step)) by lia.
      done.
    + rewrite IH. done.
Qed.

Lemma length_by_lookup {A} (l : list A) n :
  (forall k, is_Some (l !! k) <-> k < n) -> length l = n.
Proof.
  intros H.
  destruct (Nat.lt_trichotomy (length l) n) as [Hlt|[Heq|Hgt]]; [|done|].
  - assert (is_Some (l !! length l)) as Hs by (apply H; lia).
    apply lookup_lt_is_Some in Hs. lia.
  - assert (is_Some (l !! n)) as Hs by (apply lookup_lt_is_Some; lia).
    apply H in Hs. lia.
Qed.

(** A buffer of [n * step] samples sliced from a start below the step:
    the slice has [n] elements, the [k]-th is sample [ii + k * step]. *)
Lemma strided_full {A} (l : list A) (ii : Z) (step n : nat) :
  length l = n * step -> (0 <= ii < Z.of_nat step)%Z ->
  exists s, strided l ii step = Ok s /\ length s = n /\
            forall k, s !! k = if decide (k < n) then l !! (Z.to_nat ii + k * step)
                               else None.
Proof.
  intros Hlen Hii. unfold strided.
  destruct (decide (step = 0)) as [->|Hstep]; [lia|].
  eexists. split; [reflexivity|].
  assert (slice_start (length l) ii = Z.to_nat ii `min` length l) as Hstart.
  { unfold slice_start. destruct (ii <? 0)%Z eqn:E; [apply Z.ltb_lt in E; lia | done]. }
  rewrite Hstart.
  assert (forall k, every_nth step 0 (drop (Z.to_nat ii `min` length l) l) !! k
                    = if decide (k < n) then l !! (Z.to_nat ii + k * step) else None)
    as Hlk.
  { intros k. rewrite every_nth_lookup, lookup_drop by lia. simpl.
    destruct (decide (k < n)) as [Hk|Hk].
    - f_equal. assert (Z.to_nat ii + k * step < length l) by nia. lia.
    - apply lookup_ge_None. rewrite Hlen.
      assert (n <= k) by lia. destruct n; [lia|]. nia. }
  split; [|done].
  apply length_by_lookup. intros k. rewrite Hlk.
  destruct (decide (k < n)) as [Hk|Hk].
  - split; [done|]. intros _. apply lookup_lt_is_Some. nia.
  - split; [intros [? [=]] | done].
Qed.

Lemma reshape_Ok {A} (l : list A) rows cols rs :
  reshape l rows cols = Ok rs ->
  length l = rows * cols /\ length rs = rows /\
  Forall (fun row => length row = cols) rs /\
  forall r e, r < rows -> e < cols ->
    exists row, rs !! r = Some row /\ row !! e = l !! (r * cols + e).
Proof.
  unfold reshape. destruct (decide (length l = rows * cols)) as [Hlen|]; [|done].
  intros [= <-]. split; [done|]. split; [by rewrite length_map, length_seq|]. split.
  - apply Forall_forall. intros row Hrow. apply list_elem_of_fmap in Hrow.
    destruct Hrow as (r & -> & Hr). apply elem_of_seq in Hr.
    rewrite length_take, length_drop. nia.
  - intros r e Hr He. eexists. split.
    + rewrite list_lookup_fmap, lookup_seq_lt by done. reflexivity.
    + rewrite lookup_take_lt, lookup_drop by done. done.
Qed.

Lemma reshape_total {A} (l : list A) rows cols :
  length l = rows * cols -> exists rs, reshape l rows cols = Ok rs.
Proof. intros H. unfold reshape. destruct (decide _); [eauto | done]. Qed.

Lemma column_cons row rows e x :
  row !! e = Some x -> column (row :: rows) e = x :: column rows e.
Proof. intros H. unfold column. simpl. by rewrite H. Qed.

Lemma column_length rows cols e :
  Forall (fun row : list R => length row = cols) rows -> e < cols ->
  length (column rows e) = length rows.
Proof.
  intros Hrows He. induction Hrows as [|row rows Hrow _ IH]; [done|].
  destruct (lookup_lt_is_Some_2 row e) as [x Hx]; [lia|].
  rewrite (column_cons _ _ _ _ Hx). simpl. by rewrite IH.
Qed.

Lemma column_lookup rows cols e r :
  Forall (fun row : list R => length row = cols) rows -> e < cols ->
  column rows e !! r = rows !! r ≫= fun row => row !! e.
Proof.
  intros Hrows He. revert r. induction Hrows as [|row rows Hrow _ IH]; intros r.
  - done.
  - destruct (lookup_lt_is_Some_2 row e) as [x Hx]; [lia|].
    rewrite (column_cons _ _ _ _ Hx). destruct r as [|r]; simpl; [done|]. apply IH.
Qed.

Lemma foldl_zip_with_length (acc : list R) rows :
  Forall (fun row => length row = length acc) rows ->
  length (foldl (zip_with Rplus) acc rows) = length acc.
Proof.
  intros Hrows. revert acc Hrows. induction rows as [|row rows IH]; intros acc Hrows.
  - done.
  - apply Forall_cons in Hrows as [Hrow Hrows]. simpl.
    assert (length (zip_with Rplus acc row) = length acc) as Hlen
        by (rewrite length_zip_with; lia).
    rewrite IH; [done|]. by rewrite Hlen.
Qed.

Lemma foldl_zip_with_lookup (acc : list R) rows e a :
  Forall (fun row => length row = length acc) rows ->
  acc !! e = Some a ->
  foldl (zip_with Rplus) acc rows !! e = Some (a + sum_list (column rows e))%R.
Proof.
  intros Hrows. revert acc a Hrows. induction rows as [|row rows IH]; intros acc a Hrows Ha.
  - simpl. rewrite Ha. f_equal. unfold sum_list. simpl. lra.
  - apply Forall_cons in Hrows as [Hrow Hrows].
    pose proof (lookup_lt_Some _ _ _ Ha) as He.
    destruct (lookup_lt_is_Some_2 row e) as [x Hx]; [lia|].
    rewrite (column_cons _ _ _ _ Hx). simpl.
    assert (length (zip_with Rplus acc row) = length acc) as Hlen
        by (rewrite length_zip_with; lia).
    rewrite (IH _ (a + x)%R).
    + f_equal. unfold sum_list. simpl. lra.
    + by rewrite Hlen.
    + rewrite lookup_zip_with, Ha, Hx. done.
Qed.

Lemma sum_axis0_lookup cols rows e :
  Forall (fun row => length row = cols) rows -> e < cols ->
  sum_axis0 cols rows !! e = Some (sum_list (column rows e)).
Proof.
  intros Hrows He. unfold sum_axis0.
  rewrite (foldl_zip_with_lookup _ _ _ 0%R).
  - f_equal. lra.
  - by rewrite length_replicate.
  - by apply lookup_replicate_2.
Qed.

Lemma sum_axis0_length cols rows :
  Forall (fun row => length row = cols) rows -> length (sum_axis0 cols rows) = cols.
Proof.
  intros Hrows. unfold sum_axis0.
  rewrite foldl_zip_with_length; by rewrite length_replicate.
Qed.

Lemma div_all_length l d : length (div_all l d) = length l.
Proof. unfold div_all. by rewrite length_map. Qed.

Lemma div_all_lookup l d e : div_all l d !! e = (fun x => (x / d)%R) <$> l !! e.
Proof. unfold div_all. apply list_lookup_fmap. Qed.

(** The reduction of one row of the buffer: every entry is the mean over
    the repetitions of the reshaped slice. *)
Lemma reduce_row_Ok buf ii rpe n_reps n_expts v :
  reduce_row buf ii rpe n_reps n_expts = Ok v ->
  exists s rows,
    strided buf ii rpe = Ok s /\ reshape s n_reps n_expts = Ok rows /\
    length v = n_expts /\
    forall e, e < n_expts -> v !! e = Some (mean (column rows e)).
Proof.
  unfold reduce_row.
  destruct (strided buf ii rpe) as [s|] eqn:Hs; simpl; [|done].
  destruct (reshape s n_reps n_expts) as [rows|] eqn:Hrows; simpl; [|done].
  intros [= <-]. exists s, rows. split; [done|]. split; [done|].
  apply reshape_Ok in Hrows as (_ & Hlen & Hall & _).
  split; [by rewrite div_all_length, sum_axis0_length|].
  intros e He. rewrite div_all_lookup, sum_axis0_lookup by done. simpl.
  unfold mean. by rewrite (column_length _ n_expts), Hlen.
Qed.

Lemma reduce_row_total buf ii rpe n_reps n_expts :
  length buf = n_reps * n_expts * rpe -> (0 <= ii < Z.of_nat rpe)%Z ->
  exists v s rows,
    reduce_row buf ii rpe n_reps n_expts = Ok v /\
    strided buf ii rpe = Ok s /\ reshape s n_reps n_expts = Ok rows /\
    forall r e, r < n_reps -> e < n_expts ->
      column rows e !! r = buf !! (Z.to_nat ii + (r * n_expts + e) * rpe).
Proof.
  intros Hlen Hii.
  destruct (strided_full buf ii rpe (n_reps * n_expts) Hlen Hii) as (s & Hs & Hls & Hlk).
  destruct (reshape_total s n_reps n_expts Hls) as [rows Hrows].
  unfold reduce_row. rewrite Hs. simpl. rewrite Hrows. simpl.
  eexists _, s, rows. split_and!; try done.
  intros r e Hr He.
  destruct (reshape_Ok _ _ _ _ Hrows) as (_ & _ & Hall & Hrs).
  destruct (Hrs r e Hr He) as (row & Hrow & Hre).
  rewrite (column_lookup _ n_expts) by done. rewrite Hrow. simpl. rewrite Hre, Hlk.
  destruct (decide (r * n_expts + e < n_reps * n_expts)); [done | nia].
Qed.

End Arrays.

(** ** C2: the averages of one round *)

Section Folds.
#[local] Open Scope nat_scope.

Lemma foldM_zip_seq_inv {A St} (f : St -> nat * A -> outcome St) (P : nat -> St -> Prop)
    (l : list A) : forall k s s',
  P k s ->
  (forall i x s1 s2, l !! i = Some x -> P (k + i) s1 -> f s1 (k + i, x) = Ok s2 ->
                     P (S (k + i)) s2) ->
  foldM f (zip (seq k (length l)) l) s = Ok s' ->
  P (k + length l) s'.
Proof.
  induction l as [|x l IH]; intros k s s' Hs Hstep; simpl.
  - intros [= <-]. by rewrite Nat.add_0_r.
  - destruct (f s (k, x)) as [s1|] eqn:Hf; simpl; [|done].
    intros Hrun. replace (k + S (length l)) with (S k + length l) by lia.
    apply (IH (S k) s1 s'); [| |done].
    + specialize (Hstep 0 x s s1). rewrite Nat.add_0_r in Hstep. by apply Hstep.
    + intros i y s2 s3 Hy Hp Hf'.
      replace (S k + i) with (k + S i) in * by lia. by apply (Hstep (S i) y s2 s3).
Qed.

Lemma foldM_enumerate_inv {A St} (f : St -> nat * A -> outcome St) (P : nat -> St -> Prop)
    (l : list A) s s' :
  P 0 s ->
  (forall i x s1 s2, l !! i = Some x -> P i s1 -> f s1 (i, x) = Ok s2 -> P (S i) s2) ->
  foldM f (enumerate l) s = Ok s' ->
  P (length l) s'.
Proof.
  intros Hs Hstep Hrun. apply (foldM_zip_seq_inv f P l 0 s s'); done.
Qed.

Lemma foldM_zip_seq_total {A St} (f : St -> nat * A -> outcome St) (P : nat -> St -> Prop)
    (l : list A) : forall k s,
  P k s ->
  (forall i x s1, l !! i = Some x -> P (k + i) s1 -> exists s2, f s1 (k + i, x) = Ok s2) ->
  (forall i x s1 s2, l !! i = Some x -> P (k + i) s1 -> f s1 (k + i, x) = Ok s2 ->
                     P (S (k + i)) s2) ->
  exists s', foldM f (zip (seq k (length l)) l) s = Ok s'.
Proof.
  induction l as [|x l IH]; intros k s Hs Hex Hstep; simpl; [eauto|].
  destruct (Hex 0 x s) as [s1 Hf]; [done | by rewrite Nat.add_0_r |].
  rewrite Nat.add_0_r in Hf. rewrite Hf. simpl.
  apply (IH (S k) s1).
  - specialize (Hstep 0 x s s1). rewrite Nat.add_0_r in Hstep. by apply Hstep.
  - intros i y s2 Hy Hp. replace (S k + i) with (k + S i) in * by lia.
    by apply (Hex (S i) y s2).
  - intros i y s2 s3 Hy Hp Hf'.
    replace (S k + i) with (k + S i) in * by lia. by apply (Hstep (S i) y s2 s3).
Qed.

Lemma foldM_enumerate_total {A St} (f : St -> nat * A -> outcome St) (P : nat -> St -> Prop)
    (l : list A) s :
  P 0 s ->
  (forall i x s1, l !! i = Some x -> P i s1 -> exists s2, f s1 (i, x) = Ok s2) ->
  (forall i x s1 s2, l !! i = Some x -> P i s1 -> f s1 (i, x) = Ok s2 -> P (S i) s2) ->
  exists s', foldM f (enumerate l) s = Ok s'.
Proof. intros Hs Hex Hstep. by apply (foldM_zip_seq_total f P l 0 s). Qed.

(** *** Writing a row of an averaged array *)

Lemma zeros3_shape a b c : has_shape (zeros3 a b c) a b c.
Proof.
  unfold has_shape, zeros3. split; [by rewrite length_replicate|].
  apply Forall_replicate. split; [by rewrite length_replicate|].
  apply Forall_replicate. by rewrite length_replicate.
Qed.

Lemma set_row_shape a n1 n2 n3 i nn v :
  has_shape a n1 n2 n3 -> length v = n3 -> has_shape (set_row a i nn v) n1 n2 n3.
Proof.
  intros [Hlen Hall] Hv. unfold set_row. split; [by rewrite length_alter|].
  apply Forall_alter; [done|]. intros plane _ [Hp Hrows].
  split; [by rewrite length_insert|]. by apply Forall_insert.
Qed.

Lemma cell_set_row_eq a n1 n2 n3 i nn v :
  has_shape a n1 n2 n3 -> i < n1 -> nn < n2 -> cell (set_row a i nn v) i nn = Some v.
Proof.
  intros [Hlen Hall] Hi Hnn. unfold cell, set_row.
  rewrite list_lookup_alter_eq.
  destruct (lookup_lt_is_Some_2 a i) as [plane Hplane]; [lia|].
  rewrite Hplane. simpl.
  rewrite Forall_lookup in Hall. destruct (Hall _ _ Hplane) as [Hp _].
  apply list_lookup_insert_eq. lia.
Qed.

Lemma cell_set_row_ne a i nn v i' nn' :
  (i', nn') <> (i, nn) -> cell (set_row a i nn v) i' nn' = cell a i' nn'.
Proof.
  intros Hne. unfold cell, set_row.
  destruct (decide (i = i')) as [<-|Hi].
  - rewrite list_lookup_alter_eq. destruct (a !! i) as [plane|]; simpl; [|done].
    apply list_lookup_insert_ne. congruence.
  - by rewrite list_lookup_alter_ne.
Qed.

Lemma entry_cell a i j k row :
  cell a i j = Some row -> entry a i j k = row !! k.
Proof.
  unfold cell, entry. destruct (a !! i) as [plane|]; simpl; [|done].
  destruct (plane !! j); simpl; [|done]. by intros [= ->].
Qed.

End Folds.

Section RoundAverages.
#[local] Open Scope nat_scope.
Variables (n_reps n_expts rpe : nat) (ro_chs : list (pyval * Z)) (save : list Z).
Variables (d_i d_q : list (list R)).

#[local] Abbreviation written_at := (written n_reps n_expts rpe ro_chs save d_i d_q).
#[local] Abbreviation zero := (zeros3 (length ro_chs) (length save) n_expts).

Lemma written_start : written_at 0 0 (zero, zero).
Proof.
  split; [apply zeros3_shape|]. split; [apply zeros3_shape|].
  intros nn i_ch _ [H|[_ H]]; lia.
Qed.

Lemma written_next_row nn s : written_at nn (length ro_chs) s -> written_at (S nn) 0 s.
Proof.
  intros (Hs1 & Hs2 & Hcells). split; [done|]. split; [done|].
  intros nn' i_ch Hi [Hlt|[_ Hc]]; [|lia].
  apply Hcells; [done|]. destruct (decide (nn' = nn)); [right | left]; lia.
Qed.

Lemma store_average_written nn ii c ro s1 s2 :
  save !! nn = Some ii -> ro_chs !! c = Some ro ->
  written_at nn c s1 ->
  store_average None zero d_i d_q rpe n_reps n_expts nn ii s1 (c, ro) = Ok s2 ->
  written_at nn (S c) s2.
Proof.
  intros Hnn Hc (Hs1 & Hs2 & Hcells). unfold store_average. simpl.
  destruct (item d_i c) as [bi|] eqn:Hbi; simpl; [|done].
  destruct (reduce_row bi ii rpe n_reps n_expts) as [ri|] eqn:Hri; simpl; [|done].
  destruct (item d_q c) as [bq|] eqn:Hbq; simpl; [|done].
  destruct (reduce_row bq ii rpe n_reps n_expts) as [rq|] eqn:Hrq; simpl; [|done].
  intros [= <-]. cbn [fst snd].
  apply item_Ok in Hbi, Hbq.
  destruct (reduce_row_Ok _ _ _ _ _ _ Hri) as (_ & _ & _ & _ & Hli & _).
  destruct (reduce_row_Ok _ _ _ _ _ _ Hrq) as (_ & _ & _ & _ & Hlq & _).
  pose proof (lookup_lt_Some _ _ _ Hnn) as Hnn_lt.
  pose proof (lookup_lt_Some _ _ _ Hc) as Hc_lt.
  split; [apply set_row_shape; [done | by rewrite div_all_length]|].
  split; [apply set_row_shape; [done | by rewrite div_all_length]|].
  intros nn' i_ch Hi Hdone. cbn [fst snd].
  destruct (decide ((i_ch, nn') = (c, nn))) as [[= -> ->]|Hne].
  - destruct ro as [ch len]. cbn [fst snd].
    exists (div_all ri (IZR len)), (div_all rq (IZR len)).
    rewrite (cell_set_row_eq _ _ _ _ _ _ _ Hs1), (cell_set_row_eq _ _ _ _ _ _ _ Hs2)
      by done.
    split_and!; try done.
    + by exists ii, ch, len, bi, ri.
    + by exists ii, ch, len, bq, rq.
  - rewrite !cell_set_row_ne by done. apply Hcells; [done|].
    destruct Hdone as [Hlt|[-> Hlt]]; [by left|]. right. split; [done|].
    assert (i_ch <> c) by congruence. lia.
Qed.

Lemma store_average_total nn ii c ro s1 :
  buffer_shape d_i (length ro_chs) (n_reps * n_expts * rpe) ->
  buffer_shape d_q (length ro_chs) (n_reps * n_expts * rpe) ->
  (0 <= ii < Z.of_nat rpe)%Z ->
  ro_chs !! c = Some ro ->
  exists s2, store_average None zero d_i d_q rpe n_reps n_expts nn ii s1 (c, ro) = Ok s2.
Proof.
  intros [Hli Hai] [Hlq Haq] Hii Hc.
  pose proof (lookup_lt_Some _ _ _ Hc) as Hc_lt.
  destruct (lookup_lt_is_Some_2 d_i c) as [bi Hbi]; [lia|].
  destruct (lookup_lt_is_Some_2 d_q c) as [bq Hbq]; [lia|].
  rewrite Forall_lookup in Hai, Haq.
  destruct (reduce_row_total bi ii rpe n_reps n_expts (Hai _ _ Hbi) Hii)
    as (ri & _ & _ & Hri & _).
  destruct (reduce_row_total bq ii rpe n_reps n_expts (Haq _ _ Hbq) Hii)
    as (rq & _ & _ & Hrq & _).
  unfold store_average, item. simpl. rewrite Hbi. simpl. rewrite Hri. simpl.
  rewrite Hbq. simpl. rewrite Hrq. simpl. eauto.
Qed.

Lemma reduce_loops_written s :
  foldM (fun avgs nn_ii =>
           foldM (store_average None zero d_i d_q rpe n_reps n_expts nn_ii.1 nn_ii.2)
             (enumerate ro_chs) avgs)
        (enumerate save) (zero, zero) = Ok s ->
  written_at (length save) 0 s.
Proof.
  apply (foldM_enumerate_inv _ (fun n s => written_at n 0 s)).
  - apply written_start.
  - intros nn ii s1 s2 Hnn Hs1 Hinner. simpl in Hinner.
    apply written_next_row.
    revert Hinner. apply (foldM_enumerate_inv _ (fun c s => written_at nn c s)); [done|].
    intros c ro s3 s4 Hc Hs3 Hstep. by eapply store_average_written.
Qed.

Lemma reduce_loops_total :
  buffer_shape d_i (length ro_chs) (n_reps * n_expts * rpe) ->
  buffer_shape d_q (length ro_chs) (n_reps * n_expts * rpe) ->
  Forall (fun ii => (0 <= ii < Z.of_nat rpe)%Z) save ->
  exists s,
    foldM (fun avgs nn_ii =>
             foldM (store_average None zero d_i d_q rpe n_reps n_expts nn_ii.1 nn_ii.2)
               (enumerate ro_chs) avgs)
          (enumerate save) (zero, zero) = Ok s.
Proof.
  intros Hdi Hdq Hsave. rewrite Forall_lookup in Hsave.
  apply (foldM_enumerate_total _ (fun n s => written_at n 0 s)).
  - apply written_start.
  - intros nn ii s1 Hnn Hs1. simpl.
    apply (foldM_enumerate_total _ (fun c s => written_at nn c s)); [done | |].
    + intros c ro s3 Hc _. apply store_average_total; eauto.
    + intros c ro s3 s4 Hc Hs3 Hstep. by eapply store_average_written.
  - intros nn ii s1 s2 Hnn Hs1 Hinner. simpl in Hinner.
    apply written_next_row.
    revert Hinner. apply (foldM_enumerate_inv _ (fun c s => written_at nn c s)); [done|].
    intros c ro s3 s4 Hc Hs3 Hstep. by eapply store_average_written.
Qed.

End RoundAverages.

Section RoundTheorem.
#[local] Open Scope nat_scope.

Lemma column_raw_samples b ii rpe n_reps n_expts s rows e :
  length b = n_reps * n_expts * rpe -> (0 <= ii < Z.of_nat rpe)%Z ->
  strided b ii rpe = Ok s -> reshape s n_reps n_expts = Ok rows -> e < n_expts ->
  column rows e = raw_samples b ii rpe n_reps n_expts e.
Proof.
  intros Hlen Hii Hs Hrows He.
  destruct (reduce_row_total b ii rpe n_reps n_expts Hlen Hii)
    as (_ & s' & rows' & _ & Hs' & Hrows' & Hcol).
  assert (s' = s) as -> by congruence. assert (rows' = rows) as -> by congruence.
  destruct (reshape_Ok _ _ _ _ Hrows) as (_ & Hlr & Hall & _).
  apply (list_eq_same_length _ _ n_reps).
  - unfold raw_samples. by rewrite length_map, length_seq.
  - by rewrite (column_length _ n_expts).
  - intros r x y Hr Hx Hy. rewrite Hcol in Hx by done.
    unfold raw_samples in Hy. rewrite list_lookup_fmap, lookup_seq_lt in Hy by done.
    simpl in Hy. injection Hy as <-. symmetry. by apply nth_lookup_Some.
Qed.

Lemma acquire_round_None_eq n_reps n_expts ro_chs pts d_i d_q angle rpe save :
  acquire_round n_reps n_expts ro_chs pts d_i d_q None angle rpe save
  = (avgs <~ foldM (fun avgs nn_ii =>
                      foldM (store_average None
                               (zeros3 (length ro_chs) (length (save_list save)) n_expts)
                               d_i d_q rpe n_reps n_expts nn_ii.1 nn_ii.2)
                        (enumerate ro_chs) avgs)
                (enumerate (save_list save))
                (zeros3 (length ro_chs) (length (save_list save)) n_expts,
                 zeros3 (length ro_chs) (length (save_list save)) n_expts) ;;
     Ok {| expt_pts := pts; avg_di := avgs.1; avg_dq := avgs.2;
           di_buf := d_i; dq_buf := d_q; shots := None |}).
Proof. reflexivity. Qed.

(** The entries of the arrays returned by a round without threshold. *)
Lemma acquire_round_entries n_reps n_expts ro_chs pts d_i d_q angle rpe save round :
  acquire_round n_reps n_expts ro_chs pts d_i d_q None angle rpe save = Ok round ->
  has_shape (avg_di round) (length ro_chs) (length (save_list save)) n_expts /\
  has_shape (avg_dq round) (length ro_chs) (length (save_list save)) n_expts /\
  forall (i_ch nn e : nat) ch len ii,
    ro_chs !! i_ch = Some (ch, len) -> save_list save !! nn = Some ii -> e < n_expts ->
    exists bi bq si sq rows_i rows_q,
      d_i !! i_ch = Some bi /\ d_q !! i_ch = Some bq /\
      strided bi ii rpe = Ok si /\ reshape si n_reps n_expts = Ok rows_i /\
      strided bq ii rpe = Ok sq /\ reshape sq n_reps n_expts = Ok rows_q /\
      entry (avg_di round) i_ch nn e = Some (mean (column rows_i e) / IZR len)%R /\
      entry (avg_dq round) i_ch nn e = Some (mean (column rows_q e) / IZR len)%R.
Proof.
  rewrite acquire_round_None_eq.
  destruct (foldM _ _ _) as [avgs|] eqn:Hfold; simpl; [|done].
  intros [= <-]. simpl.
  apply reduce_loops_written in Hfold as (Hs1 & Hs2 & Hcells).
  split; [done|]. split; [done|].
  intros i_ch nn e ch len ii Hch Hnn He.
  destruct (Hcells nn i_ch) as (vi & vq & Hci & Hri & Hcq & Hrq).
  { by eapply lookup_lt_Some. }
  { left. by eapply lookup_lt_Some. }
  destruct Hri as (ii1 & ch1 & len1 & bi & ri & Hnn1 & Hch1 & Hbi & Hredi & ->).
  destruct Hrq as (ii2 & ch2 & len2 & bq & rq & Hnn2 & Hch2 & Hbq & Hredq & ->).
  assert (ii1 = ii) as -> by congruence. assert (ii2 = ii) as -> by congruence.
  assert (len1 = len) as -> by congruence. assert (len2 = len) as -> by congruence.
  destruct (reduce_row_Ok _ _ _ _ _ _ Hredi) as (si & rows_i & Hsi & Hrowsi & _ & Hvi).
  destruct (reduce_row_Ok _ _ _ _ _ _ Hredq) as (sq & rows_q & Hsq & Hrowsq & _ & Hvq).
  exists bi, bq, si, sq, rows_i, rows_q. split_and!; try done.
  - rewrite (entry_cell _ _ _ _ _ Hci), div_all_lookup, Hvi by done. done.
  - rewrite (entry_cell _ _ _ _ _ Hcq), div_all_lookup, Hvq by done. done.
Qed.

(** C2.  A call of [acquire_round] without threshold that returns gives
    two arrays of shape (readout channels, saved measurements, experiment
    points) whose entry at [(i_ch, nn, e)] is the mean of column [e] of
    the slice [buf[i_ch][ii::readouts_per_experiment]] reshaped to
    (reps, expts), divided by the integration length of the channel.
    When the buffer has a row of [reps * expts * readouts_per_experiment]
    samples per channel and every saved index is below
    [readouts_per_experiment], the call returns, and the column is made of
    the raw samples at [ii + (r * expts + e) * readouts_per_experiment],
    one per repetition [r]. *)
Theorem acquire_round_average n_reps n_expts ro_chs pts d_i d_q angle rpe save :
  (forall round,
     acquire_round n_reps n_expts ro_chs pts d_i d_q None angle rpe save = Ok round ->
     has_shape (avg_di round) (length ro_chs) (length (save_list save)) n_expts /\
     has_shape (avg_dq round) (length ro_chs) (length (save_list save)) n_expts /\
     forall (i_ch nn e : nat) ch len ii,
       ro_chs !! i_ch = Some (ch, len) -> save_list save !! nn = Some ii -> e < n_expts ->
       exists bi bq si sq rows_i rows_q,
         d_i !! i_ch = Some bi /\ d_q !! i_ch = Some bq /\
         strided bi ii rpe = Ok si /\ reshape si n_reps n_expts = Ok rows_i /\
         strided bq ii rpe = Ok sq /\ reshape sq n_reps n_expts = Ok rows_q /\
         entry (avg_di round) i_ch nn e = Some (mean (column rows_i e) / IZR len)%R /\
         entry (avg_dq round) i_ch nn e = Some (mean (column rows_q e) / IZR len)%R)
  /\
  (buffer_shape d_i (length ro_chs) (n_reps * n_expts * rpe) ->
   buffer_shape d_q (length ro_chs) (n_reps * n_expts * rpe) ->
   Forall (fun ii => (0 <= ii < Z.of_nat rpe)%Z) (save_list save) ->
   exists round,
     acquire_round n_reps n_expts ro_chs pts d_i d_q None angle rpe save = Ok round /\
     forall (i_ch nn e : nat) ch len ii bi bq,
       ro_chs !! i_ch = Some (ch, len) -> save_list save !! nn = Some ii -> e < n_expts ->
       d_i !! i_ch = Some bi -> d_q !! i_ch = Some bq ->
       entry (avg_di round) i_ch nn e
       = Some (mean (raw_samples bi ii rpe n_reps n_expts e) / IZR len)%R /\
       entry (avg_dq round) i_ch nn e
       = Some (mean (raw_samples bq ii rpe n_reps n_expts e) / IZR len)%R).
Proof.
  split; [intros round; apply acquire_round_entries|].
  intros Hdi Hdq Hsave.
  destruct (reduce_loops_total n_reps n_expts rpe ro_chs (save_list save) d_i d_q
              Hdi Hdq Hsave) as [avgs Hfold].
  assert (acquire_round n_reps n_expts ro_chs pts d_i d_q None angle rpe save
          = Ok {| expt_pts := pts; avg_di := avgs.1; avg_dq := avgs.2;
                  di_buf := d_i; dq_buf := d_q; shots := None |}) as Hrun.
  { rewrite acquire_round_None_eq, Hfold. reflexivity. }
  eexists. split; [exact Hrun|].
  intros i_ch nn e ch len ii bi bq Hch Hnn He Hbi Hbq.
  destruct (acquire_round_entries _ _ _ _ _ _ _ _ _ _ Hrun) as (_ & _ & Hentries).
  destruct (Hentries i_ch nn e ch len ii Hch Hnn He)
    as (bi' & bq' & si & sq & rows_i & rows_q & Hbi' & Hbq' & Hsi & Hri & Hsq & Hrq & Hei & Heq).
  assert (bi' = bi) as -> by congruence. assert (bq' = bq) as -> by congruence.
  destruct Hdi as [_ Hdi]. destruct Hdq as [_ Hdq]. rewrite Forall_lookup in Hdi. rewrite Forall_lookup in Hdq.
  rewrite Forall_lookup in Hsave.
  rewrite Hei, Heq.
  rewrite (column_raw_samples bi ii rpe n_reps n_expts si rows_i e); eauto.
  rewrite (column_raw_samples bq ii rpe n_reps n_expts sq rows_q e); eauto.
Qed.

End RoundTheorem.

(** ** C3: the average over the rounds *)

Section Rounds.
#[local] Open Scope nat_scope.

Lemma entry_add3 a b i j k x y :
  entry a i j k = Some x -> entry b i j k = Some y ->
  entry (add3 a b) i j k = Some (x + y)%R.
Proof.
  unfold entry, add3. intros Ha Hb. rewrite lookup_zip_with.
  destruct (a !! i) as [pa|]; simpl in *; [|done].
  destruct (b !! i) as [pb|]; simpl in *; [|done].
  rewrite lookup_zip_with.
  destruct (pa !! j) as [ra|]; simpl in *; [|done].
  destruct (pb !! j) as [rb|]; simpl in *; [|done].
  rewrite lookup_zip_with, Ha. simpl. by rewrite Hb.
Qed.

Lemma entry_div3 a d i j k :
  entry (div3 a d) i j k = (fun x => (x / d)%R) <$> entry a i j k.
Proof.
  unfold entry, div3. rewrite list_lookup_fmap.
  destruct (a !! i) as [pa|]; simpl; [|done].
  rewrite list_lookup_fmap. destruct (pa !! j) as [ra|]; simpl; [|done].
  apply div_all_lookup.
Qed.

Lemma entry_foldl_add3 (l : list (list (list (list R)))) : forall a i j k x xs,
  entry a i j k = Some x ->
  Forall2 (fun b y => entry b i j k = Some y) l xs ->
  entry (foldl add3 a l) i j k = Some (x + sum_list xs)%R.
Proof.
  induction l as [|b l IH]; intros a i j k x xs Ha Hl.
  - apply Forall2_nil_inv_l in Hl as ->. simpl. rewrite Ha. f_equal.
    unfold sum_list. simpl. lra.
  - apply Forall2_cons_inv_l in Hl as (y & ys & Hy & Hys & ->). simpl.
    rewrite (IH _ i j k (x + y)%R ys); [| by apply entry_add3 | done].
    f_equal. unfold sum_list. simpl. lra.
Qed.

(** The state of the loop after the rounds of [l]. *)
Lemma acquire_loop round n_ro n_reps (l : list nat) : forall st st',
  foldM (acquire_step round n_ro n_reps) l st = Ok st' ->
  exists rs, mapM_outcome round l = Ok rs /\
             st'.1 = foldl (fun acc r => Some (accumulate acc r)) st.1 rs.
Proof.
  induction l as [|k l IH]; intros st st'; simpl.
  - intros [= <-]. by exists [].
  - unfold acquire_step at 1.
    destruct (round k) as [r|] eqn:Hr; simpl; [|done].
    destruct (reshape_reps (di_buf r) n_ro n_reps) as [bi|]; simpl; [|done].
    destruct (reshape_reps (dq_buf r) n_ro n_reps) as [bq|]; simpl; [|done].
    intros Hrun. destruct (IH _ _ Hrun) as (rs & Hrs & Hst).
    exists (r :: rs). rewrite Hrs. done.
Qed.

Lemma accumulate_sums rs : forall p si sq,
  exists p',
    foldl (fun acc r => Some (accumulate acc r)) (Some (p, si, sq)) rs
    = Some (p', foldl add3 si (avg_di <$> rs), foldl add3 sq (avg_dq <$> rs)).
Proof.
  induction rs as [|r rs IH]; intros p si sq; simpl; [eauto|]. apply IH.
Qed.

Lemma reshape_reps_total buf n_ro n_reps m :
  0 < n_ro -> 0 < n_reps -> buffer_shape buf n_ro (n_reps * m) ->
  exists b, reshape_reps buf n_ro n_reps = Ok b.
Proof.
  intros Hro Hreps [Hlen Hall]. unfold reshape_reps.
  destruct (decide (n_ro * n_reps = 0)); [nia|].
  destruct (decide (length buf = n_ro)); [|done].
  apply mapM_outcome_total. intros row Hrow.
  rewrite Forall_forall in Hall. specialize (Hall _ Hrow). rewrite Hall.
  rewrite (Nat.mul_comm n_reps m), Nat.Div0.mod_mul, Nat.div_mul by lia.
  destruct (decide (0 = 0)); [|done].
  apply reshape_total. lia.
Qed.

Lemma acquire_round_bufs n_reps n_expts ro_chs pts d_i d_q thr angle rpe save r :
  acquire_round n_reps n_expts ro_chs pts d_i d_q thr angle rpe save = Ok r ->
  di_buf r = d_i /\ dq_buf r = d_q.
Proof.
  unfold acquire_round.
  destruct (match thr with Some _ => _ | None => _ end); simpl; [|done].
  destruct (foldM _ _ _); simpl; [|done]. by intros [= <-].
Qed.

Lemma acquire_loop_total round n_ro n_reps m (l : list nat) : forall st,
  0 < n_ro -> 0 < n_reps ->
  (forall k, k ∈ l -> exists r, round k = Ok r /\
                                buffer_shape (di_buf r) n_ro (n_reps * m) /\
                                buffer_shape (dq_buf r) n_ro (n_reps * m)) ->
  exists st', foldM (acquire_step round n_ro n_reps) l st = Ok st'.
Proof.
  induction l as [|k l IH]; intros st Hro Hreps Hall; simpl; [eauto|].
  destruct (Hall k) as (r & Hr & Hbi & Hbq); [apply list_elem_of_here|].
  unfold acquire_step at 1. rewrite Hr. simpl.
  destruct (reshape_reps_total _ _ _ _ Hro Hreps Hbi) as [bi ->]. simpl.
  destruct (reshape_reps_total _ _ _ _ Hro Hreps Hbq) as [bq ->]. simpl.
  apply IH; [done | done |]. intros k' Hk'. apply Hall. by apply list_elem_of_further.
Qed.

End Rounds.

Section RoundsTheorem.
#[local] Open Scope nat_scope.

Lemma mapM_outcome_length {A B} (f : A -> outcome B) l r :
  mapM_outcome f l = Ok r -> length r = length l.
Proof. intros H. by apply mapM_outcome_lookup in H as [? _]. Qed.

(** What a call with more than one round returns. *)
Lemma acquire_rounds_sum n_reps n_expts (n_rounds : Z) ro_chs pts soc threshold angle
    rpe save res :
  (1 < n_rounds)%Z ->
  acquire n_reps n_expts (Some n_rounds) ro_chs pts soc threshold angle rpe save = Ok res ->
  exists r0 rs,
    mapM_outcome (round_of n_reps n_expts ro_chs pts soc threshold angle rpe save)
      (seq 0 (Z.to_nat n_rounds)) = Ok (r0 :: rs) /\
    acq_avg_di res = div3 (foldl add3 (avg_di r0) (avg_di <$> rs)) (IZR n_rounds) /\
    acq_avg_dq res = div3 (foldl add3 (avg_dq r0) (avg_dq <$> rs)) (IZR n_rounds).
Proof.
  intros HR. unfold acquire.
  destruct (Z.of_nat n_reps * n_rounds <? 0)%Z eqn:E; [apply Z.ltb_lt in E; nia|].
  destruct (n_rounds =? 1)%Z eqn:E1; [apply Z.eqb_eq in E1; lia|].
  destruct (foldM _ _ _) as [st|] eqn:Hfold; simpl; [|done].
  apply acquire_loop in Hfold as (rs & Hrs & Hst). simpl in Hst.
  pose proof (mapM_outcome_length _ _ _ Hrs) as Hlen. rewrite length_seq in Hlen.
  destruct rs as [|r0 rs]; [simpl in Hlen; lia|].
  simpl in Hst.
  destruct (accumulate_sums rs (expt_pts r0) (avg_di r0) (avg_dq r0)) as [p' Hacc].
  rewrite Hacc in Hst. rewrite Hst.
  intros [= <-]. simpl. exists r0, rs. done.
Qed.

(** C3.  With [rounds = R > 1], a call of [acquire] that returns has run
    the [R] rounds, and its averaged I and Q arrays are the elementwise
    sum of the arrays of the rounds divided by [R]: entry by entry, the
    sum of the rounds' entries over [R]; for three rounds with averages
    [a], [b], [c] this is [(a + b + c) / 3].  The call returns when there
    is a readout channel and a repetition, every round returns and every
    run fills a buffer of the declared shape. *)
Theorem acquire_rounds_average n_reps n_expts (n_rounds : Z) ro_chs pts soc threshold
    angle rpe save :
  (1 < n_rounds)%Z ->
  (forall res,
     acquire n_reps n_expts (Some n_rounds) ro_chs pts soc threshold angle rpe save
     = Ok res ->
     exists rs sum_i sum_q,
       mapM_outcome (round_of n_reps n_expts ro_chs pts soc threshold angle rpe save)
         (seq 0 (Z.to_nat n_rounds)) = Ok rs /\
       length rs = Z.to_nat n_rounds /\
       sum_arrays (avg_di <$> rs) = Some sum_i /\
       sum_arrays (avg_dq <$> rs) = Some sum_q /\
       acq_avg_di res = div3 sum_i (IZR n_rounds) /\
       acq_avg_dq res = div3 sum_q (IZR n_rounds) /\
       (forall i j e xs,
          Forall2 (fun r x => entry (avg_di r) i j e = Some x) rs xs ->
          entry (acq_avg_di res) i j e = Some (sum_list xs / IZR n_rounds)%R) /\
       (forall i j e xs,
          Forall2 (fun r x => entry (avg_dq r) i j e = Some x) rs xs ->
          entry (acq_avg_dq res) i j e = Some (sum_list xs / IZR n_rounds)%R) /\
       (n_rounds = 3%Z ->
        exists a b c,
          rs = [a; b; c] /\
          acq_avg_di res = div3 (add3 (add3 (avg_di a) (avg_di b)) (avg_di c)) 3%R /\
          acq_avg_dq res = div3 (add3 (add3 (avg_dq a) (avg_dq b)) (avg_dq c)) 3%R))
  /\
  (0 < length ro_chs -> 0 < n_reps ->
   (forall k, k < Z.to_nat n_rounds ->
      buffer_shape (soc k).1 (length ro_chs) (n_reps * (n_expts * rpe)) /\
      buffer_shape (soc k).2 (length ro_chs) (n_reps * (n_expts * rpe)) /\
      exists r, round_of n_reps n_expts ro_chs pts soc threshold angle rpe save k = Ok r) ->
   exists res,
     acquire n_reps n_expts (Some n_rounds) ro_chs pts soc threshold angle rpe save
     = Ok res).
Proof.
  intros HR. split.
  - intros res Hrun.
    destruct (acquire_rounds_sum _ _ _ _ _ _ _ _ _ _ _ HR Hrun) as (r0 & rs & Hrs & Hi & Hq).
    pose proof (mapM_outcome_length _ _ _ Hrs) as Hlen. rewrite length_seq in Hlen.
    exists (r0 :: rs), (foldl add3 (avg_di r0) (avg_di <$> rs)),
           (foldl add3 (avg_dq r0) (avg_dq <$> rs)).
    split_and!; try done.
    + intros i j e xs Hxs.
      apply Forall2_cons_inv_l in Hxs as (x & xs' & Hx & Hxs' & ->).
      rewrite Hi, entry_div3.
      rewrite (entry_foldl_add3 _ _ i j e x xs'); [done | done |].
      by apply Forall2_fmap_l.
    + intros i j e xs Hxs.
      apply Forall2_cons_inv_l in Hxs as (x & xs' & Hx & Hxs' & ->).
      rewrite Hq, entry_div3.
      rewrite (entry_foldl_add3 _ _ i j e x xs'); [done | done |].
      by apply Forall2_fmap_l.
    + intros ->. simpl in Hlen.
      destruct rs as [|b [|c [|? ?]]]; simpl in Hlen; try lia.
      exists r0, b, c. rewrite Hi, Hq. done.
  - intros Hro Hreps Hall. unfold acquire.
    destruct (Z.of_nat n_reps * n_rounds <? 0)%Z eqn:E; [apply Z.ltb_lt in E; nia|].
    destruct (n_rounds =? 1)%Z eqn:E1; [apply Z.eqb_eq in E1; lia|].
    edestruct (acquire_loop_total
                 (round_of n_reps n_expts ro_chs pts soc threshold angle rpe save)
                 (length ro_chs) n_reps (n_expts * rpe) (seq 0 (Z.to_nat n_rounds)))
      as [st Hfold]; [done | done | |].
    { intros k Hk. apply elem_of_seq in Hk.
      destruct (Hall k) as (Hbi & Hbq & r & Hr); [lia|].
      exists r. split; [done|].
      destruct (acquire_round_bufs _ _ _ _ _ _ _ _ _ _ _ Hr) as [-> ->]. done. }
    unfold round_of, angle_list, save_list in Hfold. rewrite Hfold. simpl.
    apply acquire_loop in Hfold as (rs & Hrs & Hst). simpl in Hst.
    pose proof (mapM_outcome_length _ _ _ Hrs) as Hlen. rewrite length_seq in Hlen.
    destruct rs as [|r0 rs]; [simpl in Hlen; lia|].
    simpl in Hst.
    destruct (accumulate_sums rs (expt_pts r0) (avg_di r0) (avg_dq r0)) as [p' Hacc].
    rewrite Hacc in Hst. rewrite Hst. eauto.
Qed.

End RoundsTheorem.

(** ** Examples of the reduction *)

Section ReductionExamples.
#[local] Open Scope nat_scope.

Lemma acquire_round_returns n_reps n_expts ro_chs pts d_i d_q angle rpe save :
  buffer_shape d_i (length ro_chs) (n_reps * n_expts * rpe) ->
  buffer_shape d_q (length ro_chs) (n_reps * n_expts * rpe) ->
  Forall (fun ii => (0 <= ii < Z.of_nat rpe)%Z) (save_list save) ->
  exists round,
    acquire_round n_reps n_expts ro_chs pts d_i d_q None angle rpe save = Ok round.
Proof.
  intros Hdi Hdq Hsave.
  destruct (reduce_loops_total n_reps n_expts rpe ro_chs (save_list save) d_i d_q
              Hdi Hdq Hsave) as [avgs Hfold].
  rewrite acquire_round_None_eq, Hfold. simpl. eauto.
Qed.

Lemma demo_buf_shape (b : list R) :
  length b = 4 -> buffer_shape [b] (length demo_ro2) (2 * 2 * 1).
Proof. intros Hb. split; [done|]. by repeat constructor. Qed.

Lemma demo_save : Forall (fun ii => (0 <= ii < Z.of_nat 1)%Z) (save_list None).
Proof. repeat constructor; simpl; lia. Qed.

Lemma acquire_round_average_witness :
  exists round,
    acquire_round 2 2 demo_ro2 [] demo_buf_i demo_buf_q None None 1 None = Ok round /\
    entry (avg_di round) 0 0 0 = Some (mean [1; 3] / 2)%R /\
    entry (avg_dq round) 0 0 1 = Some (mean [6; 8] / 2)%R.
Proof.
  destruct (proj2 (acquire_round_average 2 2 demo_ro2 [] demo_buf_i demo_buf_q None 1 None)
              (demo_buf_shape [1; 2; 3; 4]%R eq_refl) (demo_buf_shape [5; 6; 7; 8]%R eq_refl)
              demo_save)
    as (round & Hrun & Hentries).
  exists round. split; [exact Hrun|]. split.
  - exact (proj1 (Hentries 0 0 0 (VInt 0) 2%Z 0%Z _ _ eq_refl eq_refl
                    (le_S _ _ (le_n 1)) eq_refl eq_refl)).
  - exact (proj2 (Hentries 0 0 1 (VInt 0) 2%Z 0%Z _ _ eq_refl eq_refl
                    (le_n 2) eq_refl eq_refl)).
Defined.

Example demo_mean : (mean [1; 3] / 2 = 1)%R.
Proof. unfold mean, sum_list. simpl. lra. Qed.

(** Constant samples [V] over the repetitions average to [V]. *)
Lemma mean_replicate (n : nat) (V : R) : 0 < n -> mean (replicate n V) = V.
Proof.
  intros Hn. unfold mean. rewrite length_replicate.
  assert (sum_list (replicate n V) = INR n * V)%R as ->.
  { clear Hn. induction n as [|n IH]; [unfold sum_list; simpl; lra|].
    change (sum_list (replicate (S n) V)) with (V + sum_list (replicate n V))%R.
    rewrite IH, S_INR. lra. }
  field. apply not_0_INR. lia.
Qed.

Lemma demo_round_returns k :
  exists r, round_of 2 2 demo_ro2 [] demo_soc None None 1 None k = Ok r.
Proof.
  unfold round_of. apply acquire_round_returns.
  - exact (demo_buf_shape [1; 2; 3; 4]%R eq_refl).
  - exact (demo_buf_shape [5; 6; 7; 8]%R eq_refl).
  - apply demo_save.
Qed.

Lemma acquire_rounds_average_witness :
  exists res a b c,
    acquire 2 2 (Some 3%Z) demo_ro2 [] demo_soc None None 1 None = Ok res /\
    mapM_outcome (round_of 2 2 demo_ro2 [] demo_soc None None 1 None) (seq 0 3)
    = Ok [a; b; c] /\
    acq_avg_di res = div3 (add3 (add3 (avg_di a) (avg_di b)) (avg_di c)) 3%R /\
    acq_avg_dq res = div3 (add3 (add3 (avg_dq a) (avg_dq b)) (avg_dq c)) 3%R.
Proof.
  destruct (acquire_rounds_average 2 2 3%Z demo_ro2 [] demo_soc None None 1 None eq_refl)
    as [Hsum Hreturns].
  destruct Hreturns as [res Hres].
  - simpl. lia.
  - lia.
  - intros k _. split; [exact (demo_buf_shape [1; 2; 3; 4]%R eq_refl)|].
    split; [exact (demo_buf_shape [5; 6; 7; 8]%R eq_refl)|].
    apply demo_round_returns.
  - destruct (Hsum res Hres) as (rs & si & sq & Hrs & _ & _ & _ & _ & _ & _ & _ & H3).
    destruct (H3 eq_refl) as (a & b & c & -> & Hi & Hq).
    exists res, a, b, c. split; [exact Hres|]. split; [exact Hrs|].
    split; [exact Hi | exact Hq].
Defined.

End ReductionExamples.

(** ** The emitted nest, run

    Two sweeps, ["a"] on register 1 with two points and ["b"] on register
    2 with three, registered in this order, one repetition.  The body sees
    the register of ["a"] change at every step and that of ["b"] every
    second step. *)
Example two_sweeps_run :
  tproc_run 200
    (emitted (api := demo_api) 1 [demo_sweep "a" 1 2; demo_sweep "b" 2 3]
       [user_instr "pulse"])
    [(0, 1); (0, 2)] 0 ∅ []
  = Some [[5; 5]; [6; 5]; [5; 6]; [6; 6]; [5; 7]; [6; 7]].
Proof. vm_compute. reflexivity. Qed.

(** * Further properties *)

(** ** Register allocation, continued *)

Section AllocationMore.
Context {api : QickProgramAPI}.

(** Every way [new_reg] can end, for a channel that is configured. *)
Lemma new_reg_run p gen_ch name init_val rtype kws ch :
  (list_to_map (gen_chs p) : gmap string _) !! gen_ch = Some kws ->
  kws !! "ch" = Some ch ->
  let page := ch_page ch in
  let addr := while_taken (length (_user_regs p)) (_user_regs p) page 1 in
  let p1 := set_user_regs (fun l => l ++ [(page, addr)]) p in
  let nm := register_name name addr in
  let reg := new_register kws ch addr nm init_val rtype in
  new_reg gen_ch name init_val rtype p
  = if 12 <? addr then (p, Raise ValueError)
    else match user_reg_dict p !! gen_ch with
         | None => (p1, Raise KeyError)
         | Some d =>
             if decide (is_Some (d !! nm)) then (p1, Raise KeyError)
             else (set_user_reg_dict (insert gen_ch (<[nm := reg]> d))
                     (append_code (reset_code reg) p1), Ok reg)
         end.
Proof.
  intros Hk Hch page addr p1 nm reg.
  unfold new_reg. rewrite (bind_Ok _ _ _ _ _ (gen_cfg_eq _ _ _ Hk)).
  unfold getitem. rewrite Hch. unfold_monad. fold page. fold addr.
  destruct (12 <? addr); [done|]. simpl. fold p1.
  fold (register_name name addr). fold nm.
  destruct (user_reg_dict p !! gen_ch) as [d|] eqn:Hd; [|done].
  destruct (decide (is_Some (d !! nm))); [done|].
  unfold QickRegister_init, QickRegister_reset, reset_code. unfold_monad.
  destruct init_val as [v|]; simpl; rewrite Hd.
  - reflexivity.
  - unfold append_code, reg, new_register. destruct p. simpl.
    unfold set_user_reg_dict, set_prog_list. simpl. by rewrite app_nil_r.
Qed.

Lemma new_reg_no_page p gen_ch name init_val rtype :
  page_of p gen_ch = None ->
  new_reg gen_ch name init_val rtype p = (p, Raise KeyError).
Proof.
  unfold page_of, new_reg, gen_cfg. unfold_monad.
  destruct (getitem (list_to_map (gen_chs p)) gen_ch) as [kws|e] eqn:Hk.
  - destruct (getitem kws "ch") as [ch|e] eqn:Hch; [done|].
    unfold getitem in Hch. destruct (kws !! "ch"); [done|]. by injection Hch as <-.
  - unfold getitem in Hk. destruct (_ !! gen_ch); [done|]. by injection Hk as <-.
Qed.

Lemma page_of_Some p gen_ch page :
  page_of p gen_ch = Some page ->
  exists kws ch, (list_to_map (gen_chs p) : gmap string _) !! gen_ch = Some kws /\
                 kws !! "ch" = Some ch /\ page = ch_page ch.
Proof.
  unfold page_of, getitem.
  destruct (_ !! gen_ch) as [kws|] eqn:Hk; [|done].
  destruct (kws !! "ch") as [ch|] eqn:Hch; [|done]. intros [= <-].
  by exists kws, ch.
Qed.

(** What a call does to the allocated list: nothing, or one new pair. *)
Lemma new_reg_user_regs p gen_ch name init_val rtype :
  let p' := (new_reg gen_ch name init_val rtype p).1 in
  _user_regs p' = _user_regs p \/
  exists page addr,
    page_of p gen_ch = Some page /\ 1 <= addr <= 12 /\
    ((page, addr) ∉ _user_regs p) /\
    _user_regs p' = _user_regs p ++ [(page, addr)].
Proof.
  destruct (page_of p gen_ch) as [page|] eqn:Hpage.
  2:{ left. by rewrite new_reg_no_page. }
  destruct (page_of_Some _ _ _ Hpage) as (kws & ch & Hk & Hch & ->).
  simpl. rewrite (new_reg_run _ _ _ _ _ _ _ Hk Hch).
  pose proof (while_taken_free (_user_regs p) (ch_page ch) 1) as (Hle & Hfree & _).
  set (addr := while_taken _ _ _ _) in *.
  destruct (12 <? addr) eqn:E; [by left|]. apply Z.ltb_ge in E.
  right. exists (ch_page ch), addr. split; [done|]. split; [lia|]. split; [done|].
  destruct (user_reg_dict p !! gen_ch) as [d|]; [|done].
  destruct (decide _); done.
Qed.

Lemma regs_ok_page_bound regs page :
  regs_ok regs -> (length (filter (fun x => x.1 = page) regs) <= 12)%nat.
Proof.
  intros [Hnd Hall].
  assert (filter (fun x : Z * Z => x.1 = page) regs
          ⊆+ map (fun a : nat => (page, Z.of_nat a)) (seq 1 12)) as Hsub.
  { apply NoDup_submseteq; [by apply NoDup_filter|].
    intros [pg a] Hin. apply list_elem_of_filter in Hin as [Hpg Hin]. simpl in Hpg.
    subst pg. rewrite Forall_forall in Hall. specialize (Hall _ Hin). simpl in Hall.
    apply list_elem_of_fmap. exists (Z.to_nat a). split; [f_equal; lia|].
    apply elem_of_seq. lia. }
  apply submseteq_length in Hsub. by rewrite length_map, length_seq in Hsub.
Qed.

(** X1.  [new_reg] keeps the allocated list free of duplicates and within
    the addresses 1 to 12, however it ends (return, page full, name
    taken, unknown channel); so no page ever holds more than twelve
    allocated addresses. *)
Theorem new_reg_keeps_regs_ok p gen_ch name init_val rtype :
  regs_ok (_user_regs p) ->
  regs_ok (_user_regs (new_reg gen_ch name init_val rtype p).1) /\
  forall page,
    (length (filter (fun x => x.1 = page)
               (_user_regs (new_reg gen_ch name init_val rtype p).1)) <= 12)%nat.
Proof.
  intros Hok.
  assert (regs_ok (_user_regs (new_reg gen_ch name init_val rtype p).1)) as Hok'.
  { destruct (new_reg_user_regs p gen_ch name init_val rtype)
      as [->|(page & addr & _ & Hrange & Hfree & ->)]; [done|].
    destruct Hok as [Hnd Hall]. split.
    - apply NoDup_app. split; [done|]. split; [|apply NoDup_singleton].
      intros x Hx Hx'. apply list_elem_of_singleton in Hx'. by subst x.
    - apply Forall_app. split; [done|]. apply Forall_cons. split; [done|].
      apply Forall_nil_2. }
  split; [done|]. intros page. by apply regs_ok_page_bound.
Qed.

End AllocationMore.

(** ** Names made from numbers *)

Lemma to_int_not_nil n :
  Z.to_int n <> Decimal.Pos Decimal.Nil /\ Z.to_int n <> Decimal.Neg Decimal.Nil.
Proof.
  split; intros H; pose proof (f_equal Z.of_int H) as H';
    rewrite DecimalZ.of_to in H'; simpl in H'; subst n; vm_compute in H; discriminate.
Qed.

Lemma str_of_Z_inj a b : str_of_Z a = str_of_Z b -> a = b.
Proof.
  unfold str_of_Z. intros H.
  destruct (to_int_not_nil a) as [Ha1 Ha2]. destruct (to_int_not_nil b) as [Hb1 Hb2].
  apply (f_equal NilZero.int_of_string) in H.
  rewrite !NilZero.isi in H by done. injection H as H. by apply DecimalZ.to_int_inj.
Qed.

Lemma prefixed_inj (pre a b : string) : (pre +:+ a = pre +:+ b)%string -> a = b.
Proof.
  induction pre as [|c pre IH]; simpl; [done|]. intros [= H]. by apply IH.
Qed.

Section AllocationSequence.
Context {api : QickProgramAPI}.

(** X2.  A register returned by [new_reg] is stored in the table of its
    channel under its name (the caller's, or [reg_<addr>]), which was free;
    the other names of the channel and the other channels are untouched.
    The register carries the initial value and type given, and the program
    grows by the write of the initial value when there is one and by
    nothing otherwise. *)
Theorem new_reg_stores_register p gen_ch name init_val rtype p' reg :
  new_reg gen_ch name init_val rtype p = (p', Ok reg) ->
  exists d,
    let nm := register_name name (reg_addr reg) in
    user_reg_dict p !! gen_ch = Some d /\
    d !! nm = None /\
    reg_name reg = Some nm /\
    user_reg_dict p' !! gen_ch = Some (<[nm := reg]> d) /\
    (user_reg_dict p' !! gen_ch ≫= fun t => t !! nm) = Some reg /\
    (forall other, other <> nm ->
       (user_reg_dict p' !! gen_ch ≫= fun t => t !! other) = d !! other) /\
    (forall g, g <> gen_ch -> user_reg_dict p' !! g = user_reg_dict p !! g) /\
    reg_init_val reg = init_val /\ reg_type reg = rtype /\
    prog_list p' = prog_list p ++ reset_code reg /\
    gen_chs p' = gen_chs p /\ qick_sweeps p' = qick_sweeps p /\ expts p' = expts p.
Proof.
  intros Hrun.
  destruct (page_of p gen_ch) as [page|] eqn:Hpage.
  2:{ rewrite new_reg_no_page in Hrun by done. done. }
  destruct (page_of_Some _ _ _ Hpage) as (kws & ch & Hk & Hch & ->).
  rewrite (new_reg_run _ _ _ _ _ _ _ Hk Hch) in Hrun.
  set (addr := while_taken _ _ _ _) in *.
  destruct (12 <? addr); [done|].
  destruct (user_reg_dict p !! gen_ch) as [d|] eqn:Hd; [|done].
  destruct (decide _) as [|Hfree]; [done|].
  injection Hrun as <- <-. exists d. simpl.
  split; [done|]. split; [by apply eq_None_not_Some|]. split; [done|].
  rewrite !lookup_insert_eq. simpl. rewrite lookup_insert_eq.
  split_and!; try done.
  - intros other Hne. by rewrite lookup_insert_ne.
  - intros g Hne. by rewrite lookup_insert_ne.
Qed.

(** A pair once allocated stays allocated through later calls. *)
Lemma after_calls_user_regs calls p x :
  x ∈ _user_regs p -> x ∈ _user_regs (after_calls calls p).
Proof.
  unfold after_calls. revert p.
  induction calls as [|c calls IH]; intros p Hx; simpl; [done|].
  apply IH.
  destruct (new_reg_user_regs p (arg_gen_ch c) (arg_name c) (arg_init_val c)
              (arg_reg_type c)) as [->|(page & addr & _ & _ & _ & ->)]; [done|].
  apply elem_of_app. by left.
Qed.

(** X3.  A call rejected because the name is taken has already marked
    the lowest free address of the page as allocated: every address of
    the page below it was allocated, the list grows by that pair although
    no register is created, and nothing else of the object changes (the
    table and the program are as before).  No later call returns that
    address on that page, after whatever sequence of further [new_reg]
    calls, on any channel, returning or raising. *)
Theorem new_reg_rejected_name_consumes_address p gen_ch n init_val rtype page :
  page_of p gen_ch = Some page ->
  ~ page_full p page ->
  name_taken p gen_ch n ->
  exists addr p',
    new_reg gen_ch (Some n) init_val rtype p = (p', Raise KeyError) /\
    1 <= addr <= 12 /\ ((page, addr) ∉ _user_regs p) /\
    (forall a, 1 <= a < addr -> (page, a) ∈ _user_regs p) /\
    p' = set_user_regs (fun l => l ++ [(page, addr)]) p /\
    _user_regs p' = _user_regs p ++ [(page, addr)] /\
    user_reg_dict p' = user_reg_dict p /\ prog_list p' = prog_list p /\
    forall calls gen_ch2 name2 init_val2 rtype2 p'' reg,
      new_reg gen_ch2 name2 init_val2 rtype2 (after_calls calls p') = (p'', Ok reg) ->
      (reg_page reg, reg_addr reg) <> (page, addr).
Proof.
  intros Hpage Hnotfull (d & Hd & Hname).
  destruct (page_of_Some _ _ _ Hpage) as (kws & ch & Hk & Hch & ->).
  pose proof (new_reg_run p gen_ch (Some n) init_val rtype kws ch Hk Hch) as Hrun.
  cbv zeta in Hrun.
  pose proof (while_taken_free (_user_regs p) (ch_page ch) 1) as (Hle & Hfree & Hbelow).
  set (addr := while_taken _ _ _ _) in *.
  assert (addr <= 12) as Hmax.
  { destruct (decide (addr <= 12)) as [|Hgt]; [done|]. exfalso. apply Hnotfull.
    intros a Ha. apply Hbelow. lia. }
  replace (12 <? addr) with false in Hrun by (symmetry; apply Z.ltb_ge; lia).
  rewrite Hd in Hrun. simpl in Hrun.
  destruct (decide (is_Some (d !! n))) as [_|Hno]; [|done].
  exists addr, (set_user_regs (fun l => l ++ [(ch_page ch, addr)]) p).
  split; [exact Hrun|]. split; [lia|]. split; [done|]. split; [done|].
  do 4 (split; [done|]).
  intros calls gen_ch2 name2 init_val2 rtype2 p'' reg Hrun2.
  apply new_reg_success in Hrun2 as (_ & Hfree2 & _).
  intros Heq. apply Hfree2. rewrite Heq. apply after_calls_user_regs. simpl.
  apply elem_of_app. right. apply list_elem_of_here.
Qed.

End AllocationSequence.

Section AllocationOrder.
Context {api : QickProgramAPI}.

Lemma page_of_frame p q gen_ch :
  gen_chs q = gen_chs p -> page_of q gen_ch = page_of p gen_ch.
Proof. intros H. unfold page_of. by rewrite H. Qed.

Lemma new_reg_next gen_ch page k q init_val rtype :
  allocated_up_to gen_ch page k q -> 0 <= k < 12 ->
  exists q' reg,
    new_reg gen_ch None init_val rtype q = (q', Ok reg) /\
    reg_addr reg = k + 1 /\ reg_page reg = page /\
    reg_name reg = Some ("reg_" +:+ str_of_Z (k + 1))%string /\
    allocated_up_to gen_ch page (k + 1) q'.
Proof.
  intros (Hpage & Hregs & d & Hd & Hnames) Hk.
  destruct (page_of_Some _ _ _ Hpage) as (kws & ch & Hkws & Hch & ->).
  pose proof (new_reg_run q gen_ch None init_val rtype kws ch Hkws Hch) as Hrun.
  cbv zeta in Hrun.
  pose proof (while_taken_free (_user_regs q) (ch_page ch) 1) as (Hle & Hfree & Hbelow).
  set (addr := while_taken _ _ _ _) in *.
  assert (addr = k + 1) as Haddr.
  { rewrite Hregs in Hfree.
    destruct (decide (addr <= k + 1)) as [|Hgt]; [lia|].
    specialize (Hbelow (k + 1)). rewrite Hregs in Hbelow. lia. }
  rewrite Haddr in *. clear addr Haddr.
  replace (12 <? k + 1) with false in Hrun by (symmetry; apply Z.ltb_ge; lia).
  rewrite Hd in Hrun. simpl in Hrun.
  destruct (decide (is_Some (d !! ("reg_" +:+ str_of_Z (k + 1))%string))) as [Hin|Hout].
  { destruct (Hnames _ Hin) as (a & Ha & Heq).
    apply prefixed_inj, str_of_Z_inj in Heq. lia. }
  eexists _, _. split; [exact Hrun|]. simpl. split_and!; try done.
  split; [done|]. split.
  - intros a. simpl. rewrite elem_of_app, Hregs, list_elem_of_singleton.
    split.
    + intros [Ha|[= ->]]; lia.
    + intros Ha. destruct (decide (a = k + 1)) as [->|]; [by right | left; lia].
  - eexists. simpl. rewrite lookup_insert_eq. split; [done|].
    intros nm Hnm. apply lookup_insert_is_Some in Hnm as [<-|[_ Hnm]].
    + exists (k + 1). split; [lia | done].
    + destruct (Hnames _ Hnm) as (a & Ha & ->). exists a. split; [lia | done].
Qed.

Lemma new_regs_from gen_ch page init_val rtype (n : nat) : forall (k : nat) q,
  allocated_up_to gen_ch page (Z.of_nat k) q -> (k + n <= 12)%nat ->
  exists q' regs,
    new_regs gen_ch init_val rtype n q = (q', Ok regs) /\
    map reg_addr regs = map Z.of_nat (seq (S k) n) /\
    map reg_name regs
    = map (fun a : nat => Some ("reg_" +:+ str_of_Z (Z.of_nat a))%string) (seq (S k) n) /\
    allocated_up_to gen_ch page (Z.of_nat (k + n)) q'.
Proof.
  induction n as [|n IH]; intros k q Hq Hn; simpl.
  - exists q, []. rewrite Nat.add_0_r. done.
  - destruct (new_reg_next gen_ch page (Z.of_nat k) q init_val rtype Hq)
      as (q1 & reg & Hrun & Haddr & _ & Hname & Hq1); [lia|].
    replace (Z.of_nat k + 1) with (Z.of_nat (S k)) in * by lia.
    destruct (IH (S k) q1 Hq1) as (q' & regs & Hruns & Haddrs & Hnames & Hq'); [lia|].
    exists q', (reg :: regs).
    rewrite (bind_Ok _ _ _ _ _ Hrun), (bind_Ok _ _ _ _ _ Hruns). unfold ret.
    simpl. rewrite Haddr, Hname, Haddrs, Hnames.
    replace (k + S n)%nat with (S k + n)%nat by lia. done.
Qed.

(** X4.  On a page with no allocated address and a channel with an empty
    table (as [declare_all_gens] leaves it), [n <= 12] calls of [new_reg]
    without a name return the addresses 1, 2, ..., [n] in this order, under
    the names [reg_1], ..., [reg_n]; after twelve, every further call on
    the channel raises [ValueError] and changes nothing. *)
Theorem new_regs_in_order p gen_ch page init_val rtype (n : nat) :
  page_of p gen_ch = Some page ->
  (forall a, (page, a) ∉ _user_regs p) ->
  user_reg_dict p !! gen_ch = Some ∅ ->
  (n <= 12)%nat ->
  exists p' regs,
    new_regs gen_ch init_val rtype n p = (p', Ok regs) /\
    map reg_addr regs = map Z.of_nat (seq 1 n) /\
    map reg_name regs
    = map (fun a : nat => Some ("reg_" +:+ str_of_Z (Z.of_nat a))%string) (seq 1 n) /\
    (n = 12%nat ->
     forall name init_val' rtype',
       new_reg gen_ch name init_val' rtype' p' = (p', Raise ValueError)).
Proof.
  intros Hpage Hfree Hd Hn.
  destruct (new_regs_from gen_ch page init_val rtype n 0 p) as (p' & regs & Hrun & Ha & Hnm & Hp').
  { split; [done|]. split.
    - intros a. split; [intros Hin; by apply Hfree in Hin | simpl; lia].
    - exists ∅. split; [done|]. intros nm Hnm. rewrite lookup_empty in Hnm.
      by destruct Hnm. }
  { lia. }
  exists p', regs. split; [done|]. split; [done|]. split; [done|].
  intros -> name init_val' rtype'.
  destruct Hp' as (Hpage' & Hregs' & _).
  apply (new_reg_page_full _ _ _ _ _ page); [done|].
  intros a Hrange. apply Hregs'. simpl. lia.
Qed.

End AllocationOrder.

(** ** Declaring the generators, continued *)

Section GeneratorsMore.

Lemma declare_one_gen_plain p gen_ch kws :
  (list_to_map (gen_chs p) : gmap string _) !! gen_ch = Some kws ->
  plain_entry kws ->
  declare_one_gen gen_ch p = (declared_plain p (gen_ch, kws), Ok tt).
Proof.
  intros Hk Hplain. unfold declare_one_gen.
  rewrite (bind_Ok _ _ _ _ _ (gen_cfg_eq _ _ _ Hk)).
  destruct (decide _) as [Hiq|_]; [by destruct Hplain|].
  reflexivity.
Qed.

Lemma declare_plain_items (items : list (string * gmap string pyval)) : forall q,
  (forall kv, kv ∈ items ->
     (list_to_map (gen_chs q) : gmap string _) !! kv.1 = Some kv.2 /\ plain_entry kv.2) ->
  for_each (map fst items) declare_one_gen q = (foldl declared_plain q items, Ok tt).
Proof.
  induction items as [|[k v] items IH]; intros q Hall; simpl; [done|].
  destruct (Hall (k, v)) as [Hk Hplain]; [apply list_elem_of_here|]. simpl in Hk, Hplain.
  rewrite (bind_Ok _ _ _ _ _ (declare_one_gen_plain _ _ _ Hk Hplain)).
  apply IH. intros kv Hkv. simpl. apply Hall. by apply list_elem_of_further.
Qed.

Lemma foldl_declared_plain items : forall q,
  gen_chs (foldl declared_plain q items) = gen_chs q /\
  declared_gens (foldl declared_plain q items)
  = declared_gens q ++ map (fun kv => {| call_args := []; call_kws := kv.2 |}) items /\
  (forall k, user_reg_dict (foldl declared_plain q items) !! k
             = if decide (k ∈ items.*1) then Some ∅ else user_reg_dict q !! k) /\
  _user_regs (foldl declared_plain q items) = _user_regs q /\
  prog_list (foldl declared_plain q items) = prog_list q.
Proof.
  induction items as [|[k0 v] items IH]; intros q; simpl.
  - rewrite app_nil_r. do 2 (split; [done|]). split; [|done]. intros k.
    destruct (decide (k ∈ [])) as [Hin|]; [by apply not_elem_of_nil in Hin | done].
  - destruct (IH (declared_plain q (k0, v))) as (Hg & Hd & Hu & Hr & Hp).
    rewrite Hg, Hd, Hr, Hp. simpl. rewrite <- app_assoc.
    do 2 (split; [done|]). split; [|done].
    intros k. rewrite Hu. simpl.
    destruct (decide (k ∈ items.*1)) as [Hin|Hout].
    + rewrite decide_True; [done|]. by apply list_elem_of_further.
    + destruct (decide (k = k0)) as [->|Hne].
      * rewrite lookup_insert_eq. rewrite decide_True; [done|]. apply list_elem_of_here.
      * rewrite lookup_insert_ne by done. rewrite decide_False; [done|].
        intros Hin. apply elem_of_cons in Hin as [|]; done.
Qed.

(** X5.  When no entry of [cfg["gen_chs"]] names both an I and a Q
    channel, [declare_all_gens] declares every entry once, in the order of
    the dict, with exactly its keywords and no positional argument; the
    configuration is unchanged, every channel of the configuration gets an
    empty register table (a table it had before is dropped), and tables
    under other names, the allocated list and the program are untouched. *)
Theorem declare_all_gens_plain p :
  NoDup (gen_chs p).*1 ->
  Forall (fun kv => plain_entry kv.2) (gen_chs p) ->
  exists p',
    declare_all_gens p = (p', Ok tt) /\
    declared_gens p'
    = declared_gens p
      ++ map (fun kv => {| call_args := []; call_kws := kv.2 |}) (gen_chs p) /\
    gen_chs p' = gen_chs p /\
    (forall k, k ∈ (gen_chs p).*1 -> user_reg_dict p' !! k = Some ∅) /\
    (forall k, k ∉ (gen_chs p).*1 -> user_reg_dict p' !! k = user_reg_dict p !! k) /\
    _user_regs p' = _user_regs p /\ prog_list p' = prog_list p.
Proof.
  intros Hnd Hplain. unfold declare_all_gens. unfold bind at 1. unfold get at 1.
  rewrite declare_plain_items.
  2:{ intros [k v] Hkv. simpl. split.
      - by apply elem_of_list_to_map_1.
      - rewrite Forall_forall in Hplain. by apply (Hplain (k, v)). }
  destruct (foldl_declared_plain (gen_chs p) p) as (Hg & Hd & Hu & Hr & Hp).
  eexists. split; [reflexivity|]. split_and!; try done.
  - intros k Hk. rewrite Hu. by rewrite decide_True.
  - intros k Hk. rewrite Hu. by rewrite decide_False.
Qed.

Lemma try_pop_present p gen_ch kws key v :
  (list_to_map (gen_chs p) : gmap string _) !! gen_ch = Some kws ->
  kws !! key = Some v ->
  try_except (kws_pop gen_ch key ;; ret tt) AttributeError (ret tt) p
  = (set_gen_chs (alter_item (delete key) gen_ch) p, Ok tt).
Proof.
  intros Hk Hv. destruct (kws_pop_present p gen_ch kws key v Hk Hv) as [Hpop _].
  unfold try_except. by rewrite (bind_Ok _ _ _ _ _ Hpop).
Qed.

(** X6.  An entry with [ch_I], [ch_Q], [skew_phase] and [IQ_scale] is
    declared as two generators, the I channel then the Q channel, each
    with the keywords that are left.  The four keys are removed from the
    configuration itself, so declaring the generators of the same
    configuration a second time declares that entry once, with the
    keywords that are left and no channel. *)
Theorem declare_one_gen_iq_pops_config p gen_ch kws ch_i ch_q :
  (list_to_map (gen_chs p) : gmap string _) !! gen_ch = Some kws ->
  kws !! "ch_I" = Some ch_i ->
  kws !! "ch_Q" = Some ch_q ->
  is_Some (kws !! "skew_phase") ->
  is_Some (kws !! "IQ_scale") ->
  exists p' p'',
    declare_one_gen gen_ch p = (p', Ok tt) /\
    declared_gens p'
    = declared_gens p
      ++ [ {| call_args := [ch_i]; call_kws := without_pairing kws |};
           {| call_args := [ch_q]; call_kws := without_pairing kws |} ] /\
    (list_to_map (gen_chs p') : gmap string _) !! gen_ch = Some (without_pairing kws) /\
    (forall k, k <> gen_ch ->
       (list_to_map (gen_chs p') : gmap string _) !! k
       = (list_to_map (gen_chs p) : gmap string _) !! k) /\
    user_reg_dict p' !! gen_ch = Some ∅ /\
    declare_one_gen gen_ch p' = (p'', Ok tt) /\
    declared_gens p''
    = declared_gens p' ++ [ {| call_args := []; call_kws := without_pairing kws |} ].
Proof.
  intros Hk Hi Hq [s Hs] [t Ht].
  destruct (kws_pop_present p gen_ch kws "ch_I" ch_i Hk Hi) as [Hpop1 Hk1].
  set (p1 := set_gen_chs (alter_item (delete "ch_I") gen_ch) p) in *.
  assert (delete "ch_I" kws !! "ch_Q" = Some ch_q) as Hq1
    by (by rewrite lookup_delete_ne).
  destruct (kws_pop_present p1 gen_ch _ "ch_Q" ch_q Hk1 Hq1) as [Hpop2 Hk2].
  set (p2 := set_gen_chs (alter_item (delete "ch_Q") gen_ch) p1) in *.
  assert (delete "ch_Q" (delete "ch_I" kws) !! "skew_phase" = Some s) as Hs2
    by (by rewrite !lookup_delete_ne).
  pose proof (try_pop_present p2 gen_ch _ "skew_phase" s Hk2 Hs2) as Hpop3.
  destruct (kws_pop_present p2 gen_ch _ "skew_phase" s Hk2 Hs2) as [_ Hk3].
  set (p3 := set_gen_chs (alter_item (delete "skew_phase") gen_ch) p2) in *.
  assert (delete "skew_phase" (delete "ch_Q" (delete "ch_I" kws)) !! "IQ_scale" = Some t)
    as Ht3 by (by rewrite !lookup_delete_ne).
  pose proof (try_pop_present p3 gen_ch _ "IQ_scale" t Hk3 Ht3) as Hpop4.
  destruct (kws_pop_present p3 gen_ch _ "IQ_scale" t Hk3 Ht3) as [_ Hk4].
  set (p4 := set_gen_chs (alter_item (delete "IQ_scale") gen_ch) p3) in *.
  fold (without_pairing kws) in Hk4.
  assert (declare_one_gen gen_ch p
          = (set_user_reg_dict (insert gen_ch ∅)
               (set_declared_gens
                  (fun l => l ++ [{| call_args := [ch_q]; call_kws := without_pairing kws |}])
                  (set_declared_gens
                     (fun l => l ++ [{| call_args := [ch_i];
                                        call_kws := without_pairing kws |}]) p4)),
             Ok tt)) as Hrun.
  { unfold declare_one_gen.
    rewrite (bind_Ok _ _ _ _ _ (gen_cfg_eq _ _ _ Hk)).
    destruct (decide (is_Some (kws !! "ch_I") /\ is_Some (kws !! "ch_Q"))) as [_|Hno].
    2:{ exfalso. apply Hno. rewrite Hi, Hq. eauto. }
    unfold bind at 1. unfold bind at 1. rewrite Hpop1.
    unfold bind at 1. rewrite Hpop2.
    unfold bind at 1. simpl for_each. unfold bind at 1. rewrite Hpop3.
    unfold bind at 1. rewrite Hpop4. unfold ret at 1.
    rewrite (bind_Ok _ _ _ _ _ (gen_cfg_eq p4 _ _ Hk4)). reflexivity. }
  eexists _, _. split; [exact Hrun|]. simpl.
  split; [by rewrite <- app_assoc|]. split; [exact Hk4|]. split.
  { intros k Hne. rewrite !list_to_map_alter_item. by rewrite !decide_False. }
  split; [by rewrite lookup_insert_eq|]. split.
  - apply declare_one_gen_plain; [exact Hk4|].
    intros [[x Hx] _]. unfold without_pairing in Hx.
    rewrite !lookup_delete_ne, lookup_delete_eq in Hx by done. done.
  - simpl. done.
Qed.

End GeneratorsMore.

(** ** Sweeps, continued *)

Section SweepsMore.
Context {api : QickProgramAPI}.

Lemma linspace_lookup start stop n (k : nat) :
  0 <= n -> (k < Z.to_nat n)%nat ->
  exists l, linspace start stop n = Ok l /\ length l = Z.to_nat n /\
            l !! k = Some (start + INR k * ((stop - start) / IZR (n - 1)))%R.
Proof.
  intros Hn Hk. unfold linspace.
  destruct (n <? 0) eqn:E; [apply Z.ltb_lt in E; lia|].
  eexists. split; [reflexivity|]. rewrite length_map, length_seq. split; [done|].
  rewrite list_lookup_fmap, lookup_seq_lt by done. done.
Qed.

(** X7.  The constructor of [QickSweep] returns exactly when the number of
    points is not negative and is not 1; a negative number is a
    [ValueError].  The sweep it returns has that many points; with two
    points or more the first is [start], the last is [stop], consecutive
    points are one step [(stop - start) / (expts - 1)] apart, and the
    register step is the conversion of that step for the register. *)
Theorem QickSweep_init_points reg start stop n :
  ((exists swp, QickSweep_init reg start stop n = Ok swp) <-> 0 <= n /\ n <> 1) /\
  (n < 0 -> QickSweep_init reg start stop n = Raise ValueError) /\
  forall swp, QickSweep_init reg start stop n = Ok swp ->
    length (swp_sweep_array swp) = Z.to_nat n /\
    swp_expts swp = n /\ swp_reg swp = reg /\
    swp_reg_step swp = val2reg reg ((stop - start) / IZR (n - 1))%R /\
    (2 <= n ->
     swp_sweep_array swp !! 0%nat = Some start /\
     last (swp_sweep_array swp) = Some stop /\
     forall (k : nat) x y,
       swp_sweep_array swp !! k = Some x -> swp_sweep_array swp !! S k = Some y ->
       (y - x = (stop - start) / IZR (n - 1))%R).
Proof.
  split; [|split].
  - split.
    + intros [swp Hrun]. unfold QickSweep_init, py_truediv, linspace in Hrun.
      destruct (n - 1 =? 0) eqn:E; [done|]. apply Z.eqb_neq in E.
      destruct (n <? 0) eqn:E'; [done|]. apply Z.ltb_ge in E'. lia.
    + intros [Hn Hne]. destruct (QickSweep_init_ok reg start stop n Hne Hn) as (swp & Hrun & _).
      eauto.
  - intros Hn. unfold QickSweep_init, py_truediv, linspace.
    destruct (n - 1 =? 0) eqn:E; [apply Z.eqb_eq in E; lia|].
    destruct (n <? 0) eqn:E'; [done | apply Z.ltb_ge in E'; lia].
  - intros swp Hrun. unfold QickSweep_init, py_truediv in Hrun.
    destruct (n - 1 =? 0) eqn:E; [done|]. apply Z.eqb_neq in E. simpl in Hrun.
    destruct (linspace start stop n) as [l|] eqn:Hl; [|done]. simpl in Hrun.
    injection Hrun as <-. simpl.
    assert (0 <= n) as Hn.
    { unfold linspace in Hl. destruct (n <? 0) eqn:E'; [done | apply Z.ltb_ge in E'; lia]. }
    assert (length l = Z.to_nat n) as Hlen.
    { unfold linspace in Hl. destruct (n <? 0); [done|]. injection Hl as <-.
      by rewrite length_map, length_seq. }
    assert (forall k : nat, (k < Z.to_nat n)%nat ->
              l !! k = Some (start + INR k * ((stop - start) / IZR (n - 1)))%R) as Hlk.
    { intros k Hk. destruct (linspace_lookup start stop n k Hn Hk) as (l' & Hl' & _ & Hk').
      congruence. }
    do 4 (split; [done|]). intros H2. split_and!.
    + rewrite Hlk by lia. simpl. f_equal. lra.
    + rewrite last_lookup, Hlen. rewrite Hlk by lia. f_equal.
      replace (Init.Nat.pred (Z.to_nat n)) with (Z.to_nat (n - 1)) by lia.
      rewrite INR_IZR_INZ, Z2Nat.id by lia. field.
      apply not_0_IZR. lia.
    + intros k x y Hx Hy.
      pose proof (lookup_lt_Some _ _ _ Hy) as Hk. rewrite Hlen in Hk.
      rewrite Hlk in Hx by lia. rewrite Hlk in Hy by lia.
      apply (inj Some) in Hx, Hy. subst x y. rewrite S_INR. lra.
Qed.

Lemma constructed_length swp :
  constructed swp -> Z.of_nat (length (swp_sweep_array swp)) = swp_expts swp.
Proof.
  intros (reg & start & stop & n & Hrun). unfold QickSweep_init, py_truediv in Hrun.
  destruct (n - 1 =? 0); [done|]. simpl in Hrun.
  destruct (linspace start stop n) as [l|] eqn:Hl; [|done]. simpl in Hrun.
  injection Hrun as <-. simpl. unfold linspace in Hl.
  destruct (n <? 0) eqn:E; [done|]. apply Z.ltb_ge in E. injection Hl as <-.
  rewrite length_map, length_seq. lia.
Qed.

(** X8.  After the sweeps built by the constructor are registered in the
    state the constructor of the program sets up, [get_expt_pts] returns
    the arrays of the sweeps in the order of registration and changes
    nothing, and [expts] is the number of points of the grid they span:
    the product of their lengths. *)
Theorem get_expt_pts_grid p sweeps :
  Forall constructed sweeps ->
  exists p' pts,
    for_each sweeps add_sweep (no_sweeps p) = (p', Ok tt) /\
    get_expt_pts p' = (p', Ok pts) /\
    length pts = length sweeps /\
    (forall (i : nat) swp, sweeps !! i = Some swp -> pts !! i = Some (swp_sweep_array swp)) /\
    expts p' = Some (product (map (fun a => Z.of_nat (length a)) pts)).
Proof.
  intros Hall.
  destruct (add_sweeps_from (no_sweeps p) sweeps 1 eq_refl) as (p' & Hrun & Hs & He & _).
  simpl in Hs. exists p', (map swp_sweep_array sweeps).
  split; [done|]. split; [unfold get_expt_pts; unfold_monad; by rewrite Hs|].
  split; [by rewrite length_map|]. split.
  - intros i swp Hi. by rewrite list_lookup_fmap, Hi.
  - rewrite He. f_equal. rewrite Z.mul_1_l. f_equal.
    rewrite map_map. apply map_ext_in. intros swp Hin.
    symmetry. apply constructed_length.
    rewrite Forall_forall in Hall. apply Hall. by apply list_elem_of_In.
Qed.

End SweepsMore.

(** ** The emitted program, continued *)

Section MakeProgramMore.
Context {api : QickProgramAPI}.

Lemma check_counter_regs_pass n :
  (1 <= n <= 7)%nat -> check_counter_regs (counter_regs_of n) = Ok tt.
Proof.
  intros Hn. rewrite check_counter_regs_eq.
  destruct (decide (n = 0%nat)); [lia|]. destruct (decide (8 <= n)%nat); [lia|]. done.
Qed.

(** X9.  Without ["reps"] in the configuration [make_program] raises
    [KeyError] when the test on the counter registers has passed and the
    reset of the run counter is already in the program; the body does not
    run and nothing else is appended. *)
Theorem make_program_without_reps initialize body p p1 :
  initialize p = (p1, Ok tt) ->
  reps p1 = None ->
  (1 <= length (qick_sweeps p1) <= 7)%nat ->
  make_program initialize body p = (append_code [regwi 0 13 0] p1, Raise KeyError).
Proof.
  intros Hinit Hr Hn.
  rewrite (make_program_check _ _ _ _ Hinit), (check_counter_regs_pass _ Hn).
  unfold make_program. unfold bind at 1. unfold ret at 1.
  unfold bind at 1. unfold get at 1.
  unfold bind at 1. unfold lift at 1. rewrite (check_counter_regs_pass _ Hn).
  unfold bind at 1. unfold emit at 1. unfold modify at 1.
  unfold bind at 1. unfold cfg_reps. unfold bind at 1. unfold get at 1.
  change (reps (set_prog_list _ p1)) with (reps p1).
  rewrite Hr. reflexivity.
Qed.

Lemma for_each_app {St A} (l1 l2 : list A) (f : A -> M St unit) s :
  for_each (l1 ++ l2) f s = (for_each l1 f ;; for_each l2 f) s.
Proof.
  revert s. induction l1 as [|x l1 IH]; intros s; simpl.
  - reflexivity.
  - unfold bind. destruct (f x s) as [s' [[]|e]]; [|done].
    rewrite IH. reflexivity.
Qed.

Lemma reverse_middle {A} (l : list A) (k : nat) x :
  l !! k = Some x -> reverse l = reverse (drop (S k) l) ++ x :: reverse (take k l).
Proof.
  intros Hk. rewrite <- (take_drop_middle l k x Hk) at 1.
  rewrite reverse_app, reverse_cons, <- app_assoc. done.
Qed.

(** X10.  A sweep over a register without initial value (as [get_reg]
    returns them) cannot be reset: [make_program] raises [TypeError] at
    the reset of the last such sweep, after the two counters, the label
    of the repetition loop and the setup of the sweeps registered after
    it; the body does not run. *)
Theorem make_program_sweep_without_init_val initialize body p p1 r (k : nat) swp :
  initialize p = (p1, Ok tt) ->
  reps p1 = Some r ->
  (length (qick_sweeps p1) <= 7)%nat ->
  qick_sweeps p1 !! k = Some swp ->
  reg_init_val (swp_reg swp) = None ->
  Forall has_init_val (drop (S k) (qick_sweeps p1)) ->
  make_program initialize body p
  = (append_code
       ([regwi 0 13 0; regwi 0 14 (r - 1); label "LOOP_rep"]
        ++ concat (map setup_code (reverse (drop (S k) (loops_of (qick_sweeps p1))))))
       p1,
     Raise TypeError).
Proof.
  intros Hinit Hr Hn Hk Hnone Hrest.
  pose proof (lookup_lt_Some _ _ _ Hk) as Hklt.
  assert (1 <= length (qick_sweeps p1) <= 7)%nat as Hn' by lia.
  rewrite (make_program_check _ _ _ _ Hinit), (check_counter_regs_pass _ Hn').
  set (sweeps := qick_sweeps p1) in *.
  set (f := fun cs : Z * QickSweep =>
              (QickSweep_reset cs.2 ;;
               emit (regwi 0 cs.1 (swp_expts cs.2 - 1)) ;;
               emit (label (loop_label cs.1 cs.2))) : M Prog unit).
  set (q := append_code [regwi 0 13 0; regwi 0 14 (r - 1); label "LOOP_rep"] p1).
  assert (exists c, loops_of sweeps !! k = Some (c, swp)) as [c Hc].
  { unfold loops_of. destruct (lookup_lt_is_Some_2 (counter_regs_of (length sweeps)) k)
      as [c Hc]; [by rewrite counter_regs_of_length|].
    exists c. rewrite lookup_zip_with, Hc. simpl. by rewrite Hk. }
  assert (for_each (zip (reverse (counter_regs_of (length sweeps))) (reverse sweeps)) f q
          = (append_code (concat (map setup_code (reverse (drop (S k) (loops_of sweeps))))) q,
             Raise TypeError)) as Hloop.
  { rewrite reverse_zip by (by rewrite counter_regs_of_length).
    fold (loops_of sweeps). rewrite (reverse_middle _ _ _ Hc), for_each_app.
    assert (emits (for_each (reverse (drop (S k) (loops_of sweeps))) f)
              (concat (map setup_code (reverse (drop (S k) (loops_of sweeps)))))) as Hpre.
    { intros q0. apply (emits_on_for_each (fun _ => True)); [done | |done].
      intros [c' s'] Hin. unfold f, setup_code. simpl.
      apply emits_on_bind; [done | |].
      - apply emits_emits_on, QickSweep_reset_emits.
        apply elem_of_reverse in Hin. rewrite reverse_involutive in Hin.
        apply list_elem_of_lookup in Hin as [j Hj].
        rewrite lookup_drop in Hj. unfold loops_of in Hj.
        apply lookup_zip_with_Some in Hj as (c2 & s2 & [= -> ->] & _ & Hs2).
        rewrite Forall_lookup in Hrest. apply (Hrest j). by rewrite lookup_drop.
      - apply emits_on_emit_then; [done|]. apply emits_on_emit. }
    rewrite (bind_Ok _ _ _ _ _ (Hpre q)). simpl.
    unfold bind at 1. unfold f at 1. simpl. unfold bind at 1.
    unfold QickSweep_reset, QickRegister_reset. rewrite Hnone. reflexivity. }
  unfold make_program. unfold bind at 1. unfold ret at 1.
  unfold bind at 1. unfold get at 1.
  unfold bind at 1. unfold lift at 1. fold sweeps. rewrite (check_counter_regs_pass _ Hn').
  unfold bind at 1. unfold emit at 1. unfold modify at 1.
  unfold bind at 1. unfold cfg_reps. unfold bind at 1. unfold get at 1.
  change (reps (set_prog_list _ p1)) with (reps p1).
  rewrite Hr. unfold ret at 1.
  unfold bind at 1. unfold emit at 1. unfold modify at 1.
  unfold bind at 1. unfold emit at 1. unfold modify at 1.
  unfold bind at 1. unfold get at 1.
  unfold bind at 1.
  match goal with
  | |- context [for_each _ _ ?s] =>
      replace s with q
        by (unfold q;
            change [regwi 0 13 0; regwi 0 14 (r - 1); label "LOOP_rep"]
              with ([regwi 0 13 0] ++ [regwi 0 14 (r - 1)] ++ [label "LOOP_rep"]);
            by rewrite <- !append_code_app)
  end.
  simpl qick_sweeps. fold sweeps. fold f. rewrite Hloop.
  unfold q. by rewrite append_code_app.
Qed.

Lemma labels_of_app a b : labels_of (a ++ b) = labels_of a ++ labels_of b.
Proof. unfold labels_of. apply omap_app. Qed.

Lemma labels_of_setup loops :
  labels_of (concat (map setup_code loops)) = map (fun cs => loop_label cs.1 cs.2) loops.
Proof.
  induction loops as [|cs loops IH]; [done|]. cbn [map concat].
  rewrite labels_of_app, IH. unfold setup_code. rewrite labels_of_app.
  unfold reset_code. destruct (reg_init_val (swp_reg cs.2)); done.
Qed.

Lemma labels_of_teardown loops : labels_of (concat (map teardown_code loops)) = [].
Proof.
  induction loops as [|cs loops IH]; [done|]. cbn [map concat].
  rewrite labels_of_app, IH. done.
Qed.

(** X11.  The labels of the program that [make_program] emits are
    [LOOP_rep] and then one label per sweep, from the last registered to
    the first, named after the register of the sweep (after its counter
    register when the register has no name).  They are pairwise distinct
    exactly when the names are and none of them is [rep]: two sweeps over
    registers of the same name, on different channels for instance, get
    the same label. *)
Theorem make_program_labels initialize body body_code p p1 r :
  initialize p = (p1, Ok tt) ->
  reps p1 = Some r ->
  (1 <= length (qick_sweeps p1) <= 7)%nat ->
  Forall has_init_val (qick_sweeps p1) ->
  emits body body_code ->
  labels_of body_code = [] ->
  exists code,
    make_program initialize body p = (append_code code p1, Ok tt) /\
    labels_of code
    = "LOOP_rep"
      :: map (fun cs => ("LOOP_" +:+ sweep_tag cs)%string)
           (reverse (loops_of (qick_sweeps p1))) /\
    (NoDup (labels_of code) <->
     NoDup (map sweep_tag (loops_of (qick_sweeps p1))) /\
     "rep" ∉ map sweep_tag (loops_of (qick_sweeps p1))).
Proof.
  intros Hinit Hr Hn Hval Hbody Hnl.
  exists (emitted r (qick_sweeps p1) body_code).
  split; [by apply make_program_emits|].
  assert (labels_of (emitted r (qick_sweeps p1) body_code)
          = "LOOP_rep" :: map (fun cs => ("LOOP_" +:+ sweep_tag cs)%string)
                            (reverse (loops_of (qick_sweeps p1)))) as Hlab.
  { unfold emitted. cbv zeta. fold (loops_of (qick_sweeps p1)).
    rewrite !labels_of_app, labels_of_setup, labels_of_teardown, Hnl. simpl.
    rewrite !app_nil_r. done. }
  split; [exact Hlab|]. rewrite Hlab.
  set (tags := map sweep_tag (loops_of (qick_sweeps p1))).
  assert ("LOOP_rep" :: map (fun cs => ("LOOP_" +:+ sweep_tag cs)%string)
                          (reverse (loops_of (qick_sweeps p1)))
          = map (fun t => ("LOOP_" +:+ t)%string) ("rep" :: reverse tags)) as ->.
  { simpl. f_equal. unfold tags. rewrite <- fmap_reverse.
    change (@map) with (@fmap list _). by rewrite <- list_fmap_compose. }
  change (@map) with (@fmap list _).
  assert (Inj eq eq (fun t => ("LOOP_" +:+ t)%string)) as Hinj.
  { intros a b. apply prefixed_inj. }
  rewrite (NoDup_fmap _), reverse_Permutation, NoDup_cons. tauto.
Qed.

End MakeProgramMore.

(** ** Thresholded rounds *)

Section Thresholded.
#[local] Open Scope nat_scope.

Lemma mapM_outcome_raise {A B} (f : A -> outcome B) (l : list A) e x :
  (forall y, y ∈ l -> f y = Raise e \/ exists z, f y = Ok z) ->
  x ∈ l -> f x = Raise e ->
  mapM_outcome f l = Raise e.
Proof.
  induction l as [|y l IH]; intros Hall Hx Hfx; [by apply not_elem_of_nil in Hx|].
  simpl. destruct (Hall y) as [Hy|[z Hy]]; [apply list_elem_of_here| |]; rewrite Hy; simpl.
  - done.
  - apply elem_of_cons in Hx as [->|Hx]; [congruence|].
    rewrite IH; [done | | done | done].
    intros y' Hy'. apply Hall. by apply list_elem_of_further.
Qed.

Lemma item_raise {A} (l : list A) i : length l <= i -> item l i = Raise IndexError.
Proof. intros H. unfold item. by rewrite lookup_ge_None_2. Qed.

Lemma item_cases {A} (l : list A) i :
  item l i = Raise IndexError \/ exists x, item l i = Ok x.
Proof. unfold item. destruct (l !! i); eauto. Qed.

Lemma get_single_shots_short ro_chs di dq threshold angle :
  (length (angle_list angle) < length ro_chs
   \/ length (threshold_list threshold) < length ro_chs) ->
  get_single_shots ro_chs di dq threshold angle = Raise IndexError.
Proof.
  intros Hshort. unfold get_single_shots.
  fold (angle_list angle). fold (threshold_list threshold).
  set (m := Nat.min (length (angle_list angle)) (length (threshold_list threshold))).
  assert (m < length ro_chs) as Hm by lia.
  destruct (lookup_lt_is_Some_2 ro_chs m Hm) as [ro Hro].
  apply (mapM_outcome_raise _ _ _ (m, ro)).
  - intros [i ro'] _. simpl.
    destruct (item_cases di i) as [->|[x ->]]; simpl; [by left|].
    destruct (item_cases (angle_list angle) i) as [->|[a ->]]; simpl; [by left|].
    destruct (item_cases dq i) as [->|[y ->]]; simpl; [by left|].
    destruct (item_cases (threshold_list threshold) i) as [->|[t ->]]; simpl; [by left|].
    right. eauto.
  - by apply elem_of_enumerate.
  - simpl.
    destruct (item_cases di m) as [->|[x ->]]; simpl; [done|].
    destruct (decide (length (angle_list angle) <= m)) as [Ha|Ha].
    { by rewrite (item_raise _ _ Ha). }
    destruct (item_cases (angle_list angle) m) as [->|[a ->]]; simpl; [done|].
    destruct (item_cases dq m) as [->|[y ->]]; simpl; [done|].
    rewrite item_raise by lia. done.
Qed.

(** X12.  The integer threshold and the default angle are expanded to
    two entries, one for each of two readouts: with three readout
    channels or more, a thresholded round whose threshold is an integer,
    or whose angle is left out, raises [IndexError] before anything is
    averaged, whatever the buffers hold. *)
Theorem acquire_round_threshold_two_channels n_reps n_expts ro_chs pts d_i d_q
    threshold angle rpe save total :
  2 < length ro_chs ->
  buffer_shape d_i (length ro_chs) total ->
  buffer_shape d_q (length ro_chs) total ->
  angle = None \/ (exists t, threshold = ThrInt t) ->
  acquire_round n_reps n_expts ro_chs pts d_i d_q (Some threshold) angle rpe save
  = Raise IndexError.
Proof.
  intros Hn _ _ Hcase. unfold acquire_round.
  rewrite get_single_shots_short; [done|].
  destruct Hcase as [->|[t ->]]; simpl; [left | right]; lia.
Qed.

Section Loops.
Variables (n_reps n_expts rpe : nat) (ro_chs : list (pyval * Z)) (save : list Z).
Variables (d_i d_q sh : list (list R)).

#[local] Abbreviation shots_at := (written_shots n_reps n_expts rpe ro_chs save sh).
#[local] Abbreviation zero := (zeros3 (length ro_chs) (length save) n_expts).

Lemma written_shots_start : shots_at 0 0 (zero, zero).
Proof.
  split; [apply zeros3_shape|]. split; [done|].
  intros nn i_ch _ [H|[_ H]]; lia.
Qed.

Lemma written_shots_next_row nn s : shots_at nn (length ro_chs) s -> shots_at (S nn) 0 s.
Proof.
  intros (Hs1 & Hs2 & Hcells). split; [done|]. split; [done|].
  intros nn' i_ch Hi [Hlt|[_ Hc]]; [|lia].
  apply Hcells; [done|]. destruct (decide (nn' = nn)); [right | left]; lia.
Qed.

Lemma store_average_shots nn ii c ro s1 s2 :
  save !! nn = Some ii -> ro_chs !! c = Some ro ->
  shots_at nn c s1 ->
  store_average (Some sh) zero d_i d_q rpe n_reps n_expts nn ii s1 (c, ro) = Ok s2 ->
  shots_at nn (S c) s2.
Proof.
  intros Hnn Hc (Hs1 & Hs2 & Hcells). unfold store_average. simpl.
  destruct (item sh c) as [bs|] eqn:Hbs; simpl; [|done].
  destruct (reduce_row bs ii rpe n_reps n_expts) as [rs|] eqn:Hrs; simpl; [|done].
  intros [= <-]. cbn [fst snd].
  apply item_Ok in Hbs.
  destruct (reduce_row_Ok _ _ _ _ _ _ Hrs) as (_ & _ & _ & _ & Hl & _).
  pose proof (lookup_lt_Some _ _ _ Hnn) as Hnn_lt.
  pose proof (lookup_lt_Some _ _ _ Hc) as Hc_lt.
  split; [by apply set_row_shape|]. split; [done|].
  intros nn' i_ch Hi Hdone. cbn [fst snd].
  destruct (decide ((i_ch, nn') = (c, nn))) as [[= -> ->]|Hne].
  - exists rs, ii, bs. rewrite (cell_set_row_eq _ _ _ _ _ _ _ Hs1) by done. done.
  - rewrite cell_set_row_ne by done. apply Hcells; [done|].
    destruct Hdone as [Hlt|[-> Hlt]]; [by left|]. right. split; [done|].
    assert (i_ch <> c) by congruence. lia.
Qed.

Lemma store_average_shots_total nn ii c ro s1 :
  buffer_shape sh (length ro_chs) (n_reps * n_expts * rpe) ->
  (0 <= ii < Z.of_nat rpe)%Z ->
  ro_chs !! c = Some ro ->
  exists s2, store_average (Some sh) zero d_i d_q rpe n_reps n_expts nn ii s1 (c, ro) = Ok s2.
Proof.
  intros [Hl Ha] Hii Hc.
  pose proof (lookup_lt_Some _ _ _ Hc) as Hc_lt.
  destruct (lookup_lt_is_Some_2 sh c) as [bs Hbs]; [lia|].
  rewrite Forall_lookup in Ha.
  destruct (reduce_row_total bs ii rpe n_reps n_expts (Ha _ _ Hbs) Hii)
    as (rs & _ & _ & Hrs & _).
  unfold store_average, item. simpl. rewrite Hbs. simpl. rewrite Hrs. simpl. eauto.
Qed.

Lemma shots_loops_written s :
  foldM (fun avgs nn_ii =>
           foldM (store_average (Some sh) zero d_i d_q rpe n_reps n_expts nn_ii.1 nn_ii.2)
             (enumerate ro_chs) avgs)
        (enumerate save) (zero, zero) = Ok s ->
  shots_at (length save) 0 s.
Proof.
  apply (foldM_enumerate_inv _ (fun n s => shots_at n 0 s)).
  - apply written_shots_start.
  - intros nn ii s1 s2 Hnn Hs1 Hinner. simpl in Hinner.
    apply written_shots_next_row.
    revert Hinner. apply (foldM_enumerate_inv _ (fun c s => shots_at nn c s)); [done|].
    intros c ro s3 s4 Hc Hs3 Hstep. by eapply store_average_shots.
Qed.

Lemma shots_loops_total :
  buffer_shape sh (length ro_chs) (n_reps * n_expts * rpe) ->
  Forall (fun ii => (0 <= ii < Z.of_nat rpe)%Z) save ->
  exists s,
    foldM (fun avgs nn_ii =>
             foldM (store_average (Some sh) zero d_i d_q rpe n_reps n_expts nn_ii.1 nn_ii.2)
               (enumerate ro_chs) avgs)
          (enumerate save) (zero, zero) = Ok s.
Proof.
  intros Hsh Hsave. rewrite Forall_lookup in Hsave.
  apply (foldM_enumerate_total _ (fun n s => shots_at n 0 s)).
  - apply written_shots_start.
  - intros nn ii s1 Hnn Hs1. simpl.
    apply (foldM_enumerate_total _ (fun c s => shots_at nn c s)); [done | |].
    + intros c ro s3 Hc _. apply store_average_shots_total; eauto.
    + intros c ro s3 s4 Hc Hs3 Hstep. by eapply store_average_shots.
  - intros nn ii s1 s2 Hnn Hs1 Hinner. simpl in Hinner.
    apply written_shots_next_row.
    revert Hinner. apply (foldM_enumerate_inv _ (fun c s => shots_at nn c s)); [done|].
    intros c ro s3 s4 Hc Hs3 Hstep. by eapply store_average_shots.
Qed.

End Loops.

Lemma heaviside_binary x : binary (heaviside x 0).
Proof.
  unfold heaviside, binary. destruct (Rlt_dec x 0); [by left|].
  destruct (Rlt_dec 0 x); [by right | by left].
Qed.

(** The single-shot array of buffers of the declared shape. *)
Lemma get_single_shots_total ro_chs di dq threshold angle total :
  buffer_shape di (length ro_chs) total ->
  buffer_shape dq (length ro_chs) total ->
  length ro_chs <= length (angle_list angle) ->
  length ro_chs <= length (threshold_list threshold) ->
  exists sh,
    get_single_shots ro_chs di dq threshold angle = Ok sh /\
    buffer_shape sh (length ro_chs) total /\
    Forall (Forall binary) sh.
Proof.
  intros [Hli Hai] [Hlq Haq] Hang Hthr.
  rewrite Forall_lookup in Hai. rewrite Forall_lookup in Haq.
  destruct (mapM_outcome_total
              (fun ich : nat * (pyval * Z) =>
                 let i := ich.1 in
                 di_i <~ item di i ;;
                 a <~ item (angle_list angle) i ;;
                 dq_i <~ item dq i ;;
                 t <~ item (threshold_list threshold) i ;;
                 Ok (zip_with (fun I Q =>
                       heaviside ((I * cos a - Q * sin a) / IZR ich.2.2 - t) 0) di_i dq_i))
              (enumerate ro_chs)) as [sh Hsh].
  { intros [i ro] Hin. apply elem_of_enumerate in Hin.
    pose proof (lookup_lt_Some _ _ _ Hin) as Hi. simpl. unfold item.
    destruct (lookup_lt_is_Some_2 di i) as [x ->]; [lia|]. simpl.
    destruct (lookup_lt_is_Some_2 (angle_list angle) i) as [a ->]; [lia|]. simpl.
    destruct (lookup_lt_is_Some_2 dq i) as [y ->]; [lia|]. simpl.
    destruct (lookup_lt_is_Some_2 (threshold_list threshold) i) as [t ->]; [lia|]. simpl.
    eauto. }
  exists sh. split; [exact Hsh|].
  apply mapM_outcome_lookup in Hsh as [Hlen Hrows]. rewrite enumerate_length in Hlen.
  assert (forall i row, sh !! i = Some row -> length row = total /\ Forall binary row) as Hrow.
  { intros i row Hi.
    pose proof (lookup_lt_Some _ _ _ Hi) as Hlt. rewrite Hlen in Hlt.
    destruct (lookup_lt_is_Some_2 ro_chs i Hlt) as [ro Hro].
    destruct (Hrows i (i, ro) (enumerate_lookup _ _ _ Hro)) as (row' & Hf & Hrow').
    assert (row' = row) as -> by congruence. simpl in Hf. unfold item in Hf.
    destruct (di !! i) as [x|] eqn:Hx; [|done]. simpl in Hf.
    destruct (angle_list angle !! i) as [a|]; [|done]. simpl in Hf.
    destruct (dq !! i) as [y|] eqn:Hy; [|done]. simpl in Hf.
    destruct (threshold_list threshold !! i) as [t|]; [|done]. simpl in Hf.
    injection Hf as <-. split.
    - rewrite length_zip_with, (Hai _ _ Hx), (Haq _ _ Hy). lia.
    - apply Forall_lookup. intros k s Hk.
      apply lookup_zip_with_Some in Hk as (I & Q & -> & _ & _). apply heaviside_binary. }
  split; [split; [done|]|].
  - apply Forall_lookup. intros i row Hi. by apply (Hrow i).
  - apply Forall_lookup. intros i row Hi. by apply (Hrow i).
Qed.

Lemma sum_list_bounds (l : list R) :
  Forall binary l -> (0 <= sum_list l <= INR (length l))%R.
Proof.
  induction 1 as [|x l Hx _ IH].
  - unfold sum_list. simpl. lra.
  - change (sum_list (x :: l)) with (x + sum_list l)%R.
    change (length (x :: l)) with (S (length l)). rewrite S_INR.
    destruct Hx as [-> | ->]; lra.
Qed.

Lemma mean_binary (l : list R) :
  l <> [] -> Forall binary l -> (0 <= mean l <= 1)%R.
Proof.
  intros Hne Hall. pose proof (sum_list_bounds l Hall) as [Hlo Hhi].
  assert (0 < INR (length l))%R as Hpos.
  { apply lt_0_INR. destruct l; [done | simpl; lia]. }
  unfold mean. split.
  - apply Rmult_le_pos; [done|]. left. by apply Rinv_0_lt_compat.
  - apply (Rmult_le_reg_r (INR (length l))); [done|].
    unfold Rdiv. rewrite Rmult_assoc, Rinv_l by lra. lra.
Qed.

Lemma raw_samples_binary b ii rpe n_reps n_expts e :
  Forall binary b -> Forall binary (raw_samples b ii rpe n_reps n_expts e).
Proof.
  intros Hb. unfold raw_samples. apply Forall_forall. intros x Hx.
  apply list_elem_of_fmap in Hx as (r & -> & _).
  destruct (nth_in_or_default (Z.to_nat ii + (r * n_expts + e) * rpe) b 0%R) as [Hin| ->].
  - rewrite Forall_forall in Hb. apply Hb. by apply list_elem_of_In.
  - by left.
Qed.

(** X13.  A round with a threshold returns when there is at least one
    repetition, the two buffers have the declared shape, the list of
    angles and the list of thresholds are each at least as long as the
    list of readouts (an integer threshold and the default angle stand
    for two entries each) and every saved index is below
    [readouts_per_experiment].  Under these conditions it keeps the
    single-shot array, one row of 0s and 1s per readout; the Q array it
    returns is zero everywhere, and the entry of the I array is the
    fraction of the repetitions whose shot is 1, a number between 0 and
    1 that is not divided by the integration length. *)
Theorem acquire_round_thresholded n_reps n_expts ro_chs pts d_i d_q threshold angle
    rpe save :
  0 < n_reps ->
  buffer_shape d_i (length ro_chs) (n_reps * n_expts * rpe) ->
  buffer_shape d_q (length ro_chs) (n_reps * n_expts * rpe) ->
  length ro_chs <= length (angle_list angle) ->
  length ro_chs <= length (threshold_list threshold) ->
  Forall (fun ii => (0 <= ii < Z.of_nat rpe)%Z) (save_list save) ->
  exists round sh,
    acquire_round n_reps n_expts ro_chs pts d_i d_q (Some threshold) angle rpe save
    = Ok round /\
    shots round = Some sh /\
    get_single_shots ro_chs d_i d_q threshold (Some (angle_list angle)) = Ok sh /\
    avg_dq round = zeros3 (length ro_chs) (length (save_list save)) n_expts /\
    has_shape (avg_di round) (length ro_chs) (length (save_list save)) n_expts /\
    forall (i_ch nn e : nat) ii,
      i_ch < length ro_chs -> save_list save !! nn = Some ii -> e < n_expts ->
      entry (avg_dq round) i_ch nn e = Some 0%R /\
      exists row,
        sh !! i_ch = Some row /\ Forall binary row /\
        entry (avg_di round) i_ch nn e
        = Some (mean (raw_samples row ii rpe n_reps n_expts e)) /\
        (0 <= mean (raw_samples row ii rpe n_reps n_expts e) <= 1)%R.
Proof.
  intros Hreps Hdi Hdq Hang Hthr Hsave.
  destruct (get_single_shots_total ro_chs d_i d_q threshold (Some (angle_list angle))
              _ Hdi Hdq Hang Hthr) as (sh & Hsh & Hshape & Hbin).
  destruct (shots_loops_total n_reps n_expts rpe ro_chs (save_list save) d_i d_q sh
              Hshape Hsave) as [avgs Hfold].
  assert (acquire_round n_reps n_expts ro_chs pts d_i d_q (Some threshold) angle rpe save
          = Ok {| expt_pts := pts; avg_di := avgs.1; avg_dq := avgs.2;
                  di_buf := d_i; dq_buf := d_q; shots := Some sh |}) as Hrun.
  { unfold acquire_round. fold (angle_list angle). fold (save_list save).
    rewrite Hsh. simpl. rewrite Hfold. reflexivity. }
  apply shots_loops_written in Hfold as (Hs1 & Hs2 & Hcells).
  eexists _, sh. split; [exact Hrun|]. simpl.
  split; [done|]. split; [done|]. split; [done|]. split; [done|].
  intros i_ch nn e ii Hi Hnn He.
  pose proof (lookup_lt_Some _ _ _ Hnn) as Hnn_lt.
  split.
  { rewrite Hs2. unfold entry, zeros3.
    rewrite lookup_replicate_2 by done. simpl.
    rewrite lookup_replicate_2 by done. simpl.
    by rewrite lookup_replicate_2. }
  destruct (Hcells nn i_ch Hi) as (v & ii' & b & Hnn' & Hb & Hred & Hcell); [by left|].
  assert (ii' = ii) as -> by congruence.
  exists b. split; [done|].
  rewrite Forall_lookup in Hbin. pose proof (Hbin _ _ Hb) as Hbb.
  split; [done|].
  destruct Hshape as [_ Hlens]. rewrite Forall_lookup in Hlens.
  rewrite Forall_lookup in Hsave.
  destruct (reduce_row_Ok _ _ _ _ _ _ Hred) as (s & rows & Hs & Hrows & _ & Hv).
  rewrite (entry_cell _ _ _ _ _ Hcell), Hv by done.
  rewrite (column_raw_samples b ii rpe n_reps n_expts s rows e); eauto.
  split; [done|].
  apply mean_binary; [|by apply raw_samples_binary].
  unfold raw_samples. destruct n_reps; [lia | done].
Qed.

End Thresholded.

(** ** The buffers kept by [acquire] *)

Section Buffers.
#[local] Open Scope nat_scope.

Lemma reshape_reps_entry buf n_ro n_reps m b :
  reshape_reps buf n_ro n_reps = Ok b ->
  buffer_shape buf n_ro (n_reps * m) -> 0 < n_reps ->
  has_shape b n_ro n_reps m /\
  forall ch rep k, ch < n_ro -> rep < n_reps -> k < m ->
    entry b ch rep k = entry2 buf ch (rep * m + k).
Proof.
  intros Hrun [Hlen Hall] Hreps. unfold reshape_reps in Hrun.
  destruct (decide (n_ro * n_reps = 0)); [done|].
  destruct (decide (length buf = n_ro)); [|done].
  apply mapM_outcome_lookup in Hrun as [Hlb Hrows].
  rewrite Forall_lookup in Hall.
  assert (forall ch plane, b !! ch = Some plane ->
            exists row, buf !! ch = Some row /\ reshape row n_reps m = Ok plane) as Hplane.
  { intros ch plane Hch. pose proof (lookup_lt_Some _ _ _ Hch) as Hlt. rewrite Hlb in Hlt.
    destruct (lookup_lt_is_Some_2 buf ch Hlt) as [row Hrow].
    destruct (Hrows ch row Hrow) as (plane' & Hf & Hp).
    assert (plane' = plane) as -> by congruence.
    exists row. split; [done|].
    rewrite (Hall _ _ Hrow) in Hf.
    rewrite (Nat.mul_comm n_reps m), Nat.Div0.mod_mul, Nat.div_mul in Hf by lia.
    by destruct (decide (0 = 0)). }
  split.
  - split; [lia|]. apply Forall_lookup. intros ch plane Hch.
    destruct (Hplane ch plane Hch) as (row & _ & Hre).
    by apply reshape_Ok in Hre as (_ & ? & ? & _).
  - intros ch rep k Hch Hrep Hk. unfold entry, entry2.
    destruct (lookup_lt_is_Some_2 b ch) as [plane Hp]; [lia|].
    destruct (Hplane ch plane Hp) as (row & Hrow & Hre).
    rewrite Hp, Hrow. simpl.
    apply reshape_Ok in Hre as (_ & _ & _ & Hlk).
    destruct (Hlk rep k Hrep Hk) as (r & -> & Hr). done.
Qed.

(** X14.  With one round ([rounds] absent from the configuration, or
    1), when the round returns and the run has filled buffers of the
    declared shape, [acquire] returns what the round returns, and the
    buffers it keeps hold the samples of the run by channel, repetition
    and measurement: sample [k] of repetition [rep] is sample
    [rep * (expts * readouts_per_experiment) + k] of the channel's row. *)
Theorem acquire_single_round n_reps n_expts rounds ro_chs pts soc threshold angle rpe
    save r :
  rounds = None \/ rounds = Some 1%Z ->
  0 < length ro_chs -> 0 < n_reps ->
  round_of n_reps n_expts ro_chs pts soc threshold angle rpe save 0 = Ok r ->
  buffer_shape (soc 0).1 (length ro_chs) (n_reps * (n_expts * rpe)) ->
  buffer_shape (soc 0).2 (length ro_chs) (n_reps * (n_expts * rpe)) ->
  exists res,
    acquire n_reps n_expts rounds ro_chs pts soc threshold angle rpe save = Ok res /\
    acq_expt_pts res = expt_pts r /\
    acq_avg_di res = avg_di r /\ acq_avg_dq res = avg_dq r /\
    has_shape (di_buf_p res) (length ro_chs) n_reps (n_expts * rpe) /\
    has_shape (dq_buf_p res) (length ro_chs) n_reps (n_expts * rpe) /\
    forall ch rep k, ch < length ro_chs -> rep < n_reps -> k < n_expts * rpe ->
      entry (di_buf_p res) ch rep k = entry2 (soc 0).1 ch (rep * (n_expts * rpe) + k) /\
      entry (dq_buf_p res) ch rep k = entry2 (soc 0).2 ch (rep * (n_expts * rpe) + k).
Proof.
  intros Hrounds Hro Hreps Hr Hbi Hbq.
  destruct (acquire_round_bufs _ _ _ _ _ _ _ _ _ _ _ Hr) as [Hdi Hdq].
  destruct (reshape_reps_total _ _ _ _ Hro Hreps Hbi) as [bi Hrbi].
  destruct (reshape_reps_total _ _ _ _ Hro Hreps Hbq) as [bq Hrbq].
  destruct (reshape_reps_entry _ _ _ _ _ Hrbi Hbi Hreps) as [Hsi Hei].
  destruct (reshape_reps_entry _ _ _ _ _ Hrbq Hbq Hreps) as [Hsq Heq].
  assert (acquire n_reps n_expts rounds ro_chs pts soc threshold angle rpe save
          = Ok {| acq_expt_pts := expt_pts r; acq_avg_di := avg_di r;
                  acq_avg_dq := avg_dq r; di_buf_p := bi; dq_buf_p := bq |}) as Hrun.
  { unfold acquire.
    assert (match rounds with None => 1%Z | Some n => n end = 1%Z) as ->
      by (by destruct Hrounds as [-> | ->]).
    destruct (Z.of_nat n_reps * 1 <? 0)%Z eqn:E; [apply Z.ltb_lt in E; lia|].
    simpl. unfold round_of, angle_list, save_list in Hr. rewrite Hr. simpl.
    rewrite Hdi, Hrbi. simpl. rewrite Hdq, Hrbq. reflexivity. }
  eexists. split; [exact Hrun|]. simpl. split_and!; try done.
  intros ch rep k Hch Hrep Hk. split; [by apply Hei | by apply Heq].
Qed.

Lemma foldM_seq_inv {St} (f : St -> nat -> outcome St) (P : nat -> St -> Prop) (n : nat) :
  forall k s s',
    P k s ->
    (forall i s1 s2, k <= i < k + n -> P i s1 -> f s1 i = Ok s2 -> P (S i) s2) ->
    foldM f (seq k n) s = Ok s' ->
    P (k + n) s'.
Proof.
  induction n as [|n IH]; intros k s s' Hs Hstep; simpl.
  - intros [= <-]. by rewrite Nat.add_0_r.
  - destruct (f s k) as [s1|] eqn:Hf; simpl; [|done].
    intros Hrun. replace (k + S n) with (S k + n) by lia.
    apply (IH (S k) s1 s'); [| |done].
    + apply (Hstep k s s1); [lia | done | done].
    + intros i s2 s3 Hi. apply Hstep. lia.
Qed.

Lemma store_rows_entry buf_p block lo n_ro tot n_reps m :
  has_shape buf_p n_ro tot m -> has_shape block n_ro n_reps m -> lo + n_reps <= tot ->
  has_shape (store_rows buf_p block lo) n_ro tot m /\
  forall ch j k,
    entry (store_rows buf_p block lo) ch j k
    = if decide (lo <= j < lo + n_reps) then entry block ch (j - lo) k
      else entry buf_p ch j k.
Proof.
  intros [Hlp Hap] [Hlb Hab] Hlo. unfold store_rows.
  rewrite Forall_lookup in Hap. rewrite Forall_lookup in Hab.
  split.
  - split; [rewrite length_zip_with; lia|].
    apply Forall_lookup. intros ch plane Hch.
    apply lookup_zip_with_Some in Hch as (pp & pb & -> & Hpp & Hpb).
    destruct (Hap _ _ Hpp) as [Hl1 Hr1]. destruct (Hab _ _ Hpb) as [Hl2 Hr2].
    split.
    + rewrite !length_app, length_take, length_drop. lia.
    + apply Forall_app. split; [by apply Forall_take|].
      apply Forall_app. split; [done | by apply Forall_drop].
  - intros ch j k. unfold entry. rewrite lookup_zip_with.
    destruct (buf_p !! ch) as [pp|] eqn:Hpp; simpl.
    2:{ destruct (decide _); [|done].
        rewrite (lookup_ge_None_2 block); [done|].
        apply lookup_ge_None_1 in Hpp. lia. }
    destruct (block !! ch) as [pb|] eqn:Hpb; simpl.
    2:{ apply lookup_ge_None_1 in Hpb. apply lookup_lt_Some in Hpp. lia. }
    destruct (Hap _ _ Hpp) as [Hl1 _]. destruct (Hab _ _ Hpb) as [Hl2 _].
    destruct (decide (lo <= j < lo + n_reps)) as [Hin|Hout].
    + rewrite lookup_app_r by (rewrite length_take; lia).
      rewrite length_take, lookup_app_l by lia.
      replace (j - lo `min` length pp) with (j - lo) by lia. done.
    + destruct (decide (j < lo)) as [Hlt|Hge].
      * rewrite lookup_app_l by (rewrite length_take; lia).
        by rewrite lookup_take_lt.
      * rewrite lookup_app_r by (rewrite length_take; lia).
        rewrite length_take, lookup_app_r by lia.
        rewrite lookup_drop. do 2 f_equal. lia.
Qed.

(** X15.  With [rounds = R > 1], the buffers [acquire] keeps hold the
    samples of every round: row [reps * ii + rep] of a channel is
    repetition [rep] of round [ii], so that sample [k] of it is sample
    [rep * (expts * readouts_per_experiment) + k] of the row that the
    [ii]-th run streamed for the channel. *)
Theorem acquire_rounds_buffers n_reps n_expts (n_rounds : Z) ro_chs pts soc threshold
    angle rpe save :
  (1 < n_rounds)%Z ->
  0 < length ro_chs -> 0 < n_reps ->
  (forall k, k < Z.to_nat n_rounds ->
     buffer_shape (soc k).1 (length ro_chs) (n_reps * (n_expts * rpe)) /\
     buffer_shape (soc k).2 (length ro_chs) (n_reps * (n_expts * rpe)) /\
     exists r, round_of n_reps n_expts ro_chs pts soc threshold angle rpe save k = Ok r) ->
  exists res,
    acquire n_reps n_expts (Some n_rounds) ro_chs pts soc threshold angle rpe save
    = Ok res /\
    has_shape (di_buf_p res) (length ro_chs) (n_reps * Z.to_nat n_rounds) (n_expts * rpe) /\
    has_shape (dq_buf_p res) (length ro_chs) (n_reps * Z.to_nat n_rounds) (n_expts * rpe) /\
    forall ii ch rep k,
      ii < Z.to_nat n_rounds -> ch < length ro_chs -> rep < n_reps -> k < n_expts * rpe ->
      entry (di_buf_p res) ch (n_reps * ii + rep) k
      = entry2 (soc ii).1 ch (rep * (n_expts * rpe) + k) /\
      entry (dq_buf_p res) ch (n_reps * ii + rep) k
      = entry2 (soc ii).2 ch (rep * (n_expts * rpe) + k).
Proof.
  intros HR Hro Hreps Hall.
  set (m := n_expts * rpe) in *. set (n_ro := length ro_chs) in *.
  set (tot := n_reps * Z.to_nat n_rounds).
  set (round := round_of n_reps n_expts ro_chs pts soc threshold angle rpe save).
  set (P := fun (i : nat) (st : option (list (list R) * list (list (list R))
                                          * list (list (list R)))
                                * (list (list (list R)) * list (list (list R)))) =>
              has_shape st.2.1 n_ro tot m /\ has_shape st.2.2 n_ro tot m /\
              forall ii ch rep k, ii < i -> ch < n_ro -> rep < n_reps -> k < m ->
                entry st.2.1 ch (n_reps * ii + rep) k = entry2 (soc ii).1 ch (rep * m + k) /\
                entry st.2.2 ch (n_reps * ii + rep) k = entry2 (soc ii).2 ch (rep * m + k)).
  edestruct (acquire_loop_total round n_ro n_reps m (seq 0 (Z.to_nat n_rounds))
               (None, (zeros3 n_ro tot m, zeros3 n_ro tot m)))
    as [st Hfold]; [done | done | |].
  { intros k Hk. apply elem_of_seq in Hk.
    destruct (Hall k) as (Hbi & Hbq & r & Hr); [lia|].
    exists r. split; [done|].
    destruct (acquire_round_bufs _ _ _ _ _ _ _ _ _ _ _ Hr) as [-> ->]. done. }
  assert (P (0 + Z.to_nat n_rounds) st) as (Hsi & Hsq & Hent).
  { revert Hfold. apply foldM_seq_inv.
    - split; [apply zeros3_shape|]. split; [apply zeros3_shape|]. intros; lia.
    - intros i s1 s2 Hi (Hs1 & Hs2 & He) Hstep. unfold acquire_step in Hstep.
      destruct (round i) as [r|] eqn:Hr; simpl in Hstep; [|done].
      destruct (reshape_reps (di_buf r) n_ro n_reps) as [bi|] eqn:Hbi; simpl in Hstep; [|done].
      destruct (reshape_reps (dq_buf r) n_ro n_reps) as [bq|] eqn:Hbq; simpl in Hstep; [|done].
      injection Hstep as <-. cbn [fst snd].
      destruct (acquire_round_bufs _ _ _ _ _ _ _ _ _ _ _ Hr) as [Hdi Hdq].
      rewrite Hdi in Hbi. rewrite Hdq in Hbq.
      destruct (Hall i) as (Hshi & Hshq & _); [lia|].
      destruct (reshape_reps_entry _ _ _ _ _ Hbi Hshi Hreps) as [Hbsi Hbei].
      destruct (reshape_reps_entry _ _ _ _ _ Hbq Hshq Hreps) as [Hbsq Hbeq].
      assert (n_reps * i + n_reps <= tot) as Hfit by (unfold tot; nia).
      destruct (store_rows_entry _ _ _ _ _ _ _ Hs1 Hbsi Hfit) as [Hn1 Hl1].
      destruct (store_rows_entry _ _ _ _ _ _ _ Hs2 Hbsq Hfit) as [Hn2 Hl2].
      split; [done|]. split; [done|].
      intros ii ch rep k Hii Hch Hrep Hk. rewrite Hl1, Hl2.
      destruct (decide (ii = i)) as [->|Hne].
      + rewrite !decide_True by lia.
        replace (n_reps * i + rep - n_reps * i) with rep by lia.
        split; [by apply Hbei | by apply Hbeq].
      + rewrite !decide_False by nia. apply He; [lia | done | done | done]. }
  assert (acquire n_reps n_expts (Some n_rounds) ro_chs pts soc threshold angle rpe save
          = match st.1 with
            | None => Raise UnboundLocalError
            | Some (pts', sum_i, sum_q) =>
                Ok {| acq_expt_pts := pts'; acq_avg_di := div3 sum_i (IZR n_rounds);
                      acq_avg_dq := div3 sum_q (IZR n_rounds);
                      di_buf_p := st.2.1; dq_buf_p := st.2.2 |}
            end) as Hrun.
  { unfold acquire.
    destruct (Z.of_nat n_reps * n_rounds <? 0)%Z eqn:E; [apply Z.ltb_lt in E; nia|].
    destruct (n_rounds =? 1)%Z eqn:E1; [apply Z.eqb_eq in E1; lia|].
    replace (Z.to_nat (Z.of_nat n_reps * n_rounds)) with (n_reps * Z.to_nat n_rounds)
      by lia.
    unfold round, round_of, angle_list, save_list, n_ro, tot, m in Hfold.
    rewrite Hfold. done. }
  apply acquire_loop in Hfold as (rs & Hrs & Hst). simpl in Hst.
  pose proof (mapM_outcome_length _ _ _ Hrs) as Hlen. rewrite length_seq in Hlen.
  destruct rs as [|r0 rs]; [simpl in Hlen; lia|].
  simpl in Hst.
  destruct (accumulate_sums rs (expt_pts r0) (avg_di r0) (avg_dq r0)) as [p' Hacc].
  rewrite Hacc in Hst. rewrite Hst in Hrun.
  eexists. split; [exact Hrun|]. simpl. split; [done|]. split; [done|].
  intros ii ch rep k Hii Hch Hrep Hk. by apply Hent.
Qed.

(** X16.  A number of rounds that is zero or negative never gives a
    result: with a repetition and a negative number the buffers cannot be
    allocated ([ValueError]), otherwise the loop over the rounds does not
    run and the values to return were never assigned
    ([UnboundLocalError]).  No round is run in either case. *)
Theorem acquire_no_round n_reps n_expts (n_rounds : Z) ro_chs pts soc threshold angle rpe
    save :
  (n_rounds <= 0)%Z ->
  acquire n_reps n_expts (Some n_rounds) ro_chs pts soc threshold angle rpe save
  = Raise (if decide ((n_rounds < 0)%Z /\ 0 < n_reps) then ValueError
           else UnboundLocalError).
Proof.
  intros Hn. unfold acquire.
  destruct (decide ((n_rounds < 0)%Z /\ 0 < n_reps)) as [[Hneg Hreps]|Hno].
  - destruct (Z.of_nat n_reps * n_rounds <? 0)%Z eqn:E; [done|].
    apply Z.ltb_ge in E. nia.
  - destruct (Z.of_nat n_reps * n_rounds <? 0)%Z eqn:E.
    { apply Z.ltb_lt in E. exfalso. apply Hno. split; nia. }
    destruct (n_rounds =? 1)%Z eqn:E1; [apply Z.eqb_eq in E1; lia|].
    replace (Z.to_nat n_rounds) with 0 by lia. reflexivity.
Qed.

End Buffers.

(** ** Saved measurements out of range *)

Section SavedIndex.
#[local] Open Scope nat_scope.

Lemma foldM_cases {A St} (f : St -> A -> outcome St) (l : list A) e :
  (forall s x, x ∈ l -> f s x = Raise e \/ exists s', f s x = Ok s') ->
  forall s, foldM f l s = Raise e \/ exists s', foldM f l s = Ok s'.
Proof.
  induction l as [|y l IH]; intros Hall s; simpl; [eauto|].
  destruct (Hall s y) as [->|[s1 ->]]; [apply list_elem_of_here | by left |]. simpl.
  apply IH. intros s2 x Hx. apply Hall. by apply list_elem_of_further.
Qed.

Lemma foldM_raise {A St} (f : St -> A -> outcome St) (l : list A) e x :
  (forall s y, y ∈ l -> f s y = Raise e \/ exists s', f s y = Ok s') ->
  x ∈ l -> (forall s, f s x = Raise e) ->
  forall s, foldM f l s = Raise e.
Proof.
  induction l as [|y l IH]; intros Hall Hx Hfx s; [by apply not_elem_of_nil in Hx|].
  simpl. destruct (Hall s y) as [->|[s1 Hy]]; [apply list_elem_of_here | done |].
  rewrite Hy. simpl.
  apply elem_of_cons in Hx as [->|Hx]; [rewrite Hfx in Hy; done|].
  apply IH; [|done|done]. intros s2 z Hz. apply Hall. by apply list_elem_of_further.
Qed.

Lemma reduce_row_cases buf ii rpe n_reps n_expts :
  reduce_row buf ii rpe n_reps n_expts = Raise ValueError
  \/ exists v, reduce_row buf ii rpe n_reps n_expts = Ok v.
Proof.
  unfold reduce_row, strided, reshape.
  destruct (decide (rpe = 0)); simpl; [by left|].
  destruct (decide (_ = _)); simpl; eauto.
Qed.

Lemma reduce_row_out_of_range buf ii rpe n_reps n_expts :
  length buf = n_reps * n_expts * rpe -> 0 < n_reps * n_expts ->
  (Z.of_nat rpe <= ii)%Z ->
  reduce_row buf ii rpe n_reps n_expts = Raise ValueError.
Proof.
  intros Hlen HN Hii. unfold reduce_row, strided.
  destruct (decide (rpe = 0)) as [|Hrpe]; simpl; [done|].
  unfold reshape. destruct (decide (_ = _)) as [Hl|]; simpl; [|done].
  exfalso.
  assert (is_Some (every_nth rpe 0 (drop (slice_start (length buf) ii) buf)
                     !! (n_reps * n_expts - 1))) as [x Hx].
  { apply lookup_lt_is_Some. rewrite Hl. lia. }
  rewrite every_nth_lookup, lookup_drop in Hx by lia.
  apply lookup_lt_Some in Hx.
  assert (rpe <= slice_start (length buf) ii).
  { unfold slice_start. destruct (ii <? 0)%Z eqn:E; [apply Z.ltb_lt in E; lia|].
    rewrite Hlen. apply Nat.min_glb; [lia|].
    rewrite <- (Nat.mul_1_l rpe) at 1. apply Nat.mul_le_mono_r. lia. }
  set (st := slice_start (length buf) ii) in *.
  rewrite Hlen in Hx. clear Hl Hlen. simpl in Hx.
  destruct (n_reps * n_expts) as [|N]; [lia|].
  replace (S N - 1) with N in Hx by lia. simpl in Hx. lia.
Qed.

Lemma store_average_cases zero d_i d_q rpe n_reps n_expts nn ii s c ro n_ro total :
  buffer_shape d_i n_ro total -> buffer_shape d_q n_ro total -> c < n_ro ->
  store_average None zero d_i d_q rpe n_reps n_expts nn ii s (c, ro) = Raise ValueError
  \/ exists s', store_average None zero d_i d_q rpe n_reps n_expts nn ii s (c, ro) = Ok s'.
Proof.
  intros [Hli _] [Hlq _] Hc. unfold store_average, item. simpl.
  destruct (lookup_lt_is_Some_2 d_i c) as [bi ->]; [lia|]. simpl.
  destruct (reduce_row_cases bi ii rpe n_reps n_expts) as [->|[ri ->]]; simpl; [by left|].
  destruct (lookup_lt_is_Some_2 d_q c) as [bq ->]; [lia|]. simpl.
  destruct (reduce_row_cases bq ii rpe n_reps n_expts) as [->|[rq ->]]; simpl; [by left|].
  eauto.
Qed.

(** X17.  A saved measurement index that is not below
    [readouts_per_experiment] leaves too few samples in the slice for the
    shape (reps, expts): when there is a readout channel and a point to
    average, the round raises [ValueError] and returns no averages, also
    when the other saved indices are in range. *)
Theorem acquire_round_saved_index_too_large n_reps n_expts ro_chs pts d_i d_q angle rpe
    save ii :
  0 < length ro_chs -> 0 < n_reps * n_expts ->
  buffer_shape d_i (length ro_chs) (n_reps * n_expts * rpe) ->
  buffer_shape d_q (length ro_chs) (n_reps * n_expts * rpe) ->
  ii ∈ save_list save -> (Z.of_nat rpe <= ii)%Z ->
  acquire_round n_reps n_expts ro_chs pts d_i d_q None angle rpe save = Raise ValueError.
Proof.
  intros Hro HN Hdi Hdq Hin Hii. rewrite acquire_round_None_eq.
  set (zero := zeros3 _ _ _).
  apply list_elem_of_lookup in Hin as [nn Hnn].
  destruct (lookup_lt_is_Some_2 ro_chs 0 Hro) as [ro Hro0].
  assert (forall (nn' : nat) (ii' : Z) s,
            foldM (store_average None zero d_i d_q rpe n_reps n_expts nn' ii')
              (enumerate ro_chs) s = Raise ValueError
            \/ exists s', foldM (store_average None zero d_i d_q rpe n_reps n_expts nn' ii')
                            (enumerate ro_chs) s = Ok s') as Hinner.
  { intros nn' ii' s. apply foldM_cases. intros s1 [c ro'] Hc.
    apply elem_of_enumerate in Hc. apply lookup_lt_Some in Hc.
    by eapply store_average_cases. }
  rewrite (foldM_raise _ _ ValueError (nn, ii)); [done | | |].
  - intros s [nn' ii'] _. apply Hinner.
  - by apply elem_of_enumerate.
  - intros s. simpl.
    apply (foldM_raise _ _ ValueError (0, ro)).
    + intros s1 [c ro'] Hc. apply elem_of_enumerate in Hc. apply lookup_lt_Some in Hc.
      by eapply store_average_cases.
    + by apply elem_of_enumerate.
    + intros s1. unfold store_average, item. simpl.
      destruct Hdi as [Hli Hai]. rewrite Forall_lookup in Hai.
      destruct (lookup_lt_is_Some_2 d_i 0) as [bi Hbi]; [lia|]. rewrite Hbi. simpl.
      rewrite reduce_row_out_of_range; [done | by apply (Hai 0) | done | done].
Qed.

End SavedIndex.

(** ** Examples of the further properties *)

Section MoreExamples.

Lemma demo_regs_ok : regs_ok (_user_regs (demo_prog 2)).
Proof.
  split.
  - refine (bool_decide_unpack _ _). vm_compute. exact I.
  - repeat constructor; simpl; lia.
Qed.

Lemma new_reg_keeps_regs_ok_witness :
  regs_ok (_user_regs (new_reg (api := demo_api) "q" None None None (demo_prog 2)).1) /\
  forall page,
    (length (filter (fun x => x.1 = page)
               (_user_regs (new_reg (api := demo_api) "q" None None None (demo_prog 2)).1))
     <= 12)%nat.
Proof.
  exact (new_reg_keeps_regs_ok (api := demo_api) (demo_prog 2) "q" None None None
           demo_regs_ok).
Defined.

Lemma demo_fresh_new_reg :
  exists p', new_reg (api := demo_api) "q" (Some "x") (Some 0%R) None demo_fresh
             = (p', Ok (demo_reg 1 "x")).
Proof. eexists. vm_compute. reflexivity. Qed.

Lemma new_reg_stores_register_witness :
  exists p',
    new_reg (api := demo_api) "q" (Some "x") (Some 0%R) None demo_fresh
    = (p', Ok (demo_reg 1 "x")) /\
    (user_reg_dict p' !! "q" ≫= fun t => t !! "x") = Some (demo_reg 1 "x") /\
    prog_list p' = [safe_regwi 0 1 5].
Proof.
  destruct demo_fresh_new_reg as [p' Hrun]. exists p'. split; [exact Hrun|].
  destruct (new_reg_stores_register (api := demo_api) demo_fresh "q" (Some "x")
              (Some 0%R) None p' (demo_reg 1 "x") Hrun)
    as (d & _ & _ & _ & _ & Hreg & _ & _ & _ & _ & Hlist & _).
  split; [exact Hreg | exact Hlist].
Defined.

Lemma new_reg_rejected_name_consumes_address_witness :
  exists addr p',
    new_reg (api := demo_api) "q" (Some "r") None None (demo_prog 2)
    = (p', Raise KeyError) /\
    addr = 3 /\
    _user_regs p' = _user_regs (demo_prog 2) ++ [(0, addr)] /\
    user_reg_dict p' = user_reg_dict (demo_prog 2).
Proof.
  destruct (new_reg_rejected_name_consumes_address (api := demo_api) (demo_prog 2) "q" "r"
              None None 0 eq_refl demo_prog_not_full (demo_name_taken 2))
    as (addr & p' & Hrun & _ & _ & _ & _ & Hregs & Hdict & _).
  exists addr, p'. split; [exact Hrun|].
  split; [|split; [exact Hregs | exact Hdict]].
  assert (new_reg (api := demo_api) "q" (Some "r") None None (demo_prog 2)
          = (set_user_regs (fun l => l ++ [(0, 3)]) (demo_prog 2), Raise KeyError)) as Hc
    by (vm_compute; reflexivity).
  rewrite Hc in Hrun. injection Hrun as <-. simpl in Hregs.
  injection Hregs as Ha. symmetry. exact Ha.
Defined.

Lemma new_regs_in_order_witness :
  exists p' regs,
    new_regs (api := demo_api) "q" None None 3 demo_fresh = (p', Ok regs) /\
    map reg_addr regs = [1; 2; 3] /\
    map reg_name regs = [Some "reg_1"; Some "reg_2"; Some "reg_3"].
Proof.
  destruct (new_regs_in_order (api := demo_api) demo_fresh "q" 0 None None 3)
    as (p' & regs & Hrun & Haddr & Hname & _).
  - reflexivity.
  - intros a Hin. by apply not_elem_of_nil in Hin.
  - reflexivity.
  - lia.
  - exists p', regs. split; [exact Hrun|]. split; [exact Haddr | exact Hname].
Defined.

Lemma demo_two_gens_plain : Forall (fun kv => plain_entry kv.2) (gen_chs demo_two_gens).
Proof.
  repeat constructor; intros [[x Hx] _]; vm_compute in Hx; discriminate.
Qed.

Lemma demo_two_gens_keys : NoDup (gen_chs demo_two_gens).*1.
Proof. refine (bool_decide_unpack _ _). vm_compute. exact I. Qed.

Lemma declare_all_gens_plain_witness :
  exists p',
    declare_all_gens demo_two_gens = (p', Ok tt) /\
    declared_gens p'
    = [ {| call_args := []; call_kws := {["ch" := VInt 0; "nqz" := VInt 2]} |};
        {| call_args := []; call_kws := {["ch" := VInt 1]} |} ] /\
    gen_chs p' = gen_chs demo_two_gens.
Proof.
  destruct (declare_all_gens_plain demo_two_gens demo_two_gens_keys demo_two_gens_plain)
    as (p' & Hrun & Hdecl & Hcfg & _).
  exists p'. split; [exact Hrun|]. split; [exact Hdecl | exact Hcfg].
Defined.

Lemma declare_one_gen_iq_pops_config_witness :
  exists p' p'',
    declare_one_gen "q" demo_iq_full = (p', Ok tt) /\
    declared_gens p'
    = [ {| call_args := [VInt 0]; call_kws := {["nqz" := VInt 2]} |};
        {| call_args := [VInt 1]; call_kws := {["nqz" := VInt 2]} |} ] /\
    declare_one_gen "q" p' = (p'', Ok tt) /\
    declared_gens p'' = declared_gens p' ++ [ {| call_args := []; call_kws := {["nqz" := VInt 2]} |} ].
Proof.
  destruct (declare_one_gen_iq_pops_config demo_iq_full "q"
              {["ch_I" := VInt 0; "ch_Q" := VInt 1; "skew_phase" := VInt 90;
                "IQ_scale" := VInt 1; "nqz" := VInt 2]} (VInt 0) (VInt 1))
    as (p' & p'' & Hrun & Hdecl & _ & _ & _ & Hrun2 & Hdecl2).
  - vm_compute; reflexivity.
  - vm_compute; reflexivity.
  - vm_compute; reflexivity.
  - eexists. vm_compute. reflexivity.
  - eexists. vm_compute. reflexivity.
  - exists p', p''. split; [exact Hrun|]. split.
    + rewrite Hdecl. vm_compute. reflexivity.
    + split; [exact Hrun2|]. rewrite Hdecl2. f_equal; vm_compute; reflexivity.
Defined.

Lemma demo_linear_constructed : constructed (api := demo_api) demo_linear.
Proof. exists (demo_reg 1 "a"), 0%R, 1%R, 3. reflexivity. Qed.

Lemma get_expt_pts_grid_witness :
  exists p' pts,
    for_each [demo_linear; demo_linear] add_sweep (no_sweeps (demo_prog 0)) = (p', Ok tt) /\
    get_expt_pts p' = (p', Ok pts) /\
    length pts = 2%nat /\
    expts p' = Some (product (map (fun a => Z.of_nat (length a)) pts)).
Proof.
  destruct (get_expt_pts_grid (api := demo_api) (demo_prog 0) [demo_linear; demo_linear])
    as (p' & pts & Hrun & Hpts & Hlen & _ & Hexpts).
  - repeat constructor; apply demo_linear_constructed.
  - exists p', pts. split; [exact Hrun|]. split; [exact Hpts|].
    split; [exact Hlen | exact Hexpts].
Defined.

Lemma make_program_without_reps_witness :
  make_program (api := demo_api) (demo_initialize demo_two) demo_body demo_no_reps
  = (append_code [regwi 0 13 0] (demo_initialize demo_two demo_no_reps).1,
     Raise KeyError).
Proof.
  apply (make_program_without_reps (api := demo_api)).
  - vm_compute; reflexivity.
  - vm_compute; reflexivity.
  - vm_compute; lia.
Defined.

Lemma make_program_sweep_without_init_val_witness :
  (make_program (api := demo_api)
     (demo_initialize [demo_sweep "a" 1 5; demo_bare_sweep; demo_sweep "b" 2 3])
     demo_body (no_sweeps (demo_prog 0))).2 = Raise TypeError.
Proof.
  rewrite (make_program_sweep_without_init_val (api := demo_api)
             (demo_initialize [demo_sweep "a" 1 5; demo_bare_sweep; demo_sweep "b" 2 3])
             demo_body (no_sweeps (demo_prog 0))
             (demo_after [demo_sweep "a" 1 5; demo_bare_sweep; demo_sweep "b" 2 3])
             10 1 demo_bare_sweep).
  - reflexivity.
  - vm_compute; reflexivity.
  - vm_compute; reflexivity.
  - vm_compute; lia.
  - vm_compute; reflexivity.
  - reflexivity.
  - vm_compute. repeat constructor. eexists. reflexivity.
Defined.

Lemma make_program_labels_witness :
  exists code,
    make_program (api := demo_api) (demo_initialize demo_two) demo_body
      (no_sweeps (demo_prog 0)) = (append_code code (demo_after demo_two), Ok tt) /\
    labels_of code = ["LOOP_rep"; "LOOP_b"; "LOOP_a"].
Proof.
  destruct (make_program_labels (api := demo_api) (demo_initialize demo_two) demo_body
              [user_instr "pulse"] (no_sweeps (demo_prog 0)) (demo_after demo_two) 10)
    as (code & Hrun & Hlab & _).
  - vm_compute; reflexivity.
  - vm_compute; reflexivity.
  - vm_compute; lia.
  - repeat constructor; apply demo_has_init_val.
  - apply demo_body_emits.
  - reflexivity.
  - exists code. split; [exact Hrun|]. rewrite Hlab. vm_compute. reflexivity.
Defined.

Lemma demo_buf3_shape : buffer_shape demo_buf3 (length demo_ro3) 1.
Proof. split; [done|]. by repeat constructor. Qed.

Lemma acquire_round_threshold_two_channels_witness :
  acquire_round 1 1 demo_ro3 [] demo_buf3 demo_buf3 (Some (ThrInt 0)) None 1 None
  = Raise IndexError.
Proof.
  apply (acquire_round_threshold_two_channels 1 1 demo_ro3 [] demo_buf3 demo_buf3
           (ThrInt 0) None 1 None 1).
  - simpl. lia.
  - apply demo_buf3_shape.
  - apply demo_buf3_shape.
  - by left.
Defined.

Lemma acquire_round_thresholded_witness :
  exists round sh,
    acquire_round 2 2 demo_ro2 [] demo_buf_i demo_buf_q (Some (ThrInt 0)) None 1 None
    = Ok round /\
    shots round = Some sh /\
    avg_dq round = zeros3 1 1 2 /\
    has_shape (avg_di round) 1 1 2.
Proof.
  destruct (acquire_round_thresholded 2 2 demo_ro2 [] demo_buf_i demo_buf_q (ThrInt 0)
              None 1 None)
    as (round & sh & Hrun & Hsh & _ & Hq & Hi & _).
  - lia.
  - exact (demo_buf_shape [1; 2; 3; 4]%R eq_refl).
  - exact (demo_buf_shape [5; 6; 7; 8]%R eq_refl).
  - simpl. lia.
  - simpl. lia.
  - apply demo_save.
  - exists round, sh. split; [exact Hrun|]. split; [exact Hsh|].
    split; [exact Hq | exact Hi].
Defined.

Lemma demo_soc_shape k :
  buffer_shape (demo_soc k).1 (length demo_ro2) (2 * (2 * 1)) /\
  buffer_shape (demo_soc k).2 (length demo_ro2) (2 * (2 * 1)).
Proof.
  split; [exact (demo_buf_shape [1; 2; 3; 4]%R eq_refl)
         | exact (demo_buf_shape [5; 6; 7; 8]%R eq_refl)].
Qed.

Lemma acquire_single_round_witness :
  exists res,
    acquire 2 2 None demo_ro2 [] demo_soc None None 1 None = Ok res /\
    entry (di_buf_p res) 0 1 0 = Some 3%R /\
    entry (dq_buf_p res) 0 1 1 = Some 8%R.
Proof.
  destruct (demo_round_returns 0) as [r Hr].
  destruct (acquire_single_round 2 2 None demo_ro2 [] demo_soc None None 1 None r)
    as (res & Hrun & _ & _ & _ & _ & _ & Hent).
  - by left.
  - simpl. lia.
  - lia.
  - exact Hr.
  - apply demo_soc_shape.
  - apply demo_soc_shape.
  - exists res. split; [exact Hrun|].
    destruct (Hent 0%nat 1%nat 0%nat) as [Hi _]; [simpl; lia | lia | lia |].
    destruct (Hent 0%nat 1%nat 1%nat) as [_ Hq]; [simpl; lia | lia | lia |].
    split; [exact Hi | exact Hq].
Defined.

Lemma acquire_rounds_buffers_witness :
  exists res,
    acquire 2 2 (Some 3) demo_ro2 [] demo_soc None None 1 None = Ok res /\
    has_shape (di_buf_p res) 1 6 2 /\
    entry (di_buf_p res) 0 5 1 = Some 4%R.
Proof.
  destruct (acquire_rounds_buffers 2 2 3 demo_ro2 [] demo_soc None None 1 None)
    as (res & Hrun & Hshape & _ & Hent).
  - lia.
  - simpl. lia.
  - lia.
  - intros k _. split; [apply demo_soc_shape|]. split; [apply demo_soc_shape|].
    apply demo_round_returns.
  - exists res. split; [exact Hrun|]. split; [exact Hshape|].
    destruct (Hent 2%nat 0%nat 1%nat 1%nat) as [Hi _]; [lia | simpl; lia | lia | lia |].
    exact Hi.
Defined.

Lemma acquire_no_round_witness :
  acquire 2 2 (Some 0) demo_ro2 [] demo_soc None None 1 None = Raise UnboundLocalError /\
  acquire 2 2 (Some (-1)) demo_ro2 [] demo_soc None None 1 None = Raise ValueError.
Proof.
  split.
  - exact (acquire_no_round 2 2 0 demo_ro2 [] demo_soc None None 1 None (Z.le_refl 0)).
  - apply (acquire_no_round 2 2 (-1) demo_ro2 [] demo_soc None None 1 None). lia.
Defined.

Lemma acquire_round_saved_index_too_large_witness :
  acquire_round 2 2 demo_ro2 [] demo_buf_i demo_buf_q None None 1 (Some [0; 1])
  = Raise ValueError.
Proof.
  apply (acquire_round_saved_index_too_large 2 2 demo_ro2 [] demo_buf_i demo_buf_q None 1
           (Some [0; 1]) 1).
  - simpl. lia.
  - lia.
  - exact (demo_buf_shape [1; 2; 3; 4]%R eq_refl).
  - exact (demo_buf_shape [5; 6; 7; 8]%R eq_refl).
  - simpl. set_solver.
  - lia.
Defined.

End MoreExamples.

(** * Properties of the waveform envelopes *)

Section PulseEnvelopes.
#[local] Open Scope R_scope.

Lemma Zceil_pos len : 0 < len -> (1 <= Zceil len)%Z.
Proof.
  intros H. pose proof (Zceil_bound len) as [_ Hb].
  assert (0 < IZR (Zceil len)) as H0 by lra.
  apply lt_IZR in H0. lia.
Qed.

Lemma Zceil_nonpos len : len <= 0 -> (Zceil len <= 0)%Z.
Proof.
  intros H. pose proof (Zceil_bound len) as [Hb _].
  assert (IZR (Zceil len) < 1) as H0 by lra.
  apply lt_IZR in H0. lia.
Qed.

Lemma np_arange_length len : length (np_arange len) = Z.to_nat (Zceil len).
Proof. unfold np_arange. by rewrite length_map, length_seq. Qed.

Lemma np_arange_lookup len (k : nat) :
  (k < Z.to_nat (Zceil len))%nat -> np_arange len !! k = Some (INR k).
Proof.
  intros Hk. unfold np_arange. by rewrite list_lookup_fmap, lookup_seq_lt.
Qed.

Lemma foldl_Rmin_spec (l : list R) : forall v,
  foldl Rmin v l ∈ v :: l /\ Forall (fun x => foldl Rmin v l <= x) (v :: l).
Proof.
  induction l as [|x l IH]; intros v; simpl.
  - split; [apply list_elem_of_here|]. apply Forall_cons. split; [lra | apply Forall_nil_2].
  - destruct (IH (Rmin v x)) as [Hin Hle]. split.
    + apply elem_of_cons in Hin as [Heq|Hin].
      * rewrite Heq. unfold Rmin. destruct (Rle_dec v x).
        -- apply list_elem_of_here.
        -- apply list_elem_of_further, list_elem_of_here.
      * by do 2 apply list_elem_of_further.
    + apply Forall_cons in Hle as [Hm Hl].
      pose proof (Rmin_l v x). pose proof (Rmin_r v x).
      apply Forall_cons. split; [lra|]. apply Forall_cons. split; [lra | done].
Qed.

Lemma np_min_spec (y : list R) :
  y <> [] -> exists m, np_min y = Ok m /\ m ∈ y /\ Forall (fun v => m <= v) y.
Proof.
  destruct y as [|v y]; [done|]. intros _. eexists. split; [reflexivity|].
  apply foldl_Rmin_spec.
Qed.

Lemma sub_min_zero_based (y : list R) m :
  m ∈ y -> Forall (fun v => m <= v) y -> zero_based (map (fun v => v - m) y).
Proof.
  intros Hin Hle. split.
  - apply Forall_fmap. eapply Forall_impl; [exact Hle|]. simpl. intros v Hv. lra.
  - apply list_elem_of_fmap. exists m. split; [lra | done].
Qed.

Lemma exp_le_1 a : a <= 0 -> 0 < exp a <= 1.
Proof.
  intros Ha. split; [apply exp_pos|].
  destruct (Req_dec a 0) as [->|Hne]; [rewrite exp_0; lra|].
  rewrite <- exp_0. left. apply exp_increasing. lra.
Qed.

Lemma gaussian_exponent d s : s <> 0 -> (- (d ^ 2)) / s ^ 2 <= 0.
Proof.
  intros Hs. assert (0 < s ^ 2) as Hpos.
  { rewrite <- Rsqr_pow2. by apply Rsqr_pos_lt. }
  pose proof (pow2_ge_0 d). unfold Rdiv.
  assert (0 < / s ^ 2) by (by apply Rinv_0_lt_compat). nra.
Qed.

(** X18.  [gaussian] with a positive peak value and a width that is not
    zero: a length that is not positive raises [ValueError] (there is no
    minimum to subtract); a positive length gives the integer points
    below it, every sample is at least 0 and at most [maxv], one of them
    is exactly 0, and for a whole number of points the waveform is the
    same read from sample 1 forwards and from the last sample backwards. *)
Theorem gaussian_range sigma len maxv :
  0 < maxv -> sigma <> 0 ->
  (len <= 0 -> gaussian sigma len maxv = Raise ValueError) /\
  (0 < len ->
   exists wf,
     gaussian sigma len maxv = Ok wf /\
     length wf = Z.to_nat (Zceil len) /\
     zero_based wf /\
     Forall (fun v => 0 <= v <= maxv) wf /\
     forall n k : nat, len = INR n -> (1 <= k < n)%nat -> wf !! k = wf !! (n - k)%nat).
Proof.
  intros Hmaxv Hsigma. split.
  - intros Hlen. unfold gaussian, np_arange.
    replace (Z.to_nat (Zceil len)) with 0%nat by (pose proof (Zceil_nonpos len Hlen); lia).
    reflexivity.
  - intros Hlen. unfold gaussian.
    set (y := map (fun x => maxv * exp ((- ((x - len / 2) ^ 2)) / sigma ^ 2)) (np_arange len)).
    assert (length y = Z.to_nat (Zceil len)) as Hly
      by (unfold y; by rewrite length_map, np_arange_length).
    destruct (np_min_spec y) as (m & Hm & Hin & Hle).
    { intros Hnil. rewrite Hnil in Hly. simpl in Hly.
      pose proof (Zceil_pos len Hlen). lia. }
    rewrite Hm. simpl. eexists. split; [reflexivity|].
    split; [by rewrite length_map|]. split; [by apply sub_min_zero_based|].
    assert (Forall (fun v => 0 < v <= maxv) y) as Hy.
    { unfold y. apply Forall_fmap, Forall_forall. intros x _. unfold compose.
      pose proof (exp_le_1 _ (gaussian_exponent (x - len / 2) sigma Hsigma)) as He.
      set (e := exp _) in *. nra. }
    split.
    + rewrite Forall_forall in Hy. pose proof (Hy m Hin) as Hm0.
      apply Forall_fmap, Forall_forall. intros v Hv. simpl.
      pose proof (Hy v Hv). rewrite Forall_forall in Hle. pose proof (Hle v Hv). lra.
    + intros n k -> Hk. rewrite !list_lookup_fmap. unfold y.
      rewrite !list_lookup_fmap.
      assert (Z.to_nat (Zceil (INR n)) = n) as Hn.
      { rewrite INR_IZR_INZ. rewrite (Zceil_eq (Z.of_nat n)); [lia | lra]. }
      rewrite !np_arange_lookup by (rewrite Hn; lia). simpl. do 3 f_equal.
      rewrite minus_INR by lia. f_equal. f_equal. nra.
Qed.

Lemma tanh_opp x : tanh (- x) = - tanh x.
Proof.
  unfold tanh, sinh, cosh. rewrite Ropp_involutive.
  pose proof (exp_pos x). pose proof (exp_pos (- x)). field. lra.
Qed.

(** X19.  [tanh_box] subtracts its minimum: when it returns, every
    sample is at least 0 and one of them is exactly 0; it returns for a
    positive length, with the integer points below it, and raises
    [ValueError] otherwise.  For a whole number of points the waveform is
    the same read from sample 1 forwards and from the last sample
    backwards. *)
Theorem tanh_box_zero_based len ramp_width cut_offset maxv :
  ramp_width <> 0 -> 0 < cut_offset < 1 ->
  (len <= 0 -> tanh_box len ramp_width cut_offset maxv = Raise ValueError) /\
  (0 < len ->
   exists wf,
     tanh_box len ramp_width cut_offset maxv = Ok wf /\
     length wf = Z.to_nat (Zceil len) /\
     zero_based wf /\
     forall n k : nat, len = INR n -> (1 <= k < n)%nat -> wf !! k = wf !! (n - k)%nat).
Proof.
  intros _ _. split.
  - intros Hlen. unfold tanh_box, np_arange.
    replace (Z.to_nat (Zceil len)) with 0%nat by (pose proof (Zceil_nonpos len Hlen); lia).
    reflexivity.
  - intros Hlen. unfold tanh_box.
    set (c0_ := arctanh (2 * cut_offset - 1)).
    set (k_ := (arctanh (2 * 0.95 - 1) - c0_) / ramp_width).
    set (y := map _ (np_arange len)).
    assert (length y = Z.to_nat (Zceil len)) as Hly
      by (unfold y; by rewrite length_map, np_arange_length).
    destruct (np_min_spec y) as (m & Hm & Hin & Hle).
    { intros Hnil. rewrite Hnil in Hly. simpl in Hly.
      pose proof (Zceil_pos len Hlen). lia. }
    rewrite Hm. simpl. eexists. split; [reflexivity|].
    split; [by rewrite length_map|]. split; [by apply sub_min_zero_based|].
    intros n k -> Hk. rewrite !list_lookup_fmap. unfold y.
    rewrite !list_lookup_fmap.
    assert (Z.to_nat (Zceil (INR n)) = n) as Hn.
    { rewrite INR_IZR_INZ. rewrite (Zceil_eq (Z.of_nat n)); [lia | lra]. }
    rewrite !np_arange_lookup by (rewrite Hn; lia). simpl. do 2 f_equal.
    rewrite minus_INR by lia.
    replace (k_ * (INR k - INR n) - c0_) with (- (k_ * (INR n - INR k) + c0_)) by lra.
    replace (k_ * (INR n - INR k - INR n) - c0_) with (- (k_ * INR k + c0_)) by lra.
    rewrite !tanh_opp. lra.
Qed.

End PulseEnvelopes.

(** * Properties of the pulses handed to qick *)

Section PulseCalls.
#[local] Open Scope R_scope.

Lemma zero_padding_length (wf : list R) :
  (length (zero_padding wf) < 16)%nat /\
  ((length wf + length (zero_padding wf)) mod 16 = 0)%nat.
Proof.
  unfold zero_padding. rewrite length_replicate.
  set (n := Z.of_nat (length wf)).
  pose proof (Z.mod_pos_bound (16 - n) 16 ltac:(lia)) as Hb.
  split; [lia|].
  apply Nat2Z.inj. rewrite Nat2Z.inj_mod, Nat2Z.inj_add, Z2Nat.id by lia. fold n.
  rewrite Zplus_mod_idemp_r. replace (n + (16 - n))%Z with 16%Z by lia. done.
Qed.

Lemma zero_padding_zero (wf : list R) : Forall (fun v => v = 0) (zero_padding wf).
Proof. unfold zero_padding. by apply Forall_replicate. Qed.

Lemma padded_length (wf : list R) :
  wf <> [] ->
  (16 <= length (wf ++ zero_padding wf))%nat /\
  (length (wf ++ zero_padding wf) mod 16 = 0)%nat.
Proof.
  intros Hne. destruct (zero_padding_length wf) as [_ Hmod].
  rewrite length_app. split; [|done].
  assert (0 < length wf)%nat by (destruct wf; [done | simpl; lia]).
  apply Nat.Div0.div_exact in Hmod. lia.
Qed.

Lemma np_gradient_Ok (f : list R) :
  (2 <= length f)%nat -> exists g, np_gradient f = Ok g /\ length g = length f.
Proof.
  intros H. unfold np_gradient. destruct (decide (length f < 2)%nat); [lia|].
  eexists. split; [reflexivity|]. by rewrite length_map, length_seq.
Qed.

Lemma np_gradient_length (f g : list R) :
  np_gradient f = Ok g -> length g = length f /\ (2 <= length f)%nat.
Proof.
  unfold np_gradient. destruct (decide (length f < 2)%nat); [done|].
  intros [= <-]. rewrite length_map, length_seq. lia.
Qed.

(** X20.  [add_padding] leaves the data as it is and surrounds it with
    zeros.  A number pads only after the data; a list pads before with its
    first entry and after with its second; the numbers of zeros are the
    lengths in samples rounded up.  A padding that rounds to a negative
    number of samples raises [ValueError] and a list with fewer than two
    entries raises [IndexError]. *)
Theorem add_padding_layout data soc_gencfg padding :
  let samples := fun p : R =>
    Zceil (p * f_fabric soc_gencfg * IZR (samps_per_clk soc_gencfg)) in
  (forall p,
     padding = PadNum p ->
     add_padding data soc_gencfg padding
     = if (samples p <? 0)%Z then Raise ValueError
       else Ok (data ++ replicate (Z.to_nat (samples p)) 0)) /\
  (forall a b rest,
     padding = PadList (a :: b :: rest) ->
     add_padding data soc_gencfg padding
     = if (samples a <? 0)%Z then Raise ValueError
       else if (samples b <? 0)%Z then Raise ValueError
       else Ok (replicate (Z.to_nat (samples a)) 0 ++ data
                ++ replicate (Z.to_nat (samples b)) 0)) /\
  (forall l, padding = PadList l -> (length l < 2)%nat ->
     exists e, add_padding data soc_gencfg padding = Raise e /\
               (e = IndexError \/ e = ValueError)) /\
  (forall out,
     add_padding data soc_gencfg padding = Ok out ->
     exists before after,
       out = before ++ data ++ after /\
       Forall (fun v => v = 0) before /\ Forall (fun v => v = 0) after).
Proof.
  intros samples. split_and!.
  - intros p ->. unfold add_padding. simpl.
    replace (Zceil (0 * f_fabric soc_gencfg * IZR (samps_per_clk soc_gencfg))) with 0%Z.
    2:{ symmetry. apply (Zceil_eq 0). lra. }
    simpl. fold (samples p). unfold np_zeros. destruct (samples p <? 0)%Z; done.
  - intros a b rest ->. unfold add_padding. simpl. fold (samples a). fold (samples b).
    unfold np_zeros. destruct (samples a <? 0)%Z; [done|]. simpl.
    destruct (samples b <? 0)%Z; done.
  - intros l -> Hl. unfold add_padding.
    destruct l as [|a [|b rest]]; simpl in *; [eauto | | lia].
    fold (samples a). unfold np_zeros. destruct (samples a <? 0)%Z; simpl; eauto.
  - intros out. unfold add_padding.
    destruct (item _ 0) as [p0|]; simpl; [|done].
    unfold np_zeros at 1. destruct (p0 <? 0)%Z; simpl; [done|].
    destruct (item _ 1) as [p1|]; simpl; [|done].
    unfold np_zeros. destruct (p1 <? 0)%Z; simpl; [done|].
    intros [= <-]. eexists _, _. split; [reflexivity|].
    split; by apply Forall_replicate.
Qed.

(** X21.  Whatever [add_tanh], [add_gaussian] and [add_arbitrary] hand
    to [add_pulse], the I data and the Q data have the same number of
    samples, which is a multiple of 16 and at least 16. *)
Theorem add_pulse_lengths prog gen_ch name call :
  (exists len ramp_width cut_offset phase maxv padding drag,
     add_tanh prog gen_ch name len ramp_width cut_offset phase maxv padding drag = Ok call)
  \/ (exists sigma len phase maxv padding drag,
        add_gaussian prog gen_ch name sigma len phase maxv padding drag = Ok call)
  \/ (exists envelope phase maxv padding drag,
        add_arbitrary prog gen_ch name envelope phase maxv padding drag = Ok call) ->
  length (pulse_idata call) = length (pulse_qdata call) /\
  (16 <= length (pulse_idata call))%nat /\
  (length (pulse_idata call) mod 16 = 0)%nat.
Proof.
  intros [H|[H|H]].
  - destruct H as (len & ramp_width & cut_offset & phase & maxv & padding & drag & H).
    unfold add_tanh in H.
    destruct (channel_of prog gen_ch) as [ch|]; simpl in H; [|done].
    destruct (soc_gen prog ch) as [g|]; simpl in H; [|done].
    destruct (tanh_box _ _ _ _) as [wf0|]; simpl in H; [|done].
    destruct (match padding with Some _ => _ | None => _ end) as [wf|]; simpl in H; [|done].
    destruct (np_gradient _) as [gr|] eqn:Hg; simpl in H; [|done].
    injection H as <-. simpl.
    apply np_gradient_length in Hg as [Hlg H2].
    rewrite !length_zip_with, !length_map, Hlg, Nat.min_id.
    split; [done|]. apply padded_length. intros ->. simpl in H2. lia.
  - destruct H as (sigma & len & phase & maxv & padding & drag & H).
    unfold add_gaussian in H.
    destruct (channel_of prog gen_ch) as [ch|]; simpl in H; [|done].
    destruct (soc_gen prog ch) as [g|]; simpl in H; [|done].
    destruct (gaussian _ _ _) as [wf0|]; simpl in H; [|done].
    destruct (match padding with Some _ => _ | None => _ end) as [wf|]; simpl in H; [|done].
    destruct (np_gradient _) as [gr|] eqn:Hg; simpl in H; [|done].
    injection H as <-. simpl.
    apply np_gradient_length in Hg as [Hlg H2].
    rewrite !length_zip_with, !length_map, Hlg, Nat.min_id.
    split; [done|]. apply padded_length. intros ->. simpl in H2. lia.
  - destruct H as (envelope & phase & maxv & padding & drag & H).
    unfold add_arbitrary in H.
    destruct (channel_of prog gen_ch) as [ch|]; simpl in H; [|done].
    destruct (soc_gen prog ch) as [g|]; simpl in H; [|done].
    destruct (match padding with Some _ => _ | None => _ end) as [wf|]; simpl in H; [|done].
    destruct (np_gradient _) as [gr|] eqn:Hg; simpl in H; [|done].
    injection H as <-. simpl.
    apply np_gradient_length in Hg as [Hlg H2].
    rewrite !length_map, Hlg.
    split; [done|]. apply padded_length. intros ->. simpl in H2. lia.
Qed.


Lemma gaussian_returns sigma len maxv :
  0 < len -> exists wf, gaussian sigma len maxv = Ok wf /\ wf <> [].
Proof.
  intros Hlen. unfold gaussian.
  set (y := map _ (np_arange len)).
  assert (length y = Z.to_nat (Zceil len)) as Hly
    by (unfold y; by rewrite length_map, np_arange_length).
  pose proof (Zceil_pos len Hlen) as Hc.
  destruct (np_min_spec y) as (m & Hm & _).
  { intros Hnil. rewrite Hnil in Hly. simpl in Hly. lia. }
  rewrite Hm. simpl. eexists. split; [reflexivity|].
  intros Hnil. apply (f_equal length) in Hnil. rewrite length_map, Hly in Hnil.
  simpl in Hnil. lia.
Qed.

Lemma gradient_of_padded (wf : list R) :
  wf <> [] ->
  exists g, np_gradient (wf ++ zero_padding wf) = Ok g /\
            length g = length (wf ++ zero_padding wf).
Proof.
  intros Hne. apply np_gradient_Ok. destruct (padded_length wf Hne). lia.
Qed.

(** X22.  [add_gaussian] without padding, for a configured channel, a
    positive length and a width that is not zero, returns for every
    phase.  The phase only rotates the pair (I, Q) of each sample: with
    [(i0, q0)] the sample for phase 0, the sample for [phase] degrees is
    [(cos * i0 - sin * q0, sin * i0 + cos * q0)], so [I^2 + Q^2] does not
    depend on the phase.  Without drag the phase-0 data are the envelope
    followed by zeros, and Q is zero. *)
Theorem add_gaussian_phase prog gen_ch name sigma len phase maxv drag ch g :
  channel_of prog gen_ch = Ok ch ->
  soc_gen prog ch = Ok g ->
  0 < len * f_fabric g * IZR (samps_per_clk g) ->
  sigma <> 0 ->
  exists c0 c wf,
    add_gaussian prog gen_ch name sigma len 0 maxv None drag = Ok c0 /\
    add_gaussian prog gen_ch name sigma len phase maxv None drag = Ok c /\
    pulse_ch c = ch /\ pulse_name c = name /\
    length (pulse_idata c) = length (pulse_idata c0) /\
    (forall (k : nat) i0 q0,
       pulse_idata c0 !! k = Some i0 -> pulse_qdata c0 !! k = Some q0 ->
       let phi := PI / 180 * phase in
       exists i q,
         pulse_idata c !! k = Some i /\ pulse_qdata c !! k = Some q /\
         i = cos phi * i0 - sin phi * q0 /\
         q = sin phi * i0 + cos phi * q0 /\
         i * i + q * q = i0 * i0 + q0 * q0) /\
    gaussian (sigma * f_fabric g * IZR (samps_per_clk g))
      (len * f_fabric g * IZR (samps_per_clk g))
      (match maxv with None => gen_maxv g * gen_maxv_scale g | Some v => v end) = Ok wf /\
    (drag = 0 ->
     pulse_idata c0 = wf ++ zero_padding wf /\
     Forall (fun v => v = 0) (pulse_qdata c0)).
Proof.
  intros Hch Hg Hlen _.
  destruct (gaussian_returns (sigma * f_fabric g * IZR (samps_per_clk g))
              (len * f_fabric g * IZR (samps_per_clk g))
              (match maxv with None => gen_maxv g * gen_maxv_scale g | Some v => v end) Hlen)
    as (wf & Hwf & Hne).
  destruct (gradient_of_padded wf Hne) as (gr & Hgr & Hlgr).
  assert (forall ph,
            add_gaussian prog gen_ch name sigma len ph maxv None drag
            = Ok {| pulse_ch := ch; pulse_name := name;
                    pulse_idata :=
                      zip_with (fun w d => cos (PI / 180 * ph) * w - sin (PI / 180 * ph) * d)
                        (wf ++ zero_padding wf) (map (fun d => - d * drag) gr);
                    pulse_qdata :=
                      zip_with (fun w d => sin (PI / 180 * ph) * w + cos (PI / 180 * ph) * d)
                        (wf ++ zero_padding wf) (map (fun d => - d * drag) gr) |}) as Hrun.
  { intros ph. unfold add_gaussian. rewrite Hch. simpl. rewrite Hg. simpl.
    rewrite Hwf. simpl. rewrite Hgr. reflexivity. }
  eexists _, _, wf. split; [apply Hrun|]. split; [apply Hrun|]. simpl.
  split; [done|]. split; [done|].
  split; [by rewrite !length_zip_with|]. split; [|split; [done|]].
  - intros k i0 q0 Hi0 Hq0. set (phi := PI / 180 * phase).
    apply lookup_zip_with_Some in Hi0 as (w & d & -> & Hw & Hd).
    apply lookup_zip_with_Some in Hq0 as (w' & d' & -> & Hw' & Hd').
    assert (w' = w) as -> by congruence. assert (d' = d) as -> by congruence.
    replace (PI / 180 * 0) with 0 by lra. rewrite cos_0, sin_0.
    eexists _, _. rewrite !lookup_zip_with, Hw, Hd. simpl.
    split; [reflexivity|]. split; [reflexivity|].
    split; [lra|]. split; [lra|].
    pose proof (sin2_cos2 phi) as Hsc. unfold Rsqr in Hsc.
    set (s := sin phi) in *. set (c := cos phi) in *. nra.
  - intros ->. replace (PI / 180 * 0) with 0 by lra. rewrite cos_0, sin_0. split.
    + apply list_eq. intros k. rewrite lookup_zip_with, list_lookup_fmap.
      destruct ((wf ++ zero_padding wf) !! k) as [w|] eqn:Hw; simpl; [|done].
      destruct (lookup_lt_is_Some_2 gr k) as [d ->].
      { rewrite Hlgr. by eapply lookup_lt_Some. }
      simpl. f_equal. lra.
    + apply Forall_lookup. intros k q Hq.
      apply lookup_zip_with_Some in Hq as (w & d & -> & _ & Hd).
      rewrite list_lookup_fmap in Hd. destruct (gr !! k); simpl in Hd; [|done].
      injection Hd as <-. lra.
Qed.

(** X23.  [add_arbitrary] builds the I and Q data from the drag term
    alone.  For a configured channel and an envelope that is not empty,
    without padding and with [drag = 0], it returns for every phase, and
    every sample it hands to [add_pulse] is 0 whatever the envelope; only
    the number of samples, the envelope's length rounded up to a multiple
    of 16, depends on it.  An empty envelope raises [ValueError]. *)
Theorem add_arbitrary_without_drag prog gen_ch name envelope phase maxv ch g :
  channel_of prog gen_ch = Ok ch ->
  soc_gen prog ch = Ok g ->
  (envelope = [] ->
   add_arbitrary prog gen_ch name envelope phase maxv None 0 = Raise ValueError) /\
  (envelope <> [] ->
   exists call,
     add_arbitrary prog gen_ch name envelope phase maxv None 0 = Ok call /\
     pulse_ch call = ch /\ pulse_name call = name /\
     length (pulse_idata call) = length (envelope ++ zero_padding envelope) /\
     length (pulse_qdata call) = length (envelope ++ zero_padding envelope) /\
     Forall (fun v => v = 0) (pulse_idata call) /\
     Forall (fun v => v = 0) (pulse_qdata call)).
Proof.
  intros Hch Hg. split.
  - intros ->. unfold add_arbitrary. rewrite Hch. simpl. rewrite Hg. reflexivity.
  - intros Hne. destruct (gradient_of_padded envelope Hne) as (gr & Hgr & Hlgr).
    unfold add_arbitrary. rewrite Hch. simpl. rewrite Hg. simpl. rewrite Hgr. simpl.
    eexists. split; [reflexivity|]. simpl.
    rewrite !length_map. do 4 (split; [done|]).
    split; apply Forall_fmap, Forall_fmap, Forall_forall; intros d _; simpl; lra.
Qed.

(** The phase at sample [k]: the trapezoid rule on the instantaneous
    frequency. *)
Lemma chirp_loop (f : list R) (sr : R) (m : nat) :
  (m <= length f)%nat ->
  foldl (fun (st : list R * R) (i : nat) =>
           (<[i := st.2]> st.1,
            st.2 + PI * (nth i f 0 + nth (i + 1) f 0) / sr))
        (replicate (length f) 0, 0) (seq 0 m)
  = (map (fun j : nat => if decide (j < m)%nat then trapezoid f sr j else 0)
       (seq 0 (length f)),
     trapezoid f sr m).
Proof.
  induction m as [|m IH]; intros Hm.
  - simpl. f_equal. apply list_eq. intros j.
    rewrite list_lookup_fmap. destruct (decide (j < length f)%nat) as [Hj|Hj].
    + rewrite lookup_replicate_2, lookup_seq_lt by done. done.
    + rewrite (proj1 (lookup_replicate_None _ _ _)) by lia.
      rewrite lookup_seq_ge by lia. done.
  - rewrite seq_S, foldl_app, IH by lia. simpl. f_equal.
    + apply list_eq. intros j. rewrite list_lookup_fmap.
      destruct (decide (j = m)) as [->|Hne].
      * rewrite list_lookup_insert_eq by (rewrite length_map, length_seq; lia).
        rewrite lookup_seq_lt by lia. simpl. rewrite decide_True by lia. done.
      * rewrite list_lookup_insert_ne by done. rewrite list_lookup_fmap.
        destruct (seq 0 (length f) !! j) as [j'|] eqn:Hj; simpl; [|done].
        apply lookup_seq in Hj as [-> _]. simpl.
        destruct (decide (j < m)%nat); destruct (decide (j < S m)%nat); try done; lia.
    + by rewrite Nat.add_1_r.
Qed.

Lemma chirp_phase_lemma (instant_freq : list R) (sampling_rate : R) :
  instant_freq <> [] ->
  exists phase,
    _chirp_phase instant_freq sampling_rate = Ok phase /\
    length phase = length instant_freq /\
    phase !! 0%nat = Some 0 /\
    (forall (k : nat) a b p q,
       instant_freq !! k = Some a -> instant_freq !! S k = Some b ->
       phase !! k = Some p -> phase !! S k = Some q ->
       q - p = PI * (a + b) / sampling_rate) /\
    (forall f0, Forall (fun v => v = f0) instant_freq ->
       forall k : nat, (k < length instant_freq)%nat ->
         phase !! k = Some (2 * PI * f0 * INR k / sampling_rate)).
Proof.
  intros Hne. set (n := length instant_freq).
  assert (0 < n)%nat as Hn by (unfold n; destruct instant_freq; [done | simpl; lia]).
  assert (forall k : nat, (k < n)%nat ->
            (<[(n - 1)%nat := trapezoid instant_freq sampling_rate (n - 1)]>
               (map (fun j : nat => if decide (j < n - 1)%nat
                                    then trapezoid instant_freq sampling_rate j else 0)
                  (seq 0 n))) !! k
            = Some (trapezoid instant_freq sampling_rate k)) as Hlk.
  { intros k Hk. destruct (decide (k = n - 1)%nat) as [->|Hne'].
    - rewrite list_lookup_insert_eq by (rewrite length_map, length_seq; lia). done.
    - rewrite list_lookup_insert_ne by done.
      rewrite list_lookup_fmap, lookup_seq_lt by done. simpl.
      rewrite decide_True by lia. done. }
  unfold _chirp_phase. destruct (decide (length instant_freq = 0%nat)); [lia|].
  rewrite chirp_loop by lia. fold n. cbn [fst snd].
  eexists. split; [reflexivity|].
  split; [by rewrite length_insert, length_map, length_seq|].
  split; [by rewrite Hlk|]. split.
  + intros k a b p q Ha Hb Hp Hq.
    pose proof (lookup_lt_Some _ _ _ Hb) as Hk. fold n in Hk.
    rewrite Hlk in Hp by lia. rewrite Hlk in Hq by lia.
    apply (inj Some) in Hp, Hq. subst p q. simpl.
    rewrite (nth_lookup_Some _ _ _ _ Ha), (nth_lookup_Some _ _ _ _ Hb). lra.
  + intros f0 Hconst k Hk. rewrite Hlk by done. f_equal.
    rewrite Forall_lookup in Hconst.
    assert (forall j : nat, (j < n)%nat -> nth j instant_freq 0 = f0) as Hnth.
    { intros j Hj. destruct (lookup_lt_is_Some_2 instant_freq j Hj) as [v Hv].
      rewrite (nth_lookup_Some _ _ _ _ Hv). by apply (Hconst j). }
    clear Hlk. induction k as [|k IH]; simpl.
    * unfold Rdiv. lra.
    * rewrite IH by lia. rewrite !Hnth by lia.
      destruct k; simpl; unfold Rdiv; lra.
Qed.

(** X24.  [_chirp_phase] integrates the instantaneous frequency with the
    trapezoid rule: an empty array raises [IndexError]; otherwise the
    result has one phase per sample, the first is 0 and each step adds
    [pi * (f[k] + f[k+1]) / sampling_rate] (the rate is not zero).  For a constant frequency
    [f0] the phase at sample [k] is [2 * pi * f0 * k / sampling_rate]. *)
Theorem chirp_phase_trapezoid (instant_freq : list R) (sampling_rate : R) :
  sampling_rate <> 0 ->
  (instant_freq = [] -> _chirp_phase instant_freq sampling_rate = Raise IndexError) /\
  (instant_freq <> [] ->
   exists phase,
     _chirp_phase instant_freq sampling_rate = Ok phase /\
     length phase = length instant_freq /\
     phase !! 0%nat = Some 0 /\
     (forall (k : nat) a b p q,
        instant_freq !! k = Some a -> instant_freq !! S k = Some b ->
        phase !! k = Some p -> phase !! S k = Some q ->
        q - p = PI * (a + b) / sampling_rate) /\
     (forall f0, Forall (fun v => v = f0) instant_freq ->
        forall k : nat, (k < length instant_freq)%nat ->
          phase !! k = Some (2 * PI * f0 * INR k / sampling_rate))).
Proof.
  intros _. split.
  - intros ->. reflexivity.
  - apply chirp_phase_lemma.
Qed.

Lemma cabs_cmul_expi z phi : cabs (cmul_expi z phi) = cabs z.
Proof.
  unfold cabs, cmul_expi. simpl. f_equal.
  pose proof (sin2_cos2 phi) as Hsc. unfold Rsqr in Hsc.
  set (s := sin phi) in *. set (c := cos phi) in *. destruct z as [a b]. simpl. nra.
Qed.

(** X25.  [apply_chirp_modulation] changes the phase of each sample and
    not its magnitude: for a waveform that is not empty it returns as
    many samples, each of the magnitude of the sample it comes from.
    When the chirp function gives frequency 0 everywhere, the waveform is
    returned unchanged.  An empty waveform raises [IndexError]. *)
Theorem apply_chirp_modulation_magnitude waveform chirp_func sampling_rate maxf maxv :
  sampling_rate <> 0 ->
  (waveform = [] ->
   apply_chirp_modulation waveform chirp_func sampling_rate maxf maxv
   = Raise IndexError) /\
  (waveform <> [] ->
   exists wf_chirp,
     apply_chirp_modulation waveform chirp_func sampling_rate maxf maxv = Ok wf_chirp /\
     length wf_chirp = length waveform /\
     (forall (k : nat) z z', waveform !! k = Some z -> wf_chirp !! k = Some z' ->
        cabs z' = cabs z) /\
     ((forall a, chirp_func a maxf maxv = 0) -> wf_chirp = waveform)).
Proof.
  intros _. split.
  - intros ->. reflexivity.
  - intros Hne. unfold apply_chirp_modulation.
    set (freq := map (fun a => chirp_func a maxf maxv) (map cabs waveform)).
    assert (length freq = length waveform) as Hlf by (unfold freq; by rewrite !length_map).
    destruct (chirp_phase_lemma freq sampling_rate) as (ph & Hph & Hlen & _ & _ & Hzero).
    { intros Hnil. rewrite Hnil in Hlf. destruct waveform; done. }
    rewrite Hph. simpl. eexists. split; [reflexivity|].
    split; [rewrite length_zip_with; lia|]. split.
    + intros k z z' Hz Hz'.
      apply lookup_zip_with_Some in Hz' as (z0 & phi & -> & Hz0 & _).
      assert (z0 = z) as -> by congruence. apply cabs_cmul_expi.
    + intros Hf. apply list_eq. intros k. rewrite lookup_zip_with.
      destruct (waveform !! k) as [z|] eqn:Hz; simpl; [|done].
      pose proof (lookup_lt_Some _ _ _ Hz) as Hk.
      rewrite (Hzero 0); [| |lia].
      2:{ unfold freq. apply Forall_fmap, Forall_forall. intros a _. apply Hf. }
      simpl. f_equal. unfold cmul_expi.
      replace (2 * PI * 0 * INR k / sampling_rate) with 0 by (unfold Rdiv; lra).
      rewrite cos_0, sin_0. destruct z as [a b]. simpl. f_equal; lra.
Qed.

End PulseCalls.

(** ** Examples of the pulses *)

Section PulseExamples.
#[local] Open Scope R_scope.

Lemma gaussian_range_witness :
  gaussian 1 0 1 = Raise ValueError /\
  exists wf, gaussian 1 2 1 = Ok wf /\ length wf = 2%nat /\ zero_based wf /\
             Forall (fun v => 0 <= v <= 1) wf.
Proof.
  destruct (gaussian_range 1 0 1 ltac:(lra) ltac:(lra)) as [Hempty _].
  destruct (gaussian_range 1 2 1 ltac:(lra) ltac:(lra)) as [_ Hfull].
  split; [apply Hempty; lra|].
  destruct Hfull as (wf & Hrun & Hlen & Hzero & Hmax & _); [lra|].
  exists wf. split; [exact Hrun|]. split; [|split; [exact Hzero | exact Hmax]].
  rewrite Hlen. rewrite (Zceil_eq 2); [reflexivity | lra].
Defined.

Lemma tanh_box_zero_based_witness :
  exists wf, tanh_box 2 1 0.01 1 = Ok wf /\ length wf = 2%nat /\ zero_based wf.
Proof.
  destruct (tanh_box_zero_based 2 1 0.01 1 ltac:(lra) ltac:(lra)) as [_ Hfull].
  destruct Hfull as (wf & Hrun & Hlen & Hzero & _); [lra|].
  exists wf. split; [exact Hrun|]. split; [|exact Hzero].
  rewrite Hlen. rewrite (Zceil_eq 2); [reflexivity | lra].
Defined.

Lemma demo_channel : channel_of demo_pulse_cfg "q" = Ok (VInt 0).
Proof. vm_compute. reflexivity. Qed.

Lemma demo_soc_gen : soc_gen demo_pulse_cfg (VInt 0) = Ok demo_gen.
Proof. reflexivity. Qed.

Lemma demo_length_pos : 0 < 1 * f_fabric demo_gen * IZR (samps_per_clk demo_gen).
Proof. simpl. lra. Qed.

Lemma add_gaussian_phase_witness :
  exists c0 c,
    add_gaussian demo_pulse_cfg "q" "g" 1 1 0 None None 0 = Ok c0 /\
    add_gaussian demo_pulse_cfg "q" "g" 1 1 90 None None 0 = Ok c /\
    length (pulse_idata c) = length (pulse_idata c0) /\
    Forall (fun v => v = 0) (pulse_qdata c0).
Proof.
  destruct (add_gaussian_phase demo_pulse_cfg "q" "g" 1 1 90 None 0 (VInt 0) demo_gen
              demo_channel demo_soc_gen demo_length_pos ltac:(lra))
    as (c0 & c & wf & Hrun0 & Hrun & _ & _ & Hlen & _ & _ & Hdrag).
  exists c0, c. split; [exact Hrun0|]. split; [exact Hrun|]. split; [exact Hlen|].
  exact (proj2 (Hdrag eq_refl)).
Defined.

Lemma add_pulse_lengths_witness :
  exists call,
    add_gaussian demo_pulse_cfg "q" "g" 1 1 0 None None 0 = Ok call /\
    length (pulse_idata call) = length (pulse_qdata call) /\
    (16 <= length (pulse_idata call))%nat /\
    (length (pulse_idata call) mod 16 = 0)%nat.
Proof.
  destruct (gaussian_returns (1 * f_fabric demo_gen * IZR (samps_per_clk demo_gen))
              (1 * f_fabric demo_gen * IZR (samps_per_clk demo_gen))
              (gen_maxv demo_gen * gen_maxv_scale demo_gen) demo_length_pos)
    as (wf & Hwf & Hne).
  destruct (gradient_of_padded wf Hne) as (gr & Hgr & _).
  assert (exists call, add_gaussian demo_pulse_cfg "q" "g" 1 1 0 None None 0 = Ok call)
    as [call Hcall].
  { unfold add_gaussian. rewrite demo_channel. cbn [obind]. rewrite demo_soc_gen.
    cbn [obind]. rewrite Hwf. cbn [obind]. rewrite Hgr. cbn [obind]. eauto. }
  exists call. split; [exact Hcall|].
  apply (add_pulse_lengths demo_pulse_cfg "q" "g" call).
  right. left. by exists 1, 1, 0, None, None, 0.
Defined.

Lemma add_arbitrary_without_drag_witness :
  exists call,
    add_arbitrary demo_pulse_cfg "q" "a" [1; 2; 3] 0 None None 0 = Ok call /\
    Forall (fun v => v = 0) (pulse_idata call) /\
    Forall (fun v => v = 0) (pulse_qdata call).
Proof.
  destruct (add_arbitrary_without_drag demo_pulse_cfg "q" "a" [1; 2; 3] 0 None (VInt 0)
              demo_gen demo_channel demo_soc_gen) as [_ Hfull].
  destruct Hfull as (call & Hrun & _ & _ & _ & _ & Hi & Hq); [done|].
  exists call. split; [exact Hrun|]. split; [exact Hi | exact Hq].
Defined.

Lemma chirp_phase_trapezoid_witness :
  _chirp_phase [] 1 = Raise IndexError /\
  exists phase, _chirp_phase [1; 1; 1] 1 = Ok phase /\
                phase !! 2%nat = Some (2 * PI * 1 * INR 2 / 1).
Proof.
  destruct (chirp_phase_trapezoid [] 1 ltac:(lra)) as [Hempty _].
  destruct (chirp_phase_trapezoid [1; 1; 1] 1 ltac:(lra)) as [_ Hfull].
  split; [by apply Hempty|].
  destruct Hfull as (phase & Hrun & _ & _ & _ & Hconst); [done|].
  exists phase. split; [exact Hrun|].
  apply Hconst; [by repeat constructor | simpl; lia].
Defined.

Lemma apply_chirp_modulation_magnitude_witness :
  exists wf_chirp,
    apply_chirp_modulation [(1, 0); (0, 1)] (fun _ _ _ => 0) 1 0 30000 = Ok wf_chirp /\
    wf_chirp = [(1, 0); (0, 1)].
Proof.
  destruct (apply_chirp_modulation_magnitude [(1, 0); (0, 1)] (fun _ _ _ => 0) 1 0 30000
              ltac:(lra)) as [_ Hfull].
  destruct Hfull as (wf_chirp & Hrun & _ & _ & Hsame); [done|].
  exists wf_chirp. split; [exact Hrun|]. by apply Hsame.
Defined.

End PulseExamples.
